(** * The vector-analysis pipeline of the word-embedding gallery

    A shallow embedding of the numeric utilities of the gallery
    ([src/utils/embeddings.ts], [src/utils/clustering.ts],
    [src/utils/constants.ts]) and of the derived state and the word entry
    of its main component ([coordsRaw], the cluster count,
    [selectedNeighbors], [addWord]), followed by the properties its
    specification states about them and by further properties of the
    code.

    JavaScript numbers are IEEE 754 binary64 values; they are modelled by
    Rocq's primitive floats, whose operations are the same binary64
    operations (round to nearest, ties to even) and which therefore
    evaluate exactly as the source does, NaN and infinities included. *)

From Stdlib Require Import ZArith List Bool Lia Floats String Ascii.
From Stdlib Require Uint63.
From stdpp Require Import base list sorting.
Import ListNotations.

(** ** JavaScript values *)

Abbreviation number := float.

(** Completion of a call: a value, or a thrown exception. *)
Inductive js_error := TypeError.

Inductive completion (A : Type) : Type :=
| Normal (a : A)
| Throw (e : js_error).
Arguments Normal {A} a.
Arguments Throw {A} e.

#[export] Instance completion_ret : MRet completion := fun _ a => Normal a.

#[export] Instance completion_bind : MBind completion := fun _ _ f c =>
  match c with
  | Normal a => f a
  | Throw e => Throw e
  end.

(** A monadic left fold: the body of a [for] loop that may throw. *)
Fixpoint foldM {A B} (f : A -> B -> completion A) (l : list B) (a : A) : completion A :=
  match l with
  | [] => Normal a
  | b :: l' => a' ← f a b; foldM f l' a'
  end.

(** [ToNumber(undefined)] is NaN: an array read that is used as an operand
    of an arithmetic operator or of a comparison. *)
Definition to_number (x : option number) : number := default nan x.

(** [a[i]] in a numeric context; out of range reads give [undefined]. *)
Definition elem (a : list number) (i : nat) : number := to_number (a !! i).

(** [rows[i]] for an index the loops keep within range. *)
Definition row {A} (rows : list (list A)) (i : nat) : list A := default [] (rows !! i).

Definition truthy (x : number) : bool := negb (PrimFloat.is_zero x || PrimFloat.is_nan x).

(** [x || y] on numbers. *)
Definition js_or (x y : number) : number := if truthy x then x else y.

(** A loop counter or a length used as a number (exact below 2^53). *)
Definition num_of_nat (n : nat) : number := of_uint63 (Uint63.of_Z (Z.of_nat n)).

(** A store into a [Float32Array] rounds the binary64 value to binary32. *)
Definition fround (x : number) : number :=
  match Prim2SF x with
  | S754_finite sx mx ex => SF2Prim (binary_round 24 128 sx mx ex)
  | _ => x
  end.

(** The values a [Float32Array] holds: those a store leaves unchanged. *)
Definition is_float32 (x : number) : bool := PrimFloat.Leibniz.eqb (fround x) x.

(** Strings are sequences of UTF-16 code units. *)
Definition jsstring := list Z.

Definition str (t : string) : jsstring :=
  map (fun c => Z.of_N (N_of_ascii c)) (list_ascii_of_string t).

(** ** [src/utils/embeddings.ts] *)

Definition dot (a b : list number) : number :=
  fold_left (fun s i => (s + elem a i * elem b i)%float) (seq 0 (length a)) 0%float.

Definition cosine (a b : list number) : number := dot a b.

(** The call [dot(a, b)] as a completion: the body has no [throw] and none of
    its operations throws on arrays. *)
Definition call_dot (a b : list number) : completion number := Normal (dot a b).

Definition call_cosine (a b : list number) : completion number := Normal (cosine a b).

(** [M[i][j] = s] *)
Definition set_cell (M : list (list number)) (i j : nat) (s : number) : list (list number) :=
  alter (fun r => <[j := s]> r) i M.

Definition buildSimMatrix (vectors : list (list number)) : list (list number) :=
  let n := length vectors in
  let M := replicate n (replicate n 0%float) in
  fold_left (fun M i =>
    fold_left (fun M j =>
      let s := ((cosine (row vectors i) (row vectors j) + 1) / 2)%float in
      set_cell (set_cell M i j s) j i s)
      (seq i (n - i)) M)
    (seq 0 n) M.

Record neighbor := { j : nat; s : number }.

(** [(a, b) => b.s - a.s] *)
Definition comparefn (a b : neighbor) : number := (s b - s a)%float.

(** [Array.prototype.sort] is stable (ECMAScript 2019) and takes a NaN
    result of the comparator as [+0]: an element moves behind a later one
    only when the comparator is positive on the pair; a NaN or zero result
    leaves the two in place.  For a consistent comparator the standard fixes
    the result, and it is this list.  A comparator that is NaN on some pairs
    and not on others is not consistent on three or more elements; the
    standard then leaves the order to the engine, and this list is one of
    the orders it allows, not the one of a particular engine. *)
Fixpoint sort_insert {A} (cmp : A -> A -> number) (x : A) (l : list A) : list A :=
  match l with
  | [] => [x]
  | y :: l' => if (0 <? cmp x y)%float then y :: sort_insert cmp x l' else x :: l
  end.

Definition js_sort {A} (cmp : A -> A -> number) (l : list A) : list A :=
  foldr (sort_insert cmp) [] l.

Definition sims_of (vectors : list (list number)) (i : nat) : list neighbor :=
  fold_left (fun sims c =>
    if decide (c ≠ i)
    then sims ++ [{| j := c; s := cosine (row vectors i) (row vectors c) |}]
    else sims)
    (seq 0 (length vectors)) [].

Definition nearestNeighbors (vectors : list (list number)) (k : nat) : list (list neighbor) :=
  fold_left (fun result i =>
    result ++ [take k (js_sort comparefn (sims_of vectors i))])
    (seq 0 (length vectors)) [].

(** ** [src/utils/clustering.ts] *)

(** [a[i] = v] on an ordinary array: a store past the end extends the array,
    the skipped slots being holes (read as [undefined], NaN as a number). *)
Definition js_store (a : list number) (i : nat) (v : number) : list number :=
  if decide (i < length a) then <[i := v]> a
  else a ++ replicate (i - length a) nan ++ [v].

Record kmeans_result := { labels : list nat; centers : list (list number) }.

(** [for (let i = 0; i < k && i < n; i++) centers.push([...points[i]])] *)
Definition init_centers (points : list (list number)) (k : nat) : list (list number) :=
  fold_left (fun ctrs i => ctrs ++ [row points i])
    (seq 0 (Nat.min k (length points))) [].

(** The scan over the centers for one point: [best] after the inner loop. *)
Definition nearest (ctrs : list (list number)) (p : list number) : nat :=
  fst (fold_left (fun '(best, bestd) c =>
      let dx := (elem p 0 - elem (row ctrs c) 0)%float in
      let dy := (elem p 1 - elem (row ctrs c) 1)%float in
      let d := (dx * dx + dy * dy)%float in
      if (d <? bestd)%float then (c, d) else (best, bestd))
    (seq 0 (length ctrs)) (0, infinity)).

Definition assign (points ctrs : list (list number)) (lbls : list nat) : list nat :=
  fold_left (fun lbls i => <[i := nearest ctrs (row points i)]> lbls)
    (seq 0 (length points)) lbls.

(** The accumulation loop; [sum[c][0] += ...] throws a [TypeError] when
    [sum[c]] is [undefined]. *)
Definition accumulate (points : list (list number)) (lbls : list nat)
    (sum : list (list number)) (cnt : list nat)
  : completion (list (list number) * list nat) :=
  foldM (fun '(sum, cnt) i =>
      let c := default 0 (lbls !! i) in
      match sum !! c with
      | None => Throw TypeError
      | Some sc =>
          let sc := js_store sc 0 (elem sc 0 + elem (row points i) 0)%float in
          let sc := js_store sc 1 (elem sc 1 + elem (row points i) 1)%float in
          Normal (<[c := sc]> sum, <[c := S (default 0 (cnt !! c))]> cnt)
      end)
    (seq 0 (length points)) (sum, cnt).

Definition update_centers (ctrs sum : list (list number)) (cnt : list nat)
  : list (list number) :=
  fold_left (fun ctrs c =>
      let n := default 0 (cnt !! c) in
      if decide (0 < n) then
        alter (fun ctr =>
            let ctr := js_store ctr 0 (elem (row sum c) 0 / num_of_nat n)%float in
            js_store ctr 1 (elem (row sum c) 1 / num_of_nat n)%float) c ctrs
      else ctrs)
    (seq 0 (length ctrs)) ctrs.

(** One pass of the outer loop: assignment, accumulation, recentering. *)
Definition kmeans_step (points : list (list number))
    (st : list nat * list (list number)) (it : nat)
  : completion (list nat * list (list number)) :=
  let '(lbls, ctrs) := st in
  let lbls := assign points ctrs lbls in
  '(sum, cnt) ← accumulate points lbls
                   (map (fun _ => [0; 0]%float) ctrs) (map (fun _ => 0) ctrs);
  Normal (lbls, update_centers ctrs sum cnt).

Definition kmeans (points : list (list number)) (k iters : nat) : completion kmeans_result :=
  if decide (length points = 0) then Normal {| labels := []; centers := [] |}
  else
    let n := length points in
    r ← foldM (kmeans_step points) (seq 0 iters)
          (replicate n 0, init_centers points k);
    Normal {| labels := fst r; centers := snd r |}.

(** The bounding box loop of [normalize2D]. *)
Definition bounds (coords : list (list number)) : number * number * number * number :=
  fold_left (fun '(minX, maxX, minY, maxY) p =>
      let x := elem p 0 in
      let y := elem p 1 in
      let minX := if (x <? minX)%float then x else minX in
      let maxX := if (maxX <? x)%float then x else maxX in
      let minY := if (y <? minY)%float then y else minY in
      let maxY := if (maxY <? y)%float then y else maxY in
      (minX, maxX, minY, maxY))
    coords (infinity, neg_infinity, infinity, neg_infinity).

Definition normalize2D (coords : list (list number)) (width height pad : number)
  : list (list number) :=
  if decide (length coords = 0) then []
  else
    let '(minX, maxX, minY, maxY) := bounds coords in
    let spanX := js_or (maxX - minX)%float 1%float in
    let spanY := js_or (maxY - minY)%float 1%float in
    let W := (width - pad * 2)%float in
    let H := (height - pad * 2)%float in
    map (fun p =>
        let x := elem p 0 in
        let y := elem p 1 in
        [ (pad + ((x - minX) / spanX) * W)%float;
          (pad + ((y - minY) / spanY) * H)%float ])
      coords.

(** 32-bit integer conversions of the bitwise operators and of [Math.imul]. *)
Definition to_int32 (z : Z) : Z := ((z + 2 ^ 31) mod 2 ^ 32 - 2 ^ 31)%Z.
Definition to_uint32 (z : Z) : Z := (z mod 2 ^ 32)%Z.
Definition imul (a b : Z) : Z := to_int32 (to_int32 a * to_int32 b).

(** FNV-1a 32-bit *)
Definition hashTri (tri : jsstring) : Z :=
  to_uint32
    (fold_left (fun h c => imul (Z.lxor (to_int32 h) (to_int32 c)) 0x01000193%Z)
       tri 0x811c9dc5%Z).

Section ToyEmbedding.

(** [String.prototype.toLowerCase], a built-in of the host. *)
Variable toLowerCase : jsstring -> jsstring.

Definition embedWordToy (word : jsstring) (dim : nat) : list number :=
  let s := str "^^" ++ toLowerCase word ++ str "$$" in
  let v := replicate dim 0%float in
  let v := fold_left (fun v i =>
      let tri := take 3 (drop i s) in
      let idx := Z.to_nat (hashTri tri mod Z.of_nat dim) in
      <[idx := fround (elem v idx + 1)%float]> v)
    (seq 0 (length s - 2)) v in
  let norm := fold_left (fun norm i => (norm + elem v i * elem v i)%float)
                (seq 0 dim) 0%float in
  let norm := js_or (sqrt norm) 1%float in
  fold_left (fun v i => <[i := fround (elem v i / norm)%float]> v) (seq 0 dim) v.

End ToyEmbedding.

(** [toLowerCase] on strings of ASCII code units, where it only moves
    [A-Z] to [a-z]. *)
Definition toLowerCase_ascii (t : jsstring) : jsstring :=
  map (fun c => if ((65 <=? c) && (c <=? 90))%Z then (c + 32)%Z else c) t.

(** ** The projection stage of the main component: [coordsRaw] *)

Inductive method := pca | umap.

(** A call into one of the external reduction libraries. *)
Inductive backend_call :=
| PCA_predict (X : list (list number))
| UMAP_fit (nNeighbors : nat) (minDist : number) (X : list (list number)).

(** The external libraries: each call returns coordinates or throws.  UMAP is
    stochastic, so two runs may be run with two different [backends]. *)
Record backends := {
  run_pca : list (list number) -> completion (list (list number));
  run_umap : nat -> number -> list (list number) -> completion (list (list number))
}.

Section Projection.

(** [Math.sin] and [Math.floor] of the host. *)
Variables Math_sin Math_floor : number -> number.

Definition seed : number := 1337%float.

Definition rand (i : number) : number :=
  let x := (Math_sin (seed + i) * 10000)%float in
  (x - Math_floor x)%float.

(** The [catch] branch. *)
Definition fallback (X vectors : list (list number)) : list (list number) :=
  let d := match X !! 0 with Some x0 => length x0 | None => 64 end in
  let a := map (fun i => (rand (num_of_nat i) - 0.5)%float) (seq 0 d) in
  let b := map (fun i => (rand (num_of_nat i + 17) - 0.5)%float) (seq 0 d) in
  map (fun v => [dot v a; dot v b]) vectors.

(** [vectors] holds one vector per word, so [words.length] is its length.
    The result is paired with the calls made into the libraries. *)
Definition coordsRaw (B : backends) (vectors : list (list number)) (m : method)
    (umapMinDist : number) (umapNNeighbors : nat)
  : list backend_call * list (list number) :=
  if decide (length vectors = 0) then ([], [])
  else
    let X := vectors in
    if decide (length X < 3)
    then ([], imap (fun i _ => [num_of_nat i * 30; num_of_nat i * 30]%float) X)
    else
      match m with
      | pca =>
          match run_pca B X with
          | Normal Y => ([PCA_predict X], Y)
          | Throw _ => ([PCA_predict X], fallback X vectors)
          end
      | umap =>
          let nn := Nat.max 2 (Nat.min umapNNeighbors (length X - 1)) in
          match run_umap B nn umapMinDist X with
          | Normal Y => ([UMAP_fit nn umapMinDist X], Y)
          | Throw _ => ([UMAP_fit nn umapMinDist X], fallback X vectors)
          end
      end.

End Projection.

(** ** Built-in functions of [Math] *)

Module Math.

(** [Math.max] and [Math.min] of two arguments: NaN when an argument is NaN;
    [+0] counts as larger than [-0]. *)
Definition max (x y : number) : number :=
  if PrimFloat.is_nan x || PrimFloat.is_nan y then nan
  else if (x <? y)%float then y
  else if (y <? x)%float then x
  else if get_sign x then y else x.

Definition min (x y : number) : number :=
  if PrimFloat.is_nan x || PrimFloat.is_nan y then nan
  else if (x <? y)%float then x
  else if (y <? x)%float then y
  else if get_sign x then x else y.

(** The number whose value is the integer [z], for [|z| < 2^53]. *)
Definition of_int (z : Z) : number :=
  if (z <? 0)%Z then (- of_uint63 (Uint63.of_Z (- z)))%float
  else of_uint63 (Uint63.of_Z z).

(** [Math.floor]: the largest integer that is not above [x].  A value with a
    non-negative exponent is an integer already; NaN, the infinities and the
    zeros are returned as they are. *)
Definition floor (x : number) : number :=
  match Prim2SF x with
  | S754_finite sx m e =>
      if (0 <=? e)%Z then x
      else of_int (cond_Zopp sx (Zpos m) / 2 ^ (- e))
  | _ => x
  end.

Definition sqrt (x : number) : number := PrimFloat.sqrt x.

End Math.

(** ** [src/utils/constants.ts] *)

Section HeatColor.

(** [Number::toString], a built-in of the host. *)
Variable Number_toString : number -> jsstring.

(** [`hsl(${hue}, ${sat}%, ${light}%)`] *)
Definition hsl (hue sat light : number) : jsstring :=
  str "hsl(" ++ Number_toString hue ++ str ", " ++ Number_toString sat
  ++ str "%, " ++ Number_toString light ++ str "%)".

Definition heatColor (v : number) : jsstring :=
  let hue := (220 - 220 * v)%float in
  let sat := 70%float in
  let light := (35 + 25 * v)%float in
  hsl hue sat light.

End HeatColor.

Module LabelMetrics.

(** The optional argument [opts]; an absent field is [None]. *)
Module Opts.
Record t := {
  minW : option number;
  maxW : option number;
  padX : option number;
  baseSize : option number;
  minSize : option number
}.
End Opts.

(** [opts?.field ?? d] *)
Definition field_or (opts : option Opts.t) (field : Opts.t -> option number)
    (d : number) : number :=
  match opts with
  | Some o => default d (field o)
  | None => d
  end.

Record metrics := {
  width : number;
  height : number;
  fontSize : number;
  text : jsstring;
  padX : number
}.

(** [s.slice(0, e)]: [e] is truncated towards zero to an integer, counted
    from the end when that integer is negative, and clamped to the
    length. *)
Definition slice_to (s : jsstring) (e : number) : jsstring :=
  match Prim2SF e with
  | S754_nan | S754_zero _ | S754_infinity true => []
  | S754_infinity false => s
  | S754_finite sx m ex =>
      let k := (if 0 <=? ex then Zpos m * 2 ^ ex else Zpos m / 2 ^ (- ex))%Z in
      let relativeEnd := cond_Zopp sx k in
      if (relativeEnd <? 0)%Z then take (Z.to_nat (Z.of_nat (length s) + relativeEnd)) s
      else take (Z.to_nat relativeEnd) s
  end.

(** The [while] loop, run for at most [fuel] rounds: [None] when it has not
    stopped by then. *)
Fixpoint shrink (fuel : nat) (est : number -> number) (limit minSize fontSize : number)
  : option number :=
  if ((limit <? est fontSize) && (minSize <? fontSize))%float then
    match fuel with
    | 0 => None
    | S fuel' => shrink fuel' est limit minSize (fontSize - 1)%float
    end
  else Some fontSize.

Definition labelMetrics (fuel : nat) (str : jsstring) (opts : option Opts.t)
  : option metrics :=
  let minW := field_or opts Opts.minW 72 in
  let maxW := field_or opts Opts.maxW 300 in
  let padX := field_or opts Opts.padX 12 in
  let fontSize := field_or opts Opts.baseSize 12 in
  let minSize := field_or opts Opts.minSize 10 in
  (* 0.6 is the binary64 value 0x1.3333333333333p-1 *)
  let charW := fun size : number => (size * 0x1.3333333333333p-1)%float in
  let estWidth := fun (s : jsstring) (fs : number) =>
    Math.max (minW - padX * 2)%float
      (Math.min (maxW - padX * 2)%float (num_of_nat (length s) * charW fs)%float) in
  let w := Math.min maxW (Math.max minW (estWidth str fontSize + padX * 2)%float) in
  match shrink fuel (estWidth str) (w - padX * 2)%float minSize fontSize with
  | None => None
  | Some fontSize =>
      let maxChars := Math.floor ((w - padX * 2) / charW fontSize)%float in
      let text :=
        if (maxChars <? num_of_nat (length str))%float
        then slice_to str (Math.max 0 (maxChars - 1)%float) ++ [8230%Z]
        else str in
      Some {| width := w; height := 44; fontSize := fontSize; text := text; padX := padX |}
  end.

End LabelMetrics.

(** ** The main component: clusters, spotlight and word entry *)

(** The number of clusters asked of [kmeans] for [n] points:
    [Math.min(5, Math.max(2, Math.floor(Math.sqrt(Math.max(1, n) / 3))))]. *)
Definition cluster_count (n : nat) : number :=
  Math.min 5 (Math.max 2
    (Math.floor (Math.sqrt (Math.max 1 (num_of_nat n) / 3)%float))).

Module Gallery.

(** An entry of the spotlight list. *)
Record spot := { index : nat; sim : number }.

(** [a[i]] for a number [i] that is an integer: [undefined] when it is
    negative or past the end. *)
Definition at_index {A} (a : list A) (i : Z) : option A :=
  if (i <? 0)%Z then None else a !! Z.to_nat i.

(** The [selectedNeighbors] memo; [None] is [null]. *)
Definition selectedNeighbors (neighborList : list (list neighbor)) (selected : option Z)
  : option (list spot) :=
  match selected with
  | None => None
  | Some i =>
      let arr := default [] (at_index neighborList i) in
      Some (js_sort (fun a b => (sim b - sim a)%float)
              (map (fun e => {| index := j e; sim := s e |}) arr))
  end.

(** [Array.prototype.findIndex]: the first index whose element satisfies
    the predicate, or [-1]. *)
Fixpoint findIndex_from {A} (P : A -> bool) (a : list A) (i : Z) : Z :=
  match a with
  | [] => (-1)%Z
  | x :: a' => if P x then i else findIndex_from P a' (i + 1)%Z
  end.

Definition findIndex {A} (P : A -> bool) (a : list A) : Z := findIndex_from P a 0%Z.

(** The state the word entry works on. *)
Record state := {
  words : list jsstring;
  newWord : jsstring;
  selected : option Z
}.

Section Handlers.

(** [String.prototype.toLowerCase] and [String.prototype.trim] of the host. *)
Variables toLowerCase trim : jsstring -> jsstring.

(** The state after the handler [addWord] has run. *)
Definition addWord (st : state) : state :=
  let w := trim (newWord st) in
  if bool_decide (w = []) then st
  else if bool_decide (toLowerCase w ∈ map toLowerCase (words st)) then
    {| words := words st;
       newWord := [];
       selected := Some (findIndex (fun x => bool_decide (toLowerCase x = toLowerCase w))
                           (words st)) |}
  else
    {| words := words st ++ [w];
       newWord := [];
       selected := Some (Z.of_nat (length (words st))) |}.

End Handlers.

End Gallery.

(** * Properties *)

(** ** IEEE 754 facts used below *)

Lemma Prim2SF_nan : Prim2SF nan = S754_nan.
Proof. reflexivity. Qed.

Lemma add_nan_l (x : number) : (nan + x)%float = nan.
Proof. apply Prim2SF_inj. rewrite add_spec. reflexivity. Qed.

Lemma mul_nan_r (x : number) : (x * nan)%float = nan.
Proof.
  apply Prim2SF_inj. rewrite mul_spec, Prim2SF_nan.
  unfold SF64mul, SFmul. destruct (Prim2SF x); reflexivity.
Qed.

Lemma add_nan_r (x : number) : (x + nan)%float = nan.
Proof.
  apply Prim2SF_inj. rewrite add_spec, Prim2SF_nan.
  unfold SF64add, SFadd. destruct (Prim2SF x) as [[]|[]| |]; reflexivity.
Qed.

(** ** Loops *)

Lemma fold_left_ext_in {A B} (f g : A -> B -> A) (l : list B) (a : A) :
  (forall a x, x ∈ l -> f a x = g a x) -> fold_left f l a = fold_left g l a.
Proof.
  revert a. induction l as [|x l IH]; intros a H; simpl; [done|].
  rewrite H by constructor. apply IH. intros; apply H; by constructor.
Qed.

Lemma elem_take (b : list number) (n i : nat) : i < n -> elem (take n b) i = elem b i.
Proof. intros Hi. unfold elem. by rewrite lookup_take_lt. Qed.

Lemma elem_ge (b : list number) (i : nat) : length b <= i -> elem b i = nan.
Proof. intros Hi. unfold elem. by rewrite lookup_ge_None_2. Qed.

Lemma dot_step_nan (a b : list number) (l : list nat) :
  fold_left (fun s i => (s + elem a i * elem b i)%float) l nan = nan.
Proof. induction l as [|i l IH]; simpl; [done|]. by rewrite add_nan_l. Qed.

(** [dot] reads [b] only at the indices of [a]. *)
Lemma dot_truncates (a b : list number) :
  length a <= length b -> dot a b = dot a (take (length a) b).
Proof.
  intros _. unfold dot. apply fold_left_ext_in. intros s i Hi.
  apply elem_of_seq in Hi. rewrite elem_take by lia. done.
Qed.

Lemma dot_short_nan (a b : list number) :
  length b < length a -> dot a b = nan.
Proof.
  intros Hlt. unfold dot.
  replace (length a) with (length b + S (length a - S (length b))) by lia.
  rewrite seq_app, fold_left_app. simpl.
  rewrite (elem_ge b (length b)) by lia.
  rewrite mul_nan_r, add_nan_r. apply dot_step_nan.
Qed.

(** C1, as the code behaves: [dot] (and so [cosine]) never throws.  It walks
    the indices of [a]: when [b] is shorter the missing entries read as
    [undefined] and the result is NaN; otherwise the entries of [b] past the
    length of [a] are ignored, that is, [b] is truncated to the length of
    [a]. *)
Theorem dot_completes_without_length_check (a b : list number) :
  call_dot a b = Normal (dot a b) /\
  call_cosine a b = call_dot a b /\
  dot a b = if decide (length b < length a) then nan
            else dot a (take (length a) b).
Proof.
  split; [done|]. split; [done|].
  destruct (decide (length b < length a)) as [Hlt|Hge].
  - by apply dot_short_nan.
  - apply dot_truncates. lia.
Qed.

(** C1 fails on the code: with [a] of length 1 and [b] of length 2 the call
    returns the value [1], the product of the first entries, with nothing
    thrown; with the arguments swapped it returns NaN. *)
Lemma dot_length_mismatch_returns_value :
  length [1%float] <> length [1%float; 2%float] /\
  ~ (exists e, call_dot [1%float] [1%float; 2%float] = Throw e) /\
  call_dot [1%float] [1%float; 2%float] = Normal 1%float /\
  call_dot [1%float] [1%float; 2%float] = call_dot [1%float] [1%float] /\
  call_cosine [1%float; 2%float] [1%float] = Normal nan.
Proof.
  split; [simpl; lia|]. split; [intros [e He]; discriminate He|].
  repeat split; reflexivity.
Qed.

(** *** Mantissas and exponents of binary64 values *)

Lemma digits2_pos_bounds (m : positive) :
  (2 ^ (Zpos (digits2_pos m) - 1) <= Zpos m < 2 ^ Zpos (digits2_pos m))%Z.
Proof.
  induction m as [m IH|m IH|]; simpl digits2_pos;
    [rewrite Pos2Z.inj_succ, (Pos2Z.inj_xI m) | rewrite Pos2Z.inj_succ, (Pos2Z.inj_xO m) | simpl; lia];
    replace (Z.succ (Zpos (digits2_pos m)) - 1)%Z
      with (Z.succ (Zpos (digits2_pos m) - 1)) by lia;
    rewrite !Z.pow_succ_r by lia;
    generalize dependent (2 ^ (Zpos (digits2_pos m) - 1))%Z;
    generalize dependent (2 ^ Zpos (digits2_pos m))%Z; intros; lia.
Qed.

Lemma fexp_eq (x : Z) : fexp prec emax x = Z.max (x - 53) (-1074).
Proof. reflexivity. Qed.

(** What [valid_binary] says about a finite value: the exponent is in range,
    the mantissa has at most 53 bits, and exactly 53 unless the exponent is
    the least one (subnormal values). *)
Lemma valid_finite (sx : bool) (m : positive) (e : Z) :
  valid_binary (S754_finite sx m e) = true ->
  (-1074 <= e <= 971)%Z /\ (Zpos m < 2 ^ 53)%Z /\
  (e = -1074 \/ 2 ^ 52 <= Zpos m)%Z.
Proof.
  unfold SpecFloat.valid_binary, bounded, canonical_mantissa. rewrite fexp_eq.
  intros H. apply andb_prop in H as [H1 H2].
  apply Z.eqb_eq in H1. apply Z.leb_le in H2.
  change (emax - prec)%Z with 971%Z in H2.
  pose proof (digits2_pos_bounds m) as [Hlo Hhi].
  assert (Hd : (Zpos (digits2_pos m) <= 53)%Z) by lia.
  split; [lia|]. split.
  - eapply Z.lt_le_trans; [exact Hhi|]. apply Z.pow_le_mono_r; lia.
  - destruct (Z.eq_dec e (-1074)%Z) as [|Hne]; [by left|right].
    assert (Zpos (digits2_pos m) = 53%Z) as Hd53 by lia.
    rewrite Hd53 in Hlo. exact Hlo.
Qed.

(** An order-preserving integer image of the non-NaN values: the value in
    units of 2^-1074, the infinities placed beyond every finite value. *)
Definition SFkey (x : spec_float) : Z :=
  match x with
  | S754_zero _ => 0
  | S754_nan => 0
  | S754_infinity sx => cond_Zopp sx (2 ^ 2098)
  | S754_finite sx m e => cond_Zopp sx (Zpos m * 2 ^ (e + 1074))
  end.

Definition key (x : number) : Z := SFkey (Prim2SF x).

Definition SFis_nan (x : spec_float) : bool :=
  match x with S754_nan => true | _ => false end.

Lemma finite_key_bounds (sx : bool) (m : positive) (e : Z) :
  valid_binary (S754_finite sx m e) = true ->
  (0 < Zpos m * 2 ^ (e + 1074) < 2 ^ 2098)%Z.
Proof.
  intros H. apply valid_finite in H as (He & Hm & _).
  assert (0 < 2 ^ (e + 1074))%Z by (apply Z.pow_pos_nonneg; lia).
  split; [lia|].
  assert (2 ^ (e + 1074) <= 2 ^ 2045)%Z by (apply Z.pow_le_mono_r; lia).
  replace (2 ^ 2098)%Z with (2 ^ 53 * 2 ^ 2045)%Z by (rewrite <- Z.pow_add_r; [reflexivity|lia|lia]).
  nia.
Qed.

Lemma magnitude_compare (s1 s2 : bool) (m1 m2 : positive) (e1 e2 : Z) :
  valid_binary (S754_finite s1 m1 e1) = true ->
  valid_binary (S754_finite s2 m2 e2) = true ->
  match (e1 ?= e2)%Z with
  | Lt => Lt
  | Gt => Gt
  | Eq => Pos.compare_cont Eq m1 m2
  end = (Zpos m1 * 2 ^ (e1 + 1074) ?= Zpos m2 * 2 ^ (e2 + 1074))%Z.
Proof.
  intros H1 H2.
  apply valid_finite in H1 as (He1 & Hm1 & Hn1).
  apply valid_finite in H2 as (He2 & Hm2 & Hn2).
  assert (HP1 : (0 < 2 ^ (e1 + 1074))%Z) by (apply Z.pow_pos_nonneg; lia).
  assert (HP2 : (0 < 2 ^ (e2 + 1074))%Z) by (apply Z.pow_pos_nonneg; lia).
  destruct (Z.compare_spec e1 e2) as [Heq|Hlt|Hgt].
  - subst e2. rewrite <- Zmult_compare_compat_r by lia. reflexivity.
  - symmetry. apply Z.compare_lt_iff.
    replace (e2 + 1074)%Z with ((e2 - e1) + (e1 + 1074))%Z by lia.
    rewrite (Z.pow_add_r 2 (e2 - e1) (e1 + 1074)) by lia.
    assert (2 ^ 1 <= 2 ^ (e2 - e1))%Z by (apply Z.pow_le_mono_r; lia).
    assert (2 ^ 52 <= Zpos m2)%Z by lia.
    change (2 ^ 1)%Z with 2%Z in *.
    assert (Zpos m1 < Zpos m2 * 2 ^ (e2 - e1))%Z.
    { eapply Z.lt_le_trans; [exact Hm1|]. change (2 ^ 53)%Z with (2 ^ 52 * 2)%Z.
      apply Z.mul_le_mono_nonneg; lia. }
    rewrite Z.mul_assoc. apply Z.mul_lt_mono_pos_r; assumption.
  - symmetry. apply Z.compare_gt_iff.
    replace (e1 + 1074)%Z with ((e1 - e2) + (e2 + 1074))%Z by lia.
    rewrite (Z.pow_add_r 2 (e1 - e2) (e2 + 1074)) by lia.
    assert (2 ^ 1 <= 2 ^ (e1 - e2))%Z by (apply Z.pow_le_mono_r; lia).
    assert (2 ^ 52 <= Zpos m1)%Z by lia.
    change (2 ^ 1)%Z with 2%Z in *.
    assert (Zpos m2 < Zpos m1 * 2 ^ (e1 - e2))%Z.
    { eapply Z.lt_le_trans; [exact Hm2|]. change (2 ^ 53)%Z with (2 ^ 52 * 2)%Z.
      apply Z.mul_le_mono_nonneg; lia. }
    rewrite Z.mul_assoc. apply Z.mul_lt_mono_pos_r; assumption.
Qed.

Ltac key_cmp :=
  cbn [cond_Zopp]; f_equal; symmetry;
  first [ apply Z.compare_eq_iff; lia
        | apply Z.compare_lt_iff; lia
        | apply Z.compare_gt_iff; lia ].

(** On valid non-NaN values the IEEE comparison is the comparison of the
    integer images. *)
Lemma SFcompare_key (x y : spec_float) :
  valid_binary x = true -> valid_binary y = true ->
  SFis_nan x = false -> SFis_nan y = false ->
  SFcompare x y = Some (SFkey x ?= SFkey y)%Z.
Proof.
  intros Vx Vy Nx Ny.
  destruct x as [sx|sx| |sx mx ex], y as [sy|sy| |sy my ey];
    try discriminate; unfold SFcompare, SFkey;
    try (pose proof (finite_key_bounds _ _ _ Vx) as Bx);
    try (pose proof (finite_key_bounds _ _ _ Vy) as By);
    try (pose proof (magnitude_compare _ _ _ _ _ _ Vx Vy) as Hm);
    assert (HI : (0 < 2 ^ 2098)%Z) by (apply Z.pow_pos_nonneg; lia);
    generalize dependent (2 ^ 2098)%Z; intros INF; intros.
  1-8: try destruct sx; try destruct sy; key_cmp.
  - f_equal. destruct sx, sy; simpl cond_Zopp.
    + rewrite Z.compare_opp.
      rewrite (Z.compare_antisym (Zpos mx * 2 ^ (ex + 1074)) (Zpos my * 2 ^ (ey + 1074))).
      rewrite <- Hm. destruct (ex ?= ey)%Z; reflexivity.
    + symmetry. apply Z.compare_lt_iff. lia.
    + symmetry. apply Z.compare_gt_iff. lia.
    + exact Hm.
Qed.

Lemma Prim2SF_is_nan (x : number) : SFis_nan (Prim2SF x) = PrimFloat.is_nan x.
Proof.
  unfold PrimFloat.is_nan. rewrite FloatAxioms.eqb_spec. unfold SFeqb.
  pose proof (Prim2SF_valid x) as V.
  destruct (Prim2SF x) as [sx|sx| |sx mx ex] eqn:E; try reflexivity.
  - simpl. by destruct sx.
  - rewrite SFcompare_key by done. by rewrite Z.compare_refl.
Qed.

Section Order.
Variables x y : number.
Hypothesis Hx : PrimFloat.is_nan x = false.
Hypothesis Hy : PrimFloat.is_nan y = false.

Lemma compare_key : SFcompare (Prim2SF x) (Prim2SF y) = Some (key x ?= key y)%Z.
Proof.
  apply SFcompare_key; auto using Prim2SF_valid; by rewrite Prim2SF_is_nan.
Qed.

Lemma ltb_key : (x <? y)%float = (key x <? key y)%Z.
Proof.
  rewrite FloatAxioms.ltb_spec. unfold SFltb. rewrite compare_key. unfold Z.ltb.
  by destruct (key x ?= key y)%Z.
Qed.

Lemma leb_key : (x <=? y)%float = (key x <=? key y)%Z.
Proof.
  rewrite FloatAxioms.leb_spec. unfold SFleb. rewrite compare_key. unfold Z.leb.
  by destruct (key x ?= key y)%Z.
Qed.

Lemma eqb_key : (x =? y)%float = (key x =? key y)%Z.
Proof.
  rewrite FloatAxioms.eqb_spec. unfold SFeqb. rewrite compare_key, Z.eqb_compare.
  by destruct (key x ?= key y)%Z.
Qed.
End Order.

(** ** [kmeans] *)

Lemma fold_left_snoc_map {A B} (f : B -> A) (l : list B) (acc : list A) :
  fold_left (fun acc i => acc ++ [f i]) l acc = acc ++ map f l.
Proof.
  revert acc. induction l as [|x l IH]; intros acc; simpl.
  - by rewrite app_nil_r.
  - rewrite IH. by rewrite <- app_assoc.
Qed.

Lemma row_lookup {A} (rows : list (list A)) (i : nat) (r : list A) :
  rows !! i = Some r -> row rows i = r.
Proof. unfold row. by intros ->. Qed.

Lemma map_row_seq {A} (rows : list (list A)) (n : nat) :
  n <= length rows -> map (row rows) (seq 0 n) = take n rows.
Proof.
  intros Hn. apply list_eq. intros i.
  rewrite list_lookup_fmap.
  destruct (decide (i < n)) as [Hi|Hi].
  - rewrite lookup_seq_lt by done. simpl.
    rewrite lookup_take_lt by done.
    destruct (lookup_lt_is_Some_2 rows i) as [r Hr]; [lia|].
    rewrite Hr. f_equal. by apply row_lookup.
  - rewrite lookup_seq_ge by lia. simpl.
    symmetry. apply lookup_ge_None. rewrite length_take. lia.
Qed.

(** The initial centers are the first [min k n] points. *)
Lemma init_centers_take (points : list (list number)) (k : nat) :
  init_centers points k = take (Nat.min k (length points)) points.
Proof.
  unfold init_centers. rewrite fold_left_snoc_map. simpl.
  apply map_row_seq. lia.
Qed.

Lemma length_init_centers (points : list (list number)) (k : nat) :
  length (init_centers points k) = Nat.min k (length points).
Proof. rewrite init_centers_take, length_take. lia. Qed.

(** The scan returns the index of a center, or 0 when nothing beat
    [Infinity]. *)
Lemma nearest_lt (ctrs : list (list number)) (p : list number) :
  0 < length ctrs -> nearest ctrs p < length ctrs.
Proof.
  intros Hpos. unfold nearest.
  set (step := fun '(best, bestd) c => _).
  assert (H : forall l (st : nat * number),
             Forall (fun c => c < length ctrs) l -> fst st < length ctrs ->
             fst (fold_left step l st) < length ctrs).
  { induction l as [|c l IH]; intros [best bestd] Hl Hst; simpl; [done|].
    inversion Hl; subst. apply IH; [done|].
    destruct (_ <? _)%float; simpl; [done|exact Hst]. }
  apply H; [|simpl; lia].
  apply Forall_forall. intros c Hc. apply elem_of_seq in Hc. lia.
Qed.

Lemma assign_spec (points ctrs : list (list number)) (lbls : list nat) :
  0 < length ctrs ->
  Forall (fun c => c < length ctrs) lbls ->
  length (assign points ctrs lbls) = length lbls /\
  Forall (fun c => c < length ctrs) (assign points ctrs lbls).
Proof.
  intros Hpos. unfold assign. generalize (seq 0 (length points)) as l.
  intros l. revert lbls. induction l as [|i l IH]; intros lbls Hl; simpl; [done|].
  destruct (IH (<[i:=nearest ctrs (row points i)]> lbls)) as [H1 H2].
  - apply Forall_insert; [done|]. by apply nearest_lt.
  - split; [|done]. by rewrite H1, length_insert.
Qed.

(** With every label below the number of rows of [sum] the accumulation loop
    does not throw. *)
Lemma accumulate_normal (points : list (list number)) (lbls : list nat)
    (sum : list (list number)) (cnt : list nat) :
  0 < length sum ->
  Forall (fun c => c < length sum) lbls ->
  exists sum' cnt', accumulate points lbls sum cnt = Normal (sum', cnt') /\
                    length sum' = length sum.
Proof.
  intros Hpos Hl. unfold accumulate. generalize (seq 0 (length points)) as l.
  intros l. revert sum cnt Hpos Hl.
  induction l as [|i l IH]; intros sum cnt Hpos Hl; simpl.
  - by exists sum, cnt.
  - set (c := default 0 (lbls !! i)).
    assert (Hc : c < length sum \/ (c = 0 /\ lbls !! i = None)).
    { subst c. destruct (lbls !! i) as [c|] eqn:E; simpl; [left|by right].
      eapply Forall_lookup_1 in Hl; [exact Hl|exact E]. }
    destruct (sum !! c) as [sc|] eqn:Esc.
    + simpl.
      edestruct (IH (<[c:=js_store (js_store sc 0 (elem sc 0 + elem (row points i) 0)%float) 1
                              (elem (js_store sc 0 (elem sc 0 + elem (row points i) 0)%float) 1
                               + elem (row points i) 1)%float]> sum)
                    (<[c:=S (default 0 (cnt !! c))]> cnt)) as (sum' & cnt' & Heq & Hlen).
      { by rewrite length_insert. }
      { by rewrite length_insert. }
      exists sum', cnt'. split; [exact Heq|]. by rewrite Hlen, length_insert.
    + apply lookup_ge_None in Esc.
      destruct Hc as [Hc|[Hc Hnone]]; [lia|].
      lia.
Qed.

Lemma length_update_centers (ctrs sum : list (list number)) (cnt : list nat) :
  length (update_centers ctrs sum cnt) = length ctrs.
Proof.
  unfold update_centers. generalize (seq 0 (length ctrs)) as l. intros l.
  revert ctrs. induction l as [|c l IH]; intros c0; simpl; [done|].
  rewrite IH. destruct (decide _); [|done]. by rewrite length_alter.
Qed.

(** The state of the outer loop: one label per point, each the index of a
    center. *)
Definition kmeans_inv (n L : nat) (st : list nat * list (list number)) : Prop :=
  length (fst st) = n /\ length (snd st) = L /\ Forall (fun c => c < L) (fst st).

Lemma kmeans_unfold (points : list (list number)) (k iters : nat) :
  kmeans points k iters =
  if decide (length points = 0) then Normal {| labels := []; centers := [] |}
  else r ← foldM (kmeans_step points) (seq 0 iters)
             (replicate (length points) 0, init_centers points k);
       Normal {| labels := fst r; centers := snd r |}.
Proof. reflexivity. Qed.

Lemma kmeans_step_inv (points : list (list number)) (n L it : nat)
    (st : list nat * list (list number)) :
  0 < L -> kmeans_inv n L st ->
  exists st', kmeans_step points st it = Normal st' /\ kmeans_inv n L st'.
Proof.
  intros HL (Hn & Hc & Hall). destruct st as [lbls ctrs]; simpl in *.
  destruct (assign_spec points ctrs lbls) as [Hlen Hlt]; [lia|by rewrite Hc|].
  destruct (accumulate_normal points (assign points ctrs lbls)
              (map (fun _ => [0; 0]%float) ctrs) (map (fun _ => 0) ctrs))
    as (sum' & cnt' & Heq & _).
  - rewrite length_map. lia.
  - by rewrite length_map.
  - rewrite Heq. simpl. eexists. split; [reflexivity|].
    repeat split; simpl.
    + by rewrite Hlen.
    + by rewrite length_update_centers.
    + by rewrite <- Hc.
Qed.

Lemma kmeans_loop_inv (points : list (list number)) (n L : nat) (its : list nat)
    (st : list nat * list (list number)) :
  0 < L -> kmeans_inv n L st ->
  exists st', foldM (kmeans_step points) its st = Normal st' /\ kmeans_inv n L st'.
Proof.
  intros HL. revert st. induction its as [|it its IH]; intros st Hinv; simpl.
  - by exists st.
  - destruct (kmeans_step_inv points n L it st HL Hinv) as (st1 & -> & Hinv1).
    simpl. by apply IH.
Qed.

(** A run on at least one point with [k >= 1] returns; it keeps [min k n]
    centers and every label is the index of one of them. *)
Lemma kmeans_run (points : list (list number)) (k iters : nat) :
  0 < length points -> 1 <= k ->
  exists res, kmeans points k iters = Normal res /\
    length (labels res) = length points /\
    length (centers res) = Nat.min k (length points) /\
    Forall (fun c => c < Nat.min k (length points)) (labels res).
Proof.
  intros Hn Hk. rewrite kmeans_unfold.
  destruct (decide (length points = 0)) as [|_]; [lia|].
  destruct (kmeans_loop_inv points (length points) (Nat.min k (length points))
              (seq 0 iters) (replicate (length points) 0, init_centers points k))
    as ([lbls ctrs] & -> & (H1 & H2 & H3)).
  - lia.
  - repeat split; simpl.
    + by rewrite length_replicate.
    + apply length_init_centers.
    + apply Forall_replicate. lia.
  - simpl in *. eexists. split; [reflexivity|]. simpl. done.
Qed.

(** C6: with at least one cluster requested, [kmeans] returns one label per
    point, each in [[0, k)]; the empty point list gives the empty label list;
    and the result is a function of the input and the parameters. *)
Theorem kmeans_labels_in_range (points : list (list number)) (k iters : nat) :
  1 <= k ->
  exists res, kmeans points k iters = Normal res /\
    length (labels res) = length points /\
    Forall (fun c => c < k) (labels res) /\
    (points = [] -> labels res = []) /\
    (forall points' k' iters' res',
        points' = points -> k' = k -> iters' = iters ->
        kmeans points' k' iters' = Normal res' -> labels res' = labels res).
Proof.
  intros Hk. destruct points as [|p points].
  - exists {| labels := []; centers := [] |}. repeat split; try done.
    intros ? ? ? ? -> -> -> H. by inversion H.
  - destruct (kmeans_run (p :: points) k iters) as (res & Heq & Hlen & _ & Hall);
      [simpl; lia|done|].
    exists res. split; [done|]. split; [done|]. split.
    + eapply Forall_impl; [exact Hall|]. simpl. intros c Hc. lia.
    + split; [done|]. intros ? ? ? ? -> -> -> H. rewrite Heq in H. by inversion H.
Qed.

Lemma kmeans_labels_in_range_witness :
  exists res, kmeans [[0; 0]; [10; 10]; [1; 1]; [9; 9]]%float 2 10 = Normal res /\
    labels res = [0; 1; 0; 1].
Proof.
  destruct (kmeans_labels_in_range [[0; 0]; [10; 10]; [1; 1]; [9; 9]]%float 2 10)
    as (res & Heq & _); [lia|].
  exists res. split; [exact Heq|].
  vm_compute in Heq. by inversion Heq.
Defined.

(** C9: when more clusters are requested than there are points, the centers
    start as copies of all the points, [min k n] centers are returned, and
    every label is below [min k n]. *)
Theorem kmeans_centers_capped_by_points (points : list (list number)) (k iters : nat) :
  0 < length points -> length points < k ->
  init_centers points k = take (Nat.min k (length points)) points /\
  init_centers points k = points /\
  exists res, kmeans points k iters = Normal res /\
    length (centers res) = Nat.min k (length points) /\
    Forall (fun c => c < Nat.min k (length points)) (labels res).
Proof.
  intros Hn Hk. split; [apply init_centers_take|]. split.
  - rewrite init_centers_take. apply take_ge. lia.
  - destruct (kmeans_run points k iters) as (res & Heq & _ & Hc & Hall); [done|lia|].
    by exists res.
Qed.

Lemma kmeans_centers_capped_by_points_witness :
  exists res, kmeans [[0; 0]; [10; 10]]%float 5 10 = Normal res /\
    length (centers res) = 2 /\ Forall (fun c => c < 2) (labels res).
Proof.
  destruct (kmeans_centers_capped_by_points [[0; 0]; [10; 10]]%float 5 10)
    as (_ & _ & res & Heq & Hc & Hall); [simpl; lia|simpl; lia|].
  exists res. split; [exact Heq|]. split; [exact Hc|exact Hall].
Defined.

(** ** The projection stage *)

(** The call the projection stage makes for method [m] throws. *)
Definition backend_throws (B : backends) (vectors : list (list number)) (m : method)
    (umapMinDist : number) (umapNNeighbors : nat) : Prop :=
  match m with
  | pca => exists e, run_pca B vectors = Throw e
  | umap =>
      exists e, run_umap B (Nat.max 2 (Nat.min umapNNeighbors (length vectors - 1)))
                  umapMinDist vectors = Throw e
  end.

Section ProjectionProperties.

Variables Math_sin Math_floor : number -> number.

(** C7: with one or two vectors the stage makes no call into a reduction
    library and places point [i] at [[i * 30, i * 30]]; two vectors give
    [[0, 0]] and [[30, 30]], whatever the libraries would have done. *)
Theorem coordsRaw_small_input_placeholder (B : backends)
    (vectors : list (list number)) (m : method) (umapMinDist : number)
    (umapNNeighbors : nat) :
  0 < length vectors -> length vectors < 3 ->
  let out := coordsRaw Math_sin Math_floor B vectors m umapMinDist umapNNeighbors in
  fst out = [] /\
  length (snd out) = length vectors /\
  (forall i, i < length vectors ->
     snd out !! i = Some [num_of_nat i * 30; num_of_nat i * 30]%float) /\
  (length vectors = 2 -> snd out = [[0; 0]; [30; 30]]%float) /\
  (forall B' m' d' nn',
     coordsRaw Math_sin Math_floor B' vectors m' d' nn' = out).
Proof.
  intros Hpos Hlt. unfold coordsRaw.
  destruct (decide (length vectors = 0)) as [|_]; [lia|].
  destruct (decide (length vectors < 3)) as [_|]; [|lia].
  simpl. split; [done|]. split; [by rewrite length_imap|]. split; [|split].
  - intros i Hi. rewrite list_lookup_imap.
    destruct (lookup_lt_is_Some_2 vectors i Hi) as [v ->]. done.
  - intros H2. destruct vectors as [|v0 [|v1 [|v2 vs]]]; try discriminate H2.
    reflexivity.
  - reflexivity.
Qed.

(** C8: when the library call throws, the coordinates of each vector are
    its dot products with two weight vectors drawn from the seed 1337 by
    [rand(i) = frac (sin (1337 + i) * 10000)], so they depend on the
    vectors alone: two runs on the same vectors agree, whichever method
    and parameters were selected and however the libraries failed. *)
Theorem fallback_projection_deterministic (B1 B2 : backends)
    (vectors : list (list number)) (m1 m2 : method) (d1 d2 : number)
    (nn1 nn2 : nat) :
  3 <= length vectors ->
  backend_throws B1 vectors m1 d1 nn1 ->
  backend_throws B2 vectors m2 d2 nn2 ->
  let dim := match vectors !! 0 with Some x0 => length x0 | None => 64 end in
  let rnd := fun i : number =>
    (Math_sin (1337 + i) * 10000 - Math_floor (Math_sin (1337 + i) * 10000))%float in
  let a := map (fun i => (rnd (num_of_nat i) - 0.5)%float) (seq 0 dim) in
  let b := map (fun i => (rnd (num_of_nat i + 17) - 0.5)%float) (seq 0 dim) in
  snd (coordsRaw Math_sin Math_floor B1 vectors m1 d1 nn1)
    = map (fun v => [dot v a; dot v b]) vectors /\
  snd (coordsRaw Math_sin Math_floor B1 vectors m1 d1 nn1)
    = snd (coordsRaw Math_sin Math_floor B2 vectors m2 d2 nn2).
Proof.
  intros Hn H1 H2.
  assert (Hfb : forall B m d nn, backend_throws B vectors m d nn ->
            snd (coordsRaw Math_sin Math_floor B vectors m d nn)
            = fallback Math_sin Math_floor vectors vectors).
  { intros B m d nn Hthrow. unfold coordsRaw.
    destruct (decide (length vectors = 0)) as [|_]; [lia|].
    destruct (decide (length vectors < 3)) as [|_]; [lia|].
    destruct m; simpl in Hthrow; destruct Hthrow as [e ->]; reflexivity. }
  simpl. rewrite (Hfb _ _ _ _ H1), (Hfb _ _ _ _ H2). split; reflexivity.
Qed.

End ProjectionProperties.

Lemma coordsRaw_small_input_placeholder_witness :
  let out := coordsRaw (fun x => x) (fun x => x)
    {| run_pca := fun _ => Throw TypeError; run_umap := fun _ _ _ => Throw TypeError |}
    [[1; 0]; [0; 1]]%float pca 0.5%float 15 in
  fst out = [] /\ snd out = [[0; 0]; [30; 30]]%float.
Proof.
  destruct (coordsRaw_small_input_placeholder (fun x => x) (fun x => x)
    {| run_pca := fun _ => Throw TypeError; run_umap := fun _ _ _ => Throw TypeError |}
    [[1; 0]; [0; 1]]%float pca 0.5%float 15) as (H1 & _ & _ & H2 & _);
    [simpl; lia|simpl; lia|].
  split; [exact H1|exact (H2 eq_refl)].
Defined.

Lemma fallback_projection_deterministic_witness :
  snd (coordsRaw (fun x => x) (fun x => x)
        {| run_pca := fun _ => Throw TypeError; run_umap := fun _ _ _ => Throw TypeError |}
        [[1; 0]; [0; 1]; [1; 1]]%float pca 0.5%float 15)
  = snd (coordsRaw (fun x => x) (fun x => x)
        {| run_pca := fun _ => Throw TypeError; run_umap := fun _ _ _ => Throw TypeError |}
        [[1; 0]; [0; 1]; [1; 1]]%float umap 0.25%float 5).
Proof.
  apply (fallback_projection_deterministic (fun x => x) (fun x => x)).
  - simpl; lia.
  - simpl. by exists TypeError.
  - simpl. by exists TypeError.
Defined.

(** ** [buildSimMatrix] *)

Lemma mul_comm (x y : number) : (x * y)%float = (y * x)%float.
Proof.
  apply Prim2SF_inj. rewrite !mul_spec. unfold SF64mul, SFmul.
  destruct (Prim2SF x) as [sx|sx| |sx mx ex], (Prim2SF y) as [sy|sy| |sy my ey];
    try reflexivity; try (by rewrite xorb_comm).
  by rewrite xorb_comm, Pos.mul_comm, Z.add_comm.
Qed.

(** On vectors of one length the product does not depend on the order of
    its arguments. *)
Lemma dot_comm (a b : list number) : length a = length b -> dot a b = dot b a.
Proof.
  intros Hlen. unfold dot. rewrite <- Hlen.
  apply fold_left_ext_in. intros acc i _. by rewrite mul_comm.
Qed.

(** [M[a][b]], when both indices are in range. *)
Definition cell (M : list (list number)) (a b : nat) : option number :=
  match M !! a with
  | Some r => r !! b
  | None => None
  end.

Definition shaped (n : nat) (M : list (list number)) : Prop :=
  length M = n /\ Forall (fun r => length r = n) M.

Definition sim (vectors : list (list number)) (a b : nat) : number :=
  ((cosine (row vectors a) (row vectors b) + 1) / 2)%float.

Lemma set_cell_shaped (n : nat) (M : list (list number)) (i c : nat) (v : number) :
  shaped n M -> shaped n (set_cell M i c v).
Proof.
  intros [H1 H2]. unfold set_cell. split.
  - by rewrite length_alter.
  - apply Forall_alter; [done|]. intros r _ Hr. by rewrite length_insert.
Qed.

Lemma cell_set_cell (n : nat) (M : list (list number)) (i c a b : nat) (v : number) :
  shaped n M -> i < n -> c < n ->
  cell (set_cell M i c v) a b =
  if decide (a = i /\ b = c) then Some v else cell M a b.
Proof.
  intros [H1 H2] Hi Hc. unfold cell, set_cell.
  destruct (decide (a = i)) as [->|Hai].
  - rewrite list_lookup_alter_eq.
    destruct (lookup_lt_is_Some_2 M i) as [r Hr]; [lia|]. rewrite Hr. simpl.
    assert (length r = n) as Hlen by (eapply Forall_lookup_1 in H2; eauto).
    destruct (decide (b = c)) as [->|Hbc].
    + rewrite decide_True by done. apply list_lookup_insert_eq. lia.
    + rewrite decide_False by (intros [_ ?]; done).
      by apply list_lookup_insert_ne.
  - rewrite list_lookup_alter_ne by done.
    rewrite decide_False by (intros [? _]; done). done.
Qed.

Definition sim_row (vectors : list (list number)) (i : nat)
    (M : list (list number)) (l : list nat) : list (list number) :=
  fold_left (fun M c =>
      let v := sim vectors i c in set_cell (set_cell M i c v) c i v) l M.

Lemma buildSimMatrix_unfold (vectors : list (list number)) :
  buildSimMatrix vectors =
  fold_left (fun M i => sim_row vectors i M (seq i (length vectors - i)))
    (seq 0 (length vectors))
    (replicate (length vectors) (replicate (length vectors) 0%float)).
Proof. reflexivity. Qed.

(** The inner loop for row [i] writes the cells [(i, c)] and [(c, i)] of the
    columns [c] it visits and leaves the others alone. *)
Lemma sim_row_spec (vectors : list (list number)) (n i : nat) (l : list nat)
    (M : list (list number)) :
  shaped n M -> i < n -> Forall (fun c => c < n) l ->
  shaped n (sim_row vectors i M l) /\
  forall a b, a < n -> b < n ->
    cell (sim_row vectors i M l) a b =
    if decide (a = i /\ b ∈ l) then Some (sim vectors i b)
    else if decide (b = i /\ a ∈ l) then Some (sim vectors i a)
    else cell M a b.
Proof.
  intros HM Hi. revert M HM. induction l as [|c l IH]; intros M HM Hl.
  - split; [done|]. intros a b _ _. simpl.
    rewrite !decide_False; [done|..]; intros [_ H]; inversion H.
  - inversion Hl as [|? ? Hc Hl']; subst. simpl.
    set (M1 := set_cell (set_cell M i c (sim vectors i c)) c i (sim vectors i c)).
    assert (HM1 : shaped n M1) by (by do 2 apply set_cell_shaped).
    destruct (IH M1 HM1 Hl') as [Hsh Hcell]. split; [exact Hsh|].
    intros a b Ha Hb. rewrite Hcell by done. unfold M1.
    rewrite (cell_set_cell n) by (try apply set_cell_shaped; done).
    rewrite (cell_set_cell n) by done.
    generalize (cell M a b). generalize (sim vectors). clear.
    intros f o. repeat case_decide; try done;
      repeat match goal with
             | H : context [_ ∈ _ :: _] |- _ => rewrite elem_of_cons in H
             end; intuition (subst; try done; try congruence).
Qed.

(** After the rows [0 .. t-1] the cells with an index below [t] hold their
    final value and the others still hold the initial [0]. *)
Lemma buildSimMatrix_rows (vectors : list (list number)) (t : nat) :
  let n := length vectors in
  t <= n ->
  let M := fold_left (fun M i => sim_row vectors i M (seq i (n - i))) (seq 0 t)
             (replicate n (replicate n 0%float)) in
  shaped n M /\
  forall a b, a < n -> b < n ->
    cell M a b =
    if decide (Nat.min a b < t)
    then Some (sim vectors (Nat.min a b) (Nat.max a b))
    else Some 0%float.
Proof.
  intros n. induction t as [|t IH]; intros Ht M; subst M.
  - cbn [seq fold_left]. split.
    + split; [by rewrite length_replicate|].
      apply Forall_replicate. by rewrite length_replicate.
    + intros a b Ha Hb. rewrite decide_False by lia. unfold cell.
      rewrite lookup_replicate_2 by done. by rewrite lookup_replicate_2.
  - rewrite seq_S, fold_left_app. cbn [fold_left Nat.add].
    destruct IH as [Hsh Hcell]; [lia|].
    set (M := fold_left _ (seq 0 t) _) in *.
    destruct (sim_row_spec vectors n t (seq t (n - t)) M Hsh) as [Hsh' Hcell'].
    + lia.
    + apply Forall_forall. intros c Hc. apply elem_of_seq in Hc. lia.
    + split; [exact Hsh'|]. intros a b Ha Hb.
      rewrite Hcell', Hcell by done.
      repeat case_decide; try done;
        repeat match goal with
               | H : context [_ ∈ seq _ _] |- _ => rewrite elem_of_seq in H
               end.
      all: first [ do 2 f_equal; lia | exfalso; lia ].
Qed.

Lemma buildSimMatrix_cell (vectors : list (list number)) (a b : nat) :
  a < length vectors -> b < length vectors ->
  shaped (length vectors) (buildSimMatrix vectors) /\
  cell (buildSimMatrix vectors) a b
    = Some (sim vectors (Nat.min a b) (Nat.max a b)).
Proof.
  intros Ha Hb. rewrite buildSimMatrix_unfold.
  destruct (buildSimMatrix_rows vectors (length vectors)) as [Hsh Hcell]; [done|].
  split; [exact Hsh|]. rewrite Hcell by done. rewrite decide_True by lia. done.
Qed.

(** ** [embedWordToy] *)

Lemma toLowerCase_ascii_idempotent (t : jsstring) :
  toLowerCase_ascii (toLowerCase_ascii t) = toLowerCase_ascii t.
Proof.
  unfold toLowerCase_ascii. rewrite map_map. apply map_ext. intros c.
  destruct ((65 <=? c)%Z && (c <=? 90)%Z) eqn:E; [|by rewrite E].
  apply andb_prop in E as [E1 E2].
  apply Z.leb_le in E1. apply Z.leb_le in E2.
  replace (c + 32 <=? 90)%Z with false by (symmetry; apply Z.leb_gt; lia).
  by rewrite andb_false_r.
Qed.

Section ToyEmbeddingProperties.

Variable toLowerCase : jsstring -> jsstring.

(** Lower-casing a lower-cased string changes nothing. *)
Hypothesis toLowerCase_idempotent :
  forall t, toLowerCase (toLowerCase t) = toLowerCase t.

Lemma embedWordToy_lowercase (word : jsstring) (dim : nat) :
  embedWordToy toLowerCase word dim
  = embedWordToy toLowerCase (toLowerCase word) dim.
Proof. unfold embedWordToy. by rewrite toLowerCase_idempotent. Qed.

(** C10, as the code behaves: the embedding of a word is the embedding of
    its lower-cased form, so two words that differ only in case get the same
    vector, and their similarity is the similarity of that vector with
    itself. *)
Theorem embedWordToy_case_insensitive (word word' : jsstring) (dim : nat) :
  1 <= dim ->
  embedWordToy toLowerCase word dim
    = embedWordToy toLowerCase (toLowerCase word) dim /\
  (toLowerCase word = toLowerCase word' ->
     embedWordToy toLowerCase word dim = embedWordToy toLowerCase word' dim /\
     cosine (embedWordToy toLowerCase word dim) (embedWordToy toLowerCase word' dim)
       = cosine (embedWordToy toLowerCase word dim) (embedWordToy toLowerCase word dim)).
Proof.
  intros _. split; [apply embedWordToy_lowercase|].
  intros Heq.
  assert (embedWordToy toLowerCase word dim = embedWordToy toLowerCase word' dim) as ->.
  { rewrite (embedWordToy_lowercase word), (embedWordToy_lowercase word').
    by rewrite Heq. }
  done.
Qed.

End ToyEmbeddingProperties.

Lemma embedWordToy_case_insensitive_witness :
  embedWordToy toLowerCase_ascii (str "Art") 128
  = embedWordToy toLowerCase_ascii (str "aRT") 128.
Proof.
  apply (embedWordToy_case_insensitive toLowerCase_ascii
           toLowerCase_ascii_idempotent (str "Art") (str "aRT") 128).
  - lia.
  - reflexivity.
Defined.

(** C10 fails in its last part: the vectors of ["a"] and ["A"] at the default
    dimension are equal, but their similarity is strictly below 1 (the three
    entries are the binary32 rounding of [1 / sqrt 3]). *)
Lemma embedWordToy_case_pair_similarity_below_one :
  toLowerCase_ascii (str "A") = str "a" /\
  embedWordToy toLowerCase_ascii (str "a") 128
    = embedWordToy toLowerCase_ascii (str "A") 128 /\
  (cosine (embedWordToy toLowerCase_ascii (str "a") 128)
          (embedWordToy toLowerCase_ascii (str "A") 128) =? 1)%float = false /\
  (cosine (embedWordToy toLowerCase_ascii (str "a") 128)
          (embedWordToy toLowerCase_ascii (str "A") 128) <? 1)%float = true /\
  cosine (embedWordToy toLowerCase_ascii (str "a") 128)
         (embedWordToy toLowerCase_ascii (str "A") 128) <> 1%float.
Proof.
  split; [reflexivity|]. split; [vm_compute; reflexivity|].
  split; [vm_compute; reflexivity|]. split; [vm_compute; reflexivity|].
  intros H. vm_compute in H. discriminate H.
Qed.

(** ** [normalize2D] *)

(** The bounding box, one axis at a time: axis 0 is x, axis 1 is y. *)
Definition axis_min_from (k : nat) (coords : list (list number)) (m0 : number) : number :=
  fold_left (fun m p => if (elem p k <? m)%float then elem p k else m) coords m0.

Definition axis_max_from (k : nat) (coords : list (list number)) (m0 : number) : number :=
  fold_left (fun m p => if (m <? elem p k)%float then elem p k else m) coords m0.

Definition axis_min (k : nat) (coords : list (list number)) : number :=
  axis_min_from k coords infinity.

Definition axis_max (k : nat) (coords : list (list number)) : number :=
  axis_max_from k coords neg_infinity.

(** [maxX - minX || 1] *)
Definition axis_span (k : nat) (coords : list (list number)) : number :=
  js_or (axis_max k coords - axis_min k coords)%float 1%float.

(** The target size along an axis. *)
Definition dimension (k : nat) (width height : number) : number :=
  match k with 0 => width | _ => height end.

(** The affine map applied along axis [k]. *)
Definition axis_scale (k : nat) (coords : list (list number)) (width height pad : number)
    (v : number) : number :=
  (pad + ((v - axis_min k coords) / axis_span k coords)
         * (dimension k width height - pad * 2))%float.

Lemma bounds_axes (coords : list (list number)) :
  bounds coords
  = (axis_min 0 coords, axis_max 0 coords, axis_min 1 coords, axis_max 1 coords).
Proof.
  unfold bounds, axis_min, axis_max, axis_min_from, axis_max_from.
  generalize infinity at 1 3 as a. generalize neg_infinity at 1 3 as b.
  generalize infinity as c. generalize neg_infinity as d.
  induction coords as [|p coords IH]; intros d c b a; simpl; [done|].
  apply IH.
Qed.

Lemma normalize2D_unfold (coords : list (list number)) (width height pad : number) :
  normalize2D coords width height pad =
  map (fun p => [axis_scale 0 coords width height pad (elem p 0);
                 axis_scale 1 coords width height pad (elem p 1)]) coords.
Proof.
  unfold normalize2D. destruct (decide (length coords = 0)) as [H0|_].
  - by destruct coords.
  - rewrite bounds_axes. reflexivity.
Qed.

(** Output point [i] along axis [k < 2]. *)
Lemma normalize2D_axis (coords : list (list number)) (width height pad : number)
    (i k : nat) (p : list number) :
  coords !! i = Some p -> k < 2 ->
  exists q, normalize2D coords width height pad !! i = Some q /\
            elem q k = axis_scale k coords width height pad (elem p k).
Proof.
  intros Hp Hk. rewrite normalize2D_unfold, list_lookup_fmap, Hp. simpl.
  eexists; split; [reflexivity|].
  destruct k as [|[|k]]; [reflexivity|reflexivity|lia].
Qed.

(** *** Zeros, finite values and infinities *)

Definition SFfinite (x : spec_float) : bool :=
  match x with
  | S754_zero _ | S754_finite _ _ _ => true
  | _ => false
  end.

Definition SFzero (x : spec_float) : bool :=
  match x with
  | S754_zero _ => true
  | _ => false
  end.

Lemma is_finite_SF (x : number) : is_finite x = SFfinite (Prim2SF x).
Proof.
  unfold is_finite. rewrite <- Prim2SF_is_nan. unfold is_infinity.
  rewrite FloatAxioms.eqb_spec, abs_spec.
  by destruct (Prim2SF x) as [sx|sx| |sx mx ex].
Qed.

Lemma is_zero_SF (x : number) : PrimFloat.is_zero x = SFzero (Prim2SF x).
Proof.
  unfold PrimFloat.is_zero. rewrite FloatAxioms.eqb_spec.
  destruct (Prim2SF x) as [sx|[]| |[] mx ex]; reflexivity.
Qed.

Lemma is_finite_not_nan (x : number) : is_finite x = true -> PrimFloat.is_nan x = false.
Proof.
  rewrite is_finite_SF, <- Prim2SF_is_nan. by destruct (Prim2SF x).
Qed.

Lemma key_infinity : key infinity = (2 ^ 2098)%Z.
Proof. reflexivity. Qed.

Lemma key_neg_infinity : key neg_infinity = (- 2 ^ 2098)%Z.
Proof. reflexivity. Qed.

(** The image of a finite value lies strictly between those of the
    infinities. *)
Lemma key_finite_bounds (x : number) :
  is_finite x = true -> (- 2 ^ 2098 < key x < 2 ^ 2098)%Z.
Proof.
  rewrite is_finite_SF. unfold key. pose proof (Prim2SF_valid x) as V.
  assert (0 < 2 ^ 2098)%Z by (apply Z.pow_pos_nonneg; lia).
  destruct (Prim2SF x) as [sx|sx| |sx mx ex]; try discriminate; intros _; simpl.
  - lia.
  - pose proof (finite_key_bounds _ _ _ V). destruct sx; simpl; lia.
Qed.

Lemma ltb_irrefl (x : number) : (x <? x)%float = false.
Proof.
  destruct (PrimFloat.is_nan x) eqn:E.
  - rewrite FloatAxioms.ltb_spec. rewrite <- Prim2SF_is_nan in E.
    by destruct (Prim2SF x).
  - rewrite ltb_key by done. apply Z.ltb_irrefl.
Qed.

Lemma finite_ltb_infinity (x : number) :
  is_finite x = true -> (x <? infinity)%float = true.
Proof.
  intros Hx. rewrite ltb_key; [|by apply is_finite_not_nan|reflexivity].
  rewrite key_infinity. apply Z.ltb_lt. by apply key_finite_bounds.
Qed.

Lemma neg_infinity_ltb_finite (x : number) :
  is_finite x = true -> (neg_infinity <? x)%float = true.
Proof.
  intros Hx. rewrite ltb_key; [|reflexivity|by apply is_finite_not_nan].
  rewrite key_neg_infinity. apply Z.ltb_lt. by apply key_finite_bounds.
Qed.

(** Two finite values with the same image are the same value, or two
    zeros. *)
Lemma key_eq_finite (x y : number) :
  is_finite x = true -> is_finite y = true -> key x = key y ->
  x = y \/ (SFzero (Prim2SF x) = true /\ SFzero (Prim2SF y) = true).
Proof.
  intros Hx Hy Hk.
  pose proof (compare_key x y (is_finite_not_nan _ Hx) (is_finite_not_nan _ Hy)) as Hc.
  rewrite Hk, Z.compare_refl in Hc.
  rewrite is_finite_SF in Hx, Hy.
  destruct (Prim2SF x) as [sx|sx| |sx mx ex] eqn:Ex; try discriminate;
    destruct (Prim2SF y) as [sy|sy| |sy my ey] eqn:Ey; try discriminate.
  - by right.
  - simpl in Hc. by destruct sy.
  - simpl in Hc. by destruct sx.
  - left. apply Prim2SF_inj. rewrite Ex, Ey. simpl in Hc.
    change (PosDef.Pos.compare_cont Eq mx my) with (Pos.compare mx my) in Hc.
    destruct sx, sy; try discriminate;
      destruct (Z.compare_spec ex ey) as [->| |]; try discriminate;
      destruct (Pos.compare_spec mx my) as [->| |]; try discriminate; reflexivity.
Qed.

(** The difference of two finite values with the same image is a zero. *)
Lemma sub_same_key (x y : number) :
  is_finite x = true -> is_finite y = true -> key x = key y ->
  SFzero (Prim2SF (x - y)) = true.
Proof.
  intros Hx Hy Hk. rewrite sub_spec.
  destruct (key_eq_finite x y Hx Hy Hk) as [->|[Zx Zy]].
  - rewrite is_finite_SF in Hy. unfold SF64sub, SFsub.
    destruct (Prim2SF y) as [[]|sy| |sy my ey]; try discriminate; try reflexivity.
    by rewrite Z.sub_diag.
  - destruct (Prim2SF x) as [[]| | |], (Prim2SF y) as [[]| | |]; try discriminate;
      reflexivity.
Qed.

Lemma sub_diag (x : number) : is_finite x = true -> (x - x)%float = 0%float.
Proof.
  intros Hx. apply Prim2SF_inj. rewrite sub_spec.
  rewrite is_finite_SF in Hx. unfold SF64sub, SFsub.
  destruct (Prim2SF x) as [[]|sy| |sy my ey]; try discriminate; try reflexivity.
  by rewrite Z.sub_diag.
Qed.

(** A zero divided by a non-zero number, then scaled by a finite extent and
    added to [pad], compares equal to [pad]. *)
Lemma zero_scaled_offset (z span W pad : number) :
  SFzero (Prim2SF z) = true ->
  PrimFloat.is_nan span = false -> PrimFloat.is_zero span = false ->
  is_finite W = true -> PrimFloat.is_nan pad = false ->
  (pad + (z / span) * W =? pad)%float = true.
Proof.
  intros Hz Hs1 Hs2 HW Hp.
  rewrite <- Prim2SF_is_nan in Hs1, Hp. rewrite is_zero_SF in Hs2.
  rewrite is_finite_SF in HW.
  rewrite FloatAxioms.eqb_spec, add_spec, mul_spec, div_spec.
  destruct (Prim2SF z) as [sz| | |]; try discriminate.
  destruct (Prim2SF span) as [ss|ss| |ss ms es]; try discriminate;
    destruct (Prim2SF W) as [sw|sw| |sw mw ew]; try discriminate;
    pose proof (Prim2SF_valid pad) as Vp;
    destruct (Prim2SF pad) as [sp|sp| |sp mp ep]; try discriminate;
    cbn [SF64div SFdiv SF64mul SFmul SF64add SFadd];
    try (by destruct sp);
    try (by destruct sp, (xorb (xorb sz ss) sw));
    unfold SFeqb; rewrite SFcompare_key by done; by rewrite Z.compare_refl.
Qed.

(** *** The bounding box *)

Lemma axis_min_from_cons (k : nat) (p : list number) (coords : list (list number))
    (m0 : number) :
  axis_min_from k (p :: coords) m0
  = axis_min_from k coords (if (elem p k <? m0)%float then elem p k else m0).
Proof. reflexivity. Qed.

Lemma axis_max_from_cons (k : nat) (p : list number) (coords : list (list number))
    (m0 : number) :
  axis_max_from k (p :: coords) m0
  = axis_max_from k coords (if (m0 <? elem p k)%float then elem p k else m0).
Proof. reflexivity. Qed.

Lemma axis_min_from_spec (k : nat) (coords : list (list number)) (m0 : number) :
  Forall (fun p => PrimFloat.is_nan (elem p k) = false) coords ->
  PrimFloat.is_nan m0 = false ->
  let r := axis_min_from k coords m0 in
  PrimFloat.is_nan r = false /\
  (r = m0 \/ exists p, p ∈ coords /\ r = elem p k) /\
  (key r <= key m0)%Z /\
  Forall (fun p => (key r <= key (elem p k))%Z) coords.
Proof.
  intros Hall. revert m0. induction Hall as [|p coords Hp Hall IH]; intros m0 Hm0.
  - simpl. repeat split; [done|by left|lia|constructor].
  - rewrite axis_min_from_cons, ltb_key by done.
    destruct (Z.ltb_spec (key (elem p k)) (key m0)) as [Hlt|Hge].
    + destruct (IH (elem p k) Hp) as (Hn & Hin & Hle & Hfa).
      split; [exact Hn|]. split; [|split].
      * right. destruct Hin as [->|(q & Hq & ->)].
        -- exists p. split; [by left|done].
        -- exists q. split; [by right|done].
      * lia.
      * constructor; [exact Hle|exact Hfa].
    + destruct (IH m0 Hm0) as (Hn & Hin & Hle & Hfa).
      split; [exact Hn|]. split; [|split].
      * destruct Hin as [->|(q & Hq & ->)]; [by left|].
        right. exists q. split; [by right|done].
      * exact Hle.
      * constructor; [lia|exact Hfa].
Qed.

Lemma axis_max_from_spec (k : nat) (coords : list (list number)) (m0 : number) :
  Forall (fun p => PrimFloat.is_nan (elem p k) = false) coords ->
  PrimFloat.is_nan m0 = false ->
  let r := axis_max_from k coords m0 in
  PrimFloat.is_nan r = false /\
  (r = m0 \/ exists p, p ∈ coords /\ r = elem p k) /\
  (key m0 <= key r)%Z /\
  Forall (fun p => (key (elem p k) <= key r)%Z) coords.
Proof.
  intros Hall. revert m0. induction Hall as [|p coords Hp Hall IH]; intros m0 Hm0.
  - simpl. repeat split; [done|by left|lia|constructor].
  - rewrite axis_max_from_cons, ltb_key by done.
    destruct (Z.ltb_spec (key m0) (key (elem p k))) as [Hlt|Hge].
    + destruct (IH (elem p k) Hp) as (Hn & Hin & Hle & Hfa).
      split; [exact Hn|]. split; [|split].
      * right. destruct Hin as [->|(q & Hq & ->)].
        -- exists p. split; [by left|done].
        -- exists q. split; [by right|done].
      * lia.
      * constructor; [exact Hle|exact Hfa].
    + destruct (IH m0 Hm0) as (Hn & Hin & Hle & Hfa).
      split; [exact Hn|]. split; [|split].
      * destruct Hin as [->|(q & Hq & ->)]; [by left|].
        right. exists q. split; [by right|done].
      * exact Hle.
      * constructor; [lia|exact Hfa].
Qed.

(** Every coordinate on axis [k] is finite. *)
Definition finite_axis (k : nat) (coords : list (list number)) : Prop :=
  Forall (fun p => is_finite (elem p k) = true) coords.

Lemma finite_axis_not_nan (k : nat) (coords : list (list number)) :
  finite_axis k coords ->
  Forall (fun p => PrimFloat.is_nan (elem p k) = false) coords.
Proof.
  intros H. eapply Forall_impl; [exact H|]. intros p. apply is_finite_not_nan.
Qed.

(** On a non-empty set of finite points the lower end of the box is the
    coordinate of one of the points and is below all of them. *)
Lemma axis_min_spec (k : nat) (coords : list (list number)) :
  coords <> [] -> finite_axis k coords ->
  (exists p, p ∈ coords /\ axis_min k coords = elem p k) /\
  Forall (fun p => (key (axis_min k coords) <= key (elem p k))%Z) coords.
Proof.
  intros Hne Hfin.
  destruct (axis_min_from_spec k coords infinity (finite_axis_not_nan _ _ Hfin) eq_refl)
    as (_ & Hin & _ & Hle).
  fold (axis_min k coords) in Hin, Hle. split; [|exact Hle].
  destruct Hin as [Heq|Hin]; [|exact Hin]. exfalso.
  destruct coords as [|p coords]; [done|].
  inversion Hle as [|? ? Hp _]; subst. inversion Hfin as [|? ? Hfp _]; subst.
  rewrite Heq, key_infinity in Hp.
  pose proof (key_finite_bounds _ Hfp). lia.
Qed.

Lemma axis_max_spec (k : nat) (coords : list (list number)) :
  coords <> [] -> finite_axis k coords ->
  (exists p, p ∈ coords /\ axis_max k coords = elem p k) /\
  Forall (fun p => (key (elem p k) <= key (axis_max k coords))%Z) coords.
Proof.
  intros Hne Hfin.
  destruct (axis_max_from_spec k coords neg_infinity (finite_axis_not_nan _ _ Hfin) eq_refl)
    as (_ & Hin & _ & Hle).
  fold (axis_max k coords) in Hin, Hle. split; [|exact Hle].
  destruct Hin as [Heq|Hin]; [|exact Hin]. exfalso.
  destruct coords as [|p coords]; [done|].
  inversion Hle as [|? ? Hp _]; subst. inversion Hfin as [|? ? Hfp _]; subst.
  rewrite Heq, key_neg_infinity in Hp.
  pose proof (key_finite_bounds _ Hfp). lia.
Qed.

Lemma normalize2D_elem_of (coords : list (list number)) (width height pad : number)
    (k : nat) (q : list number) :
  q ∈ normalize2D coords width height pad -> k < 2 ->
  exists p, p ∈ coords /\
            elem q k = axis_scale k coords width height pad (elem p k).
Proof.
  intros Hq Hk. apply list_elem_of_lookup in Hq as [i Hi].
  assert (is_Some (coords !! i)) as [p Hp].
  { apply lookup_lt_is_Some. apply lookup_lt_Some in Hi.
    by rewrite normalize2D_unfold, length_map in Hi. }
  destruct (normalize2D_axis coords width height pad i k p Hp Hk) as (q' & Hq' & He).
  rewrite Hi in Hq'. inversion Hq'; subst q'.
  exists p. split; [|exact He]. by eapply list_elem_of_lookup_2.
Qed.

(** C5, as the code behaves: when all points share one finite value [v] on
    an axis, the bounding box loop leaves both ends of that axis at [v], the
    span [v - v || 1] is 1, there is one output point for every input point,
    and output point [i] has the coordinate
    [pad + ((v - v) / 1) * (dimension - pad * 2)] on that axis; this compares
    equal to [pad] when [pad] is a number and the extent
    [dimension - pad * 2] is finite. *)
Theorem normalize2D_zero_span_axis (coords : list (list number))
    (width height pad : number) (k i : nat) (v : number) (p : list number) :
  k < 2 ->
  is_finite v = true ->
  (forall p', p' ∈ coords -> elem p' k = v) ->
  coords !! i = Some p ->
  match k with
  | 0 => exists minY maxY, bounds coords = (v, v, minY, maxY)
  | _ => exists minX maxX, bounds coords = (minX, maxX, v, v)
  end /\
  js_or (v - v)%float 1%float = 1%float /\
  length (normalize2D coords width height pad) = length coords /\
  exists q, normalize2D coords width height pad !! i = Some q /\
    elem q k = (pad + ((v - v) / 1) * (dimension k width height - pad * 2))%float /\
    (PrimFloat.is_nan pad = false ->
     is_finite (dimension k width height - pad * 2) = true ->
     (elem q k =? pad)%float = true).
Proof.
  intros Hk Hv Hall Hp.
  assert (Hne : coords <> []) by (intros ->; discriminate Hp).
  assert (Hin : p ∈ coords) by (by eapply list_elem_of_lookup_2).
  assert (Hfin : finite_axis k coords).
  { apply Forall_forall. intros p' Hp'. by rewrite (Hall p' Hp'). }
  destruct (axis_min_spec k coords Hne Hfin) as [(p1 & Hp1 & Hmin) _].
  destruct (axis_max_spec k coords Hne Hfin) as [(p2 & Hp2 & Hmax) _].
  rewrite (Hall p1 Hp1) in Hmin. rewrite (Hall p2 Hp2) in Hmax.
  assert (Hspan : js_or (v - v)%float 1%float = 1%float).
  { by rewrite (sub_diag v Hv). }
  split; [|split; [exact Hspan|split]].
  - rewrite bounds_axes.
    destruct k as [|[|k]]; [| |lia]; eexists _, _; by rewrite Hmin, Hmax.
  - by rewrite normalize2D_unfold, length_map.
  - destruct (normalize2D_axis coords width height pad i k p Hp Hk) as (q & Hq & He).
    exists q. split; [exact Hq|].
    assert (Heq : elem q k
              = (pad + ((v - v) / 1) * (dimension k width height - pad * 2))%float).
    { rewrite He. unfold axis_scale, axis_span.
      by rewrite Hmin, Hmax, Hspan, (Hall p Hin). }
    split; [exact Heq|]. intros Hpad HW. rewrite Heq, (sub_diag v Hv).
    apply zero_scaled_offset; done.
Qed.

Lemma normalize2D_zero_span_axis_witness :
  bounds [[5; 1]; [5; 7]; [5; 3]]%float = (5, 5, 1, 7)%float /\
  length (normalize2D [[5; 1]; [5; 7]; [5; 3]]%float 100 100 10) = 3 /\
  exists q, normalize2D [[5; 1]; [5; 7]; [5; 3]]%float 100 100 10 !! 1 = Some q /\
    elem q 0 = (10 + ((5 - 5) / 1) * (100 - 10 * 2))%float /\
    (elem q 0 =? 10)%float = true.
Proof.
  destruct (normalize2D_zero_span_axis [[5; 1]; [5; 7]; [5; 3]]%float 100 100 10 0 1 5
              [5; 7]%float) as ((minY & maxY & Hb) & _ & Hlen & q & Hq & He & Hpad).
  - lia.
  - reflexivity.
  - intros p Hp. repeat (apply elem_of_cons in Hp as [->|Hp]; [reflexivity|]).
    by apply elem_of_nil in Hp.
  - reflexivity.
  - split; [reflexivity|]. split; [exact Hlen|]. exists q.
    split; [exact Hq|]. split; [exact He|]. by apply Hpad.
Defined.

(** C5 fails in its last part when [pad * 2] overflows or the shared value
    is infinite: the span is replaced by 1, but the coordinate is
    [pad + 0 * -Infinity], respectively [pad + (Infinity - Infinity) * W],
    which is NaN and not [pad]. *)
Lemma normalize2D_zero_span_not_pad :
  (is_finite 0x1p+1023 = true /\
   bounds [[5; 1]; [5; 7]]%float = (5, 5, 1, 7)%float /\
   js_or (5 - 5)%float 1%float = 1%float /\
   normalize2D [[5; 1]; [5; 7]]%float 100 100 0x1p+1023
   = [[nan; nan]; [nan; neg_infinity]]%float /\
   (nan =? 0x1p+1023)%float = false) /\
  (bounds [[infinity; 1]; [infinity; 7]]%float = (infinity, infinity, 1, 7)%float /\
   js_or (infinity - infinity)%float 1%float = 1%float /\
   normalize2D [[infinity; 1]; [infinity; 7]]%float 100 100 10
   = [[nan; 10]; [nan; 90]]%float /\
   (nan =? 10)%float = false).
Proof. repeat split; reflexivity. Qed.

(** ** Rounding to binary64

    The shift-and-round of [SpecFloat.binary_round_aux], read on integers. *)

(** The record obtained from the integer [N] after [j] right shifts: the
    quotient, the last bit shifted out and whether any bit before it was
    set. *)
Definition rec_of (N j : Z) : shr_record :=
  if (j =? 0)%Z then {| shr_m := N; shr_r := false; shr_s := false |}
  else {| shr_m := N / 2 ^ j;
          shr_r := Z.odd (N / 2 ^ (j - 1));
          shr_s := negb (N mod 2 ^ (j - 1) =? 0)%Z |}.

(** The mantissa after [j] shifts and rounding to nearest, ties to even. *)
Definition rne_shift (N j : Z) : Z :=
  round_nearest_even (shr_m (rec_of N j)) (loc_of_shr_record (rec_of N j)).

(** The last step of [binary_round_aux]: zero, a finite value or an
    overflow. *)
Definition bra_result (sx : bool) (M E : Z) : spec_float :=
  match M with
  | Z0 => S754_zero sx
  | Zpos m => if (E <=? emax - prec)%Z then S754_finite sx m E else S754_infinity sx
  | Zneg _ => S754_nan
  end.

(** The shift that brings a mantissa to its exponent [fexp]. *)
Definition rshift (N e : Z) : Z := Z.max 0 (fexp prec emax (Zdigits2 N + e) - e).

Lemma shr_1_nonneg (mrs : shr_record) :
  (0 <= shr_m mrs)%Z ->
  shr_1 mrs = {| shr_m := shr_m mrs / 2;
                 shr_r := Z.odd (shr_m mrs);
                 shr_s := shr_r mrs || shr_s mrs |}.
Proof.
  destruct mrs as [m r s]. simpl. intros Hm. rewrite <- Z.div2_div.
  destruct m as [|[p|p|]|p]; try reflexivity. lia.
Qed.

Lemma pow2_pos (j : Z) : (0 <= j)%Z -> (0 < 2 ^ j)%Z.
Proof. intros. apply Z.pow_pos_nonneg; lia. Qed.

Lemma shr_m_rec_of (N j : Z) : (0 <= j)%Z -> shr_m (rec_of N j) = (N / 2 ^ j)%Z.
Proof.
  intros Hj. unfold rec_of. destruct (Z.eqb_spec j 0) as [->|]; simpl; [|done].
  by rewrite Z.div_1_r.
Qed.

Lemma rec_of_pos (N j : Z) :
  j <> 0%Z ->
  rec_of N j = {| shr_m := N / 2 ^ j;
                  shr_r := Z.odd (N / 2 ^ (j - 1));
                  shr_s := negb (N mod 2 ^ (j - 1) =? 0)%Z |}.
Proof. intros Hj. unfold rec_of. by destruct (Z.eqb_spec j 0). Qed.

Lemma shr_1_rec_of (N j : Z) :
  (0 <= N)%Z -> (0 <= j)%Z -> shr_1 (rec_of N j) = rec_of N (j + 1).
Proof.
  intros HN Hj. rewrite shr_1_nonneg.
  2:{ rewrite shr_m_rec_of by done. apply Z.div_pos; [done|by apply pow2_pos]. }
  rewrite (rec_of_pos N (j + 1)) by lia.
  replace (j + 1 - 1)%Z with j by lia.
  rewrite shr_m_rec_of by done.
  pose proof (pow2_pos j Hj) as HP.
  f_equal.
  - rewrite Z.pow_add_r by lia. rewrite Z.div_div by lia. reflexivity.
  - unfold rec_of. destruct (Z.eqb_spec j 0) as [->|Hj0]; simpl.
    + change (2 ^ 0)%Z with 1%Z. by rewrite Z.mod_1_r.
    + replace (2 ^ j)%Z with (2 ^ (j - 1) * 2)%Z.
      2:{ rewrite Z.mul_comm, <- (Z.pow_succ_r 2 (j - 1)) by lia. f_equal. lia. }
      pose proof (pow2_pos (j - 1)) as HQ.
      rewrite Z.rem_mul_r by lia. rewrite Zmod_odd.
      pose proof (Z.mod_pos_bound N (2 ^ (j - 1))) as Hb.
      destruct (Z.odd (N / 2 ^ (j - 1))); simpl.
      * symmetry. apply negb_true_iff. apply Z.eqb_neq. lia.
      * rewrite Z.mul_0_r, Z.add_0_r. reflexivity.
Qed.

Lemma iter_pos_shr_1 (p : positive) (N j : Z) :
  (0 <= N)%Z -> (0 <= j)%Z ->
  SpecFloat.iter_pos shr_1 p (rec_of N j) = rec_of N (j + Zpos p).
Proof.
  intros HN. revert j. induction p as [p IH|p IH|]; intros j Hj; simpl.
  - rewrite shr_1_rec_of, !IH by lia. f_equal. lia.
  - rewrite !IH by lia. f_equal. lia.
  - by apply shr_1_rec_of.
Qed.

(** The first step of [binary_round_aux] on an exactly represented
    mantissa. *)
Lemma shr_exact (N e n : Z) :
  (0 <= N)%Z ->
  shr (shr_record_of_loc N loc_Exact) e n
  = (rec_of N (Z.max 0 n), (e + Z.max 0 n)%Z).
Proof.
  intros HN. change (shr_record_of_loc N loc_Exact) with (rec_of N 0).
  unfold shr. destruct n as [|p|p].
  - by rewrite Z.add_0_r.
  - rewrite iter_pos_shr_1 by lia. by rewrite Z.max_r by lia.
  - by rewrite Z.add_0_r.
Qed.

Lemma binary_round_aux_exact (sx : bool) (N e : Z) :
  (0 <= N)%Z ->
  let q := rne_shift N (rshift N e) in
  let E := (e + rshift N e)%Z in
  (0 <= q)%Z /\
  binary_round_aux prec emax sx N e loc_Exact
  = bra_result sx (q / 2 ^ rshift q E) (E + rshift q E).
Proof.
  intros HN q E.
  assert (Hq1 : (0 <= N / 2 ^ rshift N e)%Z).
  { apply Z.div_pos; [done|]. apply pow2_pos. unfold rshift. lia. }
  assert (Hq : (0 <= q)%Z).
  { unfold q, rne_shift. rewrite shr_m_rec_of by (unfold rshift; lia).
    unfold round_nearest_even.
    destruct (loc_of_shr_record _) as [|[]]; try destruct (Z.even _); lia. }
  split; [exact Hq|].
  unfold binary_round_aux, shr_fexp. rewrite shr_exact by done.
  fold (rshift N e). fold (rne_shift N (rshift N e)). fold q. fold E.
  rewrite shr_exact by done. fold (rshift q E).
  rewrite shr_m_rec_of by (unfold rshift; lia). reflexivity.
Qed.

Lemma rne_shift_0 (N : Z) : rne_shift N 0 = N.
Proof. reflexivity. Qed.

Lemma odd_div2 (a : Z) : a = (2 * (a / 2) + (if Z.odd a then 1 else 0))%Z.
Proof. rewrite <- Zmod_odd. apply Z.div_mod. lia. Qed.

(** After at least one shift: with [a] the mantissa one shift earlier, the
    result is [a / 2], plus one when the bit shifted out is set and either a
    lower bit was set or [a / 2] is odd. *)
Lemma rne_shift_pos (N j : Z) :
  (0 < j)%Z ->
  rne_shift N j =
  (let a := N / 2 ^ (j - 1) in
   a / 2 + (if Z.odd a && (negb (N mod 2 ^ (j - 1) =? 0) || Z.odd (a / 2))
            then 1 else 0))%Z.
Proof.
  intros Hj. unfold rne_shift. rewrite rec_of_pos by lia. simpl.
  assert (Hm : (N / 2 ^ j = N / 2 ^ (j - 1) / 2)%Z).
  { rewrite Z.div_div by (try apply Z.pow_nonzero; lia).
    rewrite Z.mul_comm, <- (Z.pow_succ_r 2 (j - 1)) by lia. do 2 f_equal. lia. }
  rewrite Hm.
  set (a := (N / 2 ^ (j - 1))%Z). set (st := negb (N mod 2 ^ (j - 1) =? 0)%Z).
  destruct (Z.odd a), st; simpl; try lia;
    rewrite <- (Z.negb_odd (a / 2)); destruct (Z.odd (a / 2)); simpl; lia.
Qed.

Lemma rne_shift_bounds (N j : Z) :
  (0 <= j)%Z -> (N / 2 ^ j <= rne_shift N j <= N / 2 ^ j + 1)%Z.
Proof.
  intros Hj. unfold rne_shift. rewrite shr_m_rec_of by done.
  unfold round_nearest_even.
  destruct (loc_of_shr_record _) as [|[]]; try destruct (Z.even _); lia.
Qed.

(** Rounding is monotone at a fixed shift. *)
Lemma rne_shift_mono (N1 N2 j : Z) :
  (0 <= j)%Z -> (N1 <= N2)%Z -> (rne_shift N1 j <= rne_shift N2 j)%Z.
Proof.
  intros Hj HN. destruct (Z.eq_dec j 0%Z) as [->|Hj0]; [by rewrite !rne_shift_0|].
  rewrite !rne_shift_pos by lia. cbv zeta.
  pose proof (pow2_pos (j - 1)) as HP.
  set (h := (2 ^ (j - 1))%Z) in *.
  assert (Ha : (N1 / h <= N2 / h)%Z) by (apply Z.div_le_mono; lia).
  pose proof (Z.div_mod N1 h) as E1. pose proof (Z.div_mod N2 h) as E2.
  pose proof (Z.mod_pos_bound N1 h) as B1. pose proof (Z.mod_pos_bound N2 h) as B2.
  pose proof (odd_div2 (N1 / h)) as O1. pose proof (odd_div2 (N2 / h)) as O2.
  set (a1 := (N1 / h)%Z) in *. set (a2 := (N2 / h)%Z) in *.
  destruct (Z.eq_dec a1 a2) as [Heq|Hne].
  - rewrite <- Heq in *. 
    destruct (Z.odd a1); simpl; [|lia].
    destruct (Z.odd (a1 / 2)); simpl; rewrite ?orb_true_r, ?orb_false_r; [lia|].
    destruct (Z.eqb_spec (N1 mod h) 0) as [H1|H1], (Z.eqb_spec (N2 mod h) 0) as [H2|H2];
      simpl; nia.
  - assert (a1 + 1 <= a2)%Z by lia.
    destruct (Z.odd a1), (Z.odd a2); simpl;
      repeat match goal with |- context [if ?b then _ else _] => destruct b end; lia.
Qed.

(** A multiple of [2 ^ j] is not changed by the rounding. *)
Lemma rne_shift_exact (B j : Z) :
  (0 <= j)%Z -> rne_shift (B * 2 ^ j) j = B.
Proof.
  intros Hj. destruct (Z.eq_dec j 0%Z) as [->|Hj0].
  - rewrite rne_shift_0. change (2 ^ 0)%Z with 1%Z. lia.
  - rewrite rne_shift_pos by lia. cbv zeta.
    pose proof (pow2_pos (j - 1)) as HP.
    replace (2 ^ j)%Z with (2 * 2 ^ (j - 1))%Z.
    2:{ rewrite <- (Z.pow_succ_r 2 (j - 1)) by lia. f_equal. lia. }
    rewrite Z.mul_assoc, Z.div_mul by lia.
    rewrite (Z.mul_comm B 2), Z.odd_mul. simpl. rewrite Z.mul_comm, Z.div_mul by lia. lia.
Qed.

(** *** Number of binary digits *)

Lemma Zdigits2_bounds (N : Z) :
  (0 < N)%Z -> (0 < Zdigits2 N /\ 2 ^ (Zdigits2 N - 1) <= N < 2 ^ Zdigits2 N)%Z.
Proof.
  destruct N as [|p|p]; try lia. intros _. simpl.
  split; [lia|apply digits2_pos_bounds].
Qed.

Lemma Zdigits2_unique (N d : Z) :
  (2 ^ (d - 1) <= N < 2 ^ d)%Z -> (0 < N)%Z -> Zdigits2 N = d.
Proof.
  intros [Hlo Hhi] HN. destruct (Zdigits2_bounds N HN) as (Hd & Hlo' & Hhi').
  assert (0 < d)%Z.
  { destruct (Z.le_gt_cases d 0) as [Hd0|]; [|done].
    rewrite (Z.pow_neg_r 2 (d - 1)) in Hlo by lia.
    destruct (Z.eq_dec d 0%Z) as [->|]; [simpl in Hhi; lia|].
    rewrite Z.pow_neg_r in Hhi by lia. lia. }
  destruct (Z.lt_trichotomy (Zdigits2 N) d) as [Hlt|[Heq|Hgt]]; [|done|].
  - assert (2 ^ Zdigits2 N <= 2 ^ (d - 1))%Z by (apply Z.pow_le_mono_r; lia). lia.
  - assert (2 ^ d <= 2 ^ (Zdigits2 N - 1))%Z by (apply Z.pow_le_mono_r; lia). lia.
Qed.

Lemma Zdigits2_nonneg (N : Z) : (0 <= Zdigits2 N)%Z.
Proof. destruct N; simpl; lia. Qed.

Lemma Zdigits2_mono (N1 N2 : Z) :
  (0 <= N1 <= N2)%Z -> (Zdigits2 N1 <= Zdigits2 N2)%Z.
Proof.
  intros [H1 H2]. destruct (Z.eq_dec N1 0%Z) as [->|Hne]; [apply Zdigits2_nonneg|].
  destruct (Zdigits2_bounds N1) as (Hd1 & Hlo1 & Hhi1); [lia|].
  destruct (Zdigits2_bounds N2) as (Hd2 & Hlo2 & Hhi2); [lia|].
  destruct (Z.le_gt_cases (Zdigits2 N1) (Zdigits2 N2)) as [|Hgt]; [done|].
  assert (2 ^ Zdigits2 N2 <= 2 ^ (Zdigits2 N1 - 1))%Z by (apply Z.pow_le_mono_r; lia).
  lia.
Qed.

(** A positive integer below [2 ^ d] has at most [d] digits. *)
Lemma Zdigits2_le (N d : Z) :
  (0 <= N)%Z -> (0 <= d)%Z -> (N < 2 ^ d)%Z -> (Zdigits2 N <= d)%Z.
Proof.
  intros HN0 Hd HN. destruct (Z.le_gt_cases N 0) as [H0|H0].
  - assert (N = 0%Z) as -> by lia. simpl. lia.
  - destruct (Zdigits2_bounds N H0) as (Hd1 & Hlo1 & Hhi1).
    destruct (Z.le_gt_cases (Zdigits2 N) d) as [|Hgt]; [done|].
    assert (2 ^ d <= 2 ^ (Zdigits2 N - 1))%Z by (apply Z.pow_le_mono_r; lia). lia.
Qed.

Lemma Zdigits2_mul_pow2 (N i : Z) :
  (0 < N)%Z -> (0 <= i)%Z -> Zdigits2 (N * 2 ^ i) = (Zdigits2 N + i)%Z.
Proof.
  intros HN Hi. destruct (Zdigits2_bounds N HN) as (Hd & Hlo & Hhi).
  pose proof (pow2_pos i Hi) as HP.
  apply Zdigits2_unique; [|nia].
  replace (Zdigits2 N + i - 1)%Z with ((Zdigits2 N - 1) + i)%Z by lia.
  rewrite !Z.pow_add_r by lia. nia.
Qed.

Lemma fexp_mono (x y : Z) : (x <= y)%Z -> (fexp prec emax x <= fexp prec emax y)%Z.
Proof. rewrite !fexp_eq. lia. Qed.

Lemma fexp_ge_emin (x : Z) : (-1074 <= fexp prec emax x)%Z.
Proof. rewrite fexp_eq. lia. Qed.

Lemma rshift_nonneg (N e : Z) : (0 <= rshift N e)%Z.
Proof. unfold rshift. lia. Qed.

Lemma shr_m_iter (p : positive) (mrs : shr_record) :
  (0 <= shr_m mrs)%Z ->
  shr_m (SpecFloat.iter_pos shr_1 p mrs) = (shr_m mrs / 2 ^ Zpos p)%Z.
Proof.
  assert (Hstep : forall r, (0 <= shr_m r)%Z ->
            (0 <= shr_m (shr_1 r))%Z /\ shr_m (shr_1 r) = (shr_m r / 2)%Z).
  { intros r Hr. rewrite shr_1_nonneg by done. simpl.
    split; [apply Z.div_pos; lia|done]. }
  assert (Hiter : forall p r, (0 <= shr_m r)%Z ->
            (0 <= shr_m (SpecFloat.iter_pos shr_1 p r))%Z /\
            shr_m (SpecFloat.iter_pos shr_1 p r) = (shr_m r / 2 ^ Zpos p)%Z).
  { clear p mrs. induction p as [p IH|p IH|]; intros r Hr; simpl SpecFloat.iter_pos.
    - destruct (Hstep r Hr) as [H1 E1].
      destruct (IH _ H1) as [H2 E2]. destruct (IH _ H2) as [H3 E3].
      split; [exact H3|]. rewrite E3, E2, E1.
      rewrite !Z.div_div by (try apply Z.pow_nonzero; try apply pow2_pos; lia).
      f_equal. rewrite (Pos2Z.inj_xI p), Z.add_1_r, Z.pow_succ_r, Z.pow_twice_r by lia.
      lia.
    - destruct (IH _ Hr) as [H2 E2]. destruct (IH _ H2) as [H3 E3].
      split; [exact H3|]. rewrite E3, E2.
      rewrite !Z.div_div by (try apply Z.pow_nonzero; try apply pow2_pos; lia).
      f_equal. rewrite (Pos2Z.inj_xO p), Z.pow_twice_r. lia.
    - destruct (Hstep r Hr) as [H1 E1]. split; [exact H1|]. rewrite E1.
      by change (2 ^ 1)%Z with 2%Z. }
  intros H. by apply Hiter.
Qed.

Lemma shr_record_of_loc_m (N : Z) (l : location) : shr_m (shr_record_of_loc N l) = N.
Proof. by destruct l as [|[]]. Qed.

Lemma loc_of_shr_record_of_loc (N : Z) (l : location) :
  loc_of_shr_record (shr_record_of_loc N l) = l.
Proof. by destruct l as [|[]]. Qed.

Lemma round_nearest_even_bounds (m : Z) (l : location) :
  (m <= round_nearest_even m l <= m + 1)%Z.
Proof.
  unfold round_nearest_even. destruct l as [|[]]; try destruct (Z.even m); lia.
Qed.

(** [binary_round_aux] for any location: a shift, a mantissa that is the
    shifted one or its successor, and the last step. *)
Lemma binary_round_aux_gen (sx : bool) (N e : Z) (l : location) :
  (0 <= N)%Z ->
  exists q,
    (N / 2 ^ rshift N e <= q <= N / 2 ^ rshift N e + 1)%Z /\
    binary_round_aux prec emax sx N e l
    = bra_result sx (q / 2 ^ rshift q (e + rshift N e))
                 (e + rshift N e + rshift q (e + rshift N e)).
Proof.
  intros HN. unfold binary_round_aux, shr_fexp.
  set (n := (fexp prec emax (Zdigits2 N + e) - e)%Z).
  assert (Hfst : exists r, shr (shr_record_of_loc N l) e n = (r, (e + rshift N e)%Z) /\
                           shr_m r = (N / 2 ^ rshift N e)%Z).
  { unfold shr, rshift. fold n. destruct n as [|p|p].
    - eexists; split; [by rewrite Z.add_0_r|].
      rewrite shr_record_of_loc_m. by rewrite Z.div_1_r.
    - eexists; split; [by rewrite Z.max_r by lia|].
      rewrite shr_m_iter by (by rewrite shr_record_of_loc_m).
      by rewrite shr_record_of_loc_m, Z.max_r by lia.
    - eexists; split; [by rewrite Z.add_0_r|].
      rewrite shr_record_of_loc_m. by rewrite Z.div_1_r. }
  destruct Hfst as (r & -> & Hr).
  set (q := round_nearest_even (shr_m r) (loc_of_shr_record r)).
  assert (Hq : (N / 2 ^ rshift N e <= q <= N / 2 ^ rshift N e + 1)%Z).
  { rewrite <- Hr. apply round_nearest_even_bounds. }
  exists q. split; [exact Hq|].
  assert (0 <= q)%Z.
  { assert (0 <= N / 2 ^ rshift N e)%Z; [|lia].
    apply Z.div_pos; [done|]. apply pow2_pos, rshift_nonneg. }
  rewrite shr_exact by done. fold (rshift q (e + rshift N e)).
  rewrite shr_m_rec_of by apply rshift_nonneg. reflexivity.
Qed.

Lemma rne_shift_scale (N n i : Z) :
  (0 <= n)%Z -> (0 <= i)%Z -> rne_shift (N * 2 ^ i) (n + i) = rne_shift N n.
Proof.
  intros Hn Hi. destruct (Z.eq_dec n 0%Z) as [->|Hn0].
  - rewrite Z.add_0_l, rne_shift_exact by done. by rewrite rne_shift_0.
  - rewrite !rne_shift_pos by lia. cbv zeta.
    pose proof (pow2_pos i Hi) as HPi. pose proof (pow2_pos (n - 1)) as HPn.
    replace (n + i - 1)%Z with ((n - 1) + i)%Z by lia.
    rewrite Z.pow_add_r by lia.
    rewrite Z.div_mul_cancel_r by lia.
    rewrite Z.mul_mod_distr_r by lia.
    replace ((N mod 2 ^ (n - 1) * 2 ^ i =? 0)%Z) with ((N mod 2 ^ (n - 1) =? 0)%Z);
      [reflexivity|].
    destruct (Z.eqb_spec (N mod 2 ^ (n - 1)) 0) as [->|Hne]; symmetry.
    + by apply Z.eqb_eq.
    + apply Z.eqb_neq. nia.
Qed.

(** *** The value of a rounded result *)

Lemma bra_result_key (sx : bool) (M E : Z) :
  (0 <= M < 2 ^ 53)%Z -> (-1074 <= E)%Z -> (-1074 < E -> 2 ^ 52 <= M)%Z ->
  SFis_nan (bra_result sx M E) = false /\
  SFkey (bra_result sx M E)
  = cond_Zopp sx (Z.min (2 ^ 2098) (M * 2 ^ (E + 1074))).
Proof.
  intros [HM0 HM] HE Hnorm. unfold bra_result.
  destruct M as [|m|m]; [| |lia].
  - split; [done|]. simpl SFkey. rewrite Z.mul_0_l.
    rewrite Z.min_r by (apply Z.pow_nonneg; lia). by destruct sx.
  - change (emax - prec)%Z with 971%Z.
    pose proof (pow2_pos (E + 1074)) as HP.
    destruct (Z.leb_spec E 971) as [Hle|Hgt]; (split; [done|]); simpl SFkey; f_equal.
    + rewrite Z.min_r; [done|].
      assert (2 ^ (E + 1074) <= 2 ^ 2045)%Z by (apply Z.pow_le_mono_r; lia).
      replace (2 ^ 2098)%Z with (2 ^ 53 * 2 ^ 2045)%Z
        by (rewrite <- Z.pow_add_r; [reflexivity|lia|lia]).
      nia.
    + rewrite Z.min_l; [done|].
      assert (2 ^ 2046 <= 2 ^ (E + 1074))%Z by (apply Z.pow_le_mono_r; lia).
      replace (2 ^ 2098)%Z with (2 ^ 52 * 2 ^ 2046)%Z
        by (rewrite <- Z.pow_add_r; [reflexivity|lia|lia]).
      assert (2 ^ 52 <= Zpos m)%Z by lia.
      assert (0 < 2 ^ 2046)%Z by (apply Z.pow_pos_nonneg; lia).
      nia.
Qed.

(** The second shift only undoes a carry into a 54th bit. *)
Lemma second_shift (q E : Z) :
  (0 < q <= 2 ^ 53)%Z -> (-1074 <= E)%Z -> (-1074 < E -> 2 ^ 52 <= q)%Z ->
  let n2 := rshift q E in
  let M := (q / 2 ^ n2)%Z in
  (M * 2 ^ n2 = q)%Z /\ (0 < M < 2 ^ 53)%Z /\ (-1074 < E + n2 -> 2 ^ 52 <= M)%Z.
Proof.
  intros [Hq0 Hq] HE Hnorm n2 M. subst n2 M. unfold rshift. rewrite fexp_eq.
  set (n2 := Z.max 0 (Z.max (Zdigits2 q + E - 53) (-1074) - E)).
  destruct (Z.eq_dec q (2 ^ 53)%Z) as [Heq|Hne].
  - assert (Hd : Zdigits2 q = 54%Z) by (rewrite Heq; reflexivity).
    assert (Hn2 : n2 = 1%Z) by lia. rewrite Hn2, Heq.
    change (2 ^ 53 / 2 ^ 1)%Z with (2 ^ 52)%Z. change (2 ^ 52 * 2 ^ 1)%Z with (2 ^ 53)%Z.
    split; [reflexivity|]. split; [split; reflexivity|]. intros _. apply Z.le_refl.
  - assert (Zdigits2 q <= 53)%Z by (apply Zdigits2_le; lia).
    assert (Hn2 : n2 = 0%Z) by lia. rewrite Hn2.
    change (2 ^ 0)%Z with 1%Z.
    rewrite Z.div_1_r, Z.mul_1_r, Z.add_0_r. split; [done|]. split; [lia|done].
Qed.

(** The first shift of a mantissa whose exponent is not above [fexp]. *)
Lemma first_shift (N e : Z) :
  (0 < N)%Z -> (-1074 <= e)%Z -> (e <= fexp prec emax (Zdigits2 N + e))%Z ->
  let n := rshift N e in
  let q1 := (N / 2 ^ n)%Z in
  n = (fexp prec emax (Zdigits2 N + e) - e)%Z /\
  n = Z.max 0 (Zdigits2 N + (e + 1074) - 53 - (e + 1074)) /\
  (e + 1074 = 0 \/ 53 <= Zdigits2 N)%Z /\
  (0 < q1 < 2 ^ 53)%Z /\ (-1074 < e + n -> 2 ^ 52 <= q1)%Z.
Proof.
  intros HN He Hcan n q1. subst n q1. unfold rshift. rewrite fexp_eq in *.
  destruct (Zdigits2_bounds N HN) as (Hd & Hlo & Hhi).
  set (d := Zdigits2 N) in *.
  set (n := Z.max 0 (Z.max (d + e - 53) (-1074) - e)).
  split; [lia|]. split; [lia|]. split; [lia|].
  assert (Hcase : ((e = -1074 /\ d < 53) \/ (53 <= d))%Z) by lia.
  destruct Hcase as [[He' Hd53]|Hd53].
  - assert (Hn : n = 0%Z) by lia. rewrite Hn.
    change (2 ^ 0)%Z with 1%Z. rewrite Z.div_1_r. split; [|lia].
    split; [done|]. eapply Z.lt_le_trans; [exact Hhi|]. apply Z.pow_le_mono_r; lia.
  - assert (Hn : n = (d - 53)%Z) by lia. rewrite Hn.
    pose proof (pow2_pos (d - 53)) as HP.
    assert (Hq : (2 ^ 52 <= N / 2 ^ (d - 53) < 2 ^ 53)%Z).
    { split.
      - apply Z.div_le_lower_bound; [lia|].
        rewrite <- Z.pow_add_r by lia. replace (d - 53 + 52)%Z with (d - 1)%Z by lia. done.
      - apply Z.div_lt_upper_bound; [lia|].
        rewrite <- Z.pow_add_r by lia. replace (d - 53 + 53)%Z with d by lia. done. }
    split; [|lia]. assert (0 < 2 ^ 52)%Z by (by apply pow2_pos). lia.
Qed.

(** *** Rounding in units of 2^-1074

    [RN K] is the image of the binary64 value nearest to [K * 2^-1074] for a
    positive integer [K] (ties to even, overflow to infinity); [RNZ] extends
    it to all integers. *)
Definition RN (K : Z) : Z :=
  let n := Z.max 0 (Zdigits2 K - 53) in
  Z.min (2 ^ 2098) (rne_shift K n * 2 ^ n).

Definition RNZ (K : Z) : Z :=
  match K with
  | Z0 => 0
  | Zpos _ => RN K
  | Zneg p => - RN (Zpos p)
  end.

Lemma binary_round_aux_key (sx : bool) (N e : Z) :
  (0 < N)%Z -> (-1074 <= e)%Z -> (e <= fexp prec emax (Zdigits2 N + e))%Z ->
  SFis_nan (binary_round_aux prec emax sx N e loc_Exact) = false /\
  SFkey (binary_round_aux prec emax sx N e loc_Exact)
  = cond_Zopp sx (RN (N * 2 ^ (e + 1074))).
Proof.
  intros HN He Hcan.
  destruct (binary_round_aux_exact sx N e) as [Hq0 ->]; [lia|].
  destruct (first_shift N e HN He Hcan) as (Hn & HnK & Hj & Hq1 & Hq1n).
  set (n := rshift N e) in *.
  pose proof (rne_shift_bounds N n (rshift_nonneg N e)) as Hq.
  set (q := rne_shift N n) in *.
  assert (HE : (-1074 <= e + n)%Z) by (pose proof (rshift_nonneg N e); lia).
  destruct (second_shift q (e + n)) as (HM & HMb & HMn); [lia|done|lia|].
  set (n2 := rshift q (e + n)) in *. set (M := (q / 2 ^ n2)%Z) in *.
  destruct (bra_result_key sx M (e + n + n2)) as [Hnan Hkey].
  { lia. } { pose proof (rshift_nonneg q (e + n)). fold n2 in H. lia. } { exact HMn. }
  split; [exact Hnan|]. rewrite Hkey. do 2 f_equal.
  (* the same integer on both sides *)
  assert (Hn0 : (0 <= n)%Z) by apply rshift_nonneg.
  assert (Hn20 : (0 <= n2)%Z) by apply rshift_nonneg.
  unfold RN.
  assert (HdK : Zdigits2 (N * 2 ^ (e + 1074)) = (Zdigits2 N + (e + 1074))%Z)
    by (apply Zdigits2_mul_pow2; lia).
  rewrite HdK.
  assert (HnK' : Z.max 0 (Zdigits2 N + (e + 1074) - 53) = (n + (e + 1074))%Z) by lia.
  rewrite HnK', rne_shift_scale by lia. fold q.
  rewrite <- HM.
  replace (e + n + n2 + 1074)%Z with (n2 + (n + (e + 1074)))%Z by lia.
  rewrite (Z.pow_add_r 2 n2) by lia. lia.
Qed.

Lemma pos_iter_xO (m p : positive) : Zpos (Pos.iter xO m p) = (Zpos m * 2 ^ Zpos p)%Z.
Proof.
  revert m. induction p as [|p IH] using Pos.peano_ind; intros m.
  - simpl. lia.
  - rewrite Pos.iter_succ, Pos2Z.inj_xO, IH, Pos2Z.inj_succ, Z.pow_succ_r by lia. lia.
Qed.

Lemma shl_align_spec (m : positive) (e e' : Z) :
  let '(mz, ez) := shl_align m e e' in
  ez = Z.min e e' /\ Zpos mz = (Zpos m * 2 ^ (e - ez))%Z.
Proof.
  unfold shl_align. destruct (e' - e)%Z as [|p|p] eqn:E.
  - split; [lia|]. rewrite Z.sub_diag. simpl. lia.
  - split; [lia|]. rewrite Z.sub_diag. simpl. lia.
  - split; [lia|]. rewrite pos_iter_xO. do 2 f_equal. lia.
Qed.

(** [binary_round] on a mantissa at an exponent of the binary64 range. *)
Lemma binary_round_key (sx : bool) (m : positive) (e : Z) :
  (-1074 <= e)%Z ->
  SFis_nan (binary_round prec emax sx m e) = false /\
  SFkey (binary_round prec emax sx m e) = cond_Zopp sx (RN (Zpos m * 2 ^ (e + 1074))).
Proof.
  intros He. unfold binary_round.
  pose proof (shl_align_spec m e (fexp prec emax (Zpos (digits2_pos m) + e))) as Hal.
  destruct (shl_align m e _) as [mz ez]. destruct Hal as [Hez Hmz].
  pose proof (fexp_ge_emin (Zpos (digits2_pos m) + e)) as Hfe.
  assert (Hd : Zdigits2 (Zpos mz) = (Zpos (digits2_pos m) + (e - ez))%Z).
  { rewrite Hmz. apply (Zdigits2_mul_pow2 (Zpos m)); lia. }
  destruct (binary_round_aux_key sx (Zpos mz) ez) as [Hnan Hkey]; [lia|lia| |].
  - rewrite Hd. replace (Zpos (digits2_pos m) + (e - ez) + ez)%Z
      with (Zpos (digits2_pos m) + e)%Z by lia. lia.
  - split; [exact Hnan|]. rewrite Hkey. do 2 f_equal. rewrite Hmz.
    rewrite <- Z.mul_assoc, <- Z.pow_add_r by lia. do 2 f_equal. lia.
Qed.

(** Rounding an integer multiple of [2 ^ e]: the image of the result is the
    rounding of the image of the exact value. *)
Lemma binary_normalize_key (D e : Z) :
  (-1074 <= e)%Z ->
  SFis_nan (binary_normalize prec emax D e false) = false /\
  SFkey (binary_normalize prec emax D e false) = RNZ (D * 2 ^ (e + 1074)).
Proof.
  intros He. pose proof (pow2_pos (e + 1074)) as HP.
  unfold binary_normalize. destruct D as [|p|p].
  - by split.
  - destruct (binary_round_key false p e He) as [Hnan Hkey].
    split; [exact Hnan|]. rewrite Hkey. simpl cond_Zopp. unfold RNZ.
    destruct (Zpos p * 2 ^ (e + 1074))%Z eqn:E; lia.
  - destruct (binary_round_key true p e He) as [Hnan Hkey].
    split; [exact Hnan|]. rewrite Hkey. simpl cond_Zopp. unfold RNZ.
    destruct (Zneg p * 2 ^ (e + 1074))%Z eqn:E; try lia.
    do 2 f_equal. lia.
Qed.

Lemma RNZ_opp (K : Z) : RNZ (- K) = (- RNZ K)%Z.
Proof.
  destruct K as [|p|p]; [reflexivity|reflexivity|].
  change (RN (Zpos p) = - - RN (Zpos p))%Z. lia.
Qed.

Lemma RNZ_pos (K : Z) : (0 < K)%Z -> RNZ K = RN K.
Proof. destruct K; try lia. done. Qed.

(** The shifted mantissa of a positive integer has between 1 and 53 bits. *)
Lemma RN_shift_bounds (K : Z) :
  (0 < K)%Z ->
  let n := Z.max 0 (Zdigits2 K - 53) in
  (0 <= n)%Z /\ (0 < K / 2 ^ n < 2 ^ 53)%Z /\
  (0 < n -> 2 ^ 52 <= K / 2 ^ n)%Z /\
  ((K / 2 ^ n) * 2 ^ n <= K)%Z.
Proof.
  intros HK n. destruct (Zdigits2_bounds K HK) as (Hd & Hlo & Hhi).
  set (d := Zdigits2 K) in *.
  assert (Hn0 : (0 <= n)%Z) by lia. split; [exact Hn0|].
  pose proof (pow2_pos n Hn0) as HP.
  assert (Hmul : (K / 2 ^ n * 2 ^ n <= K)%Z).
  { pose proof (Z.div_mod K (2 ^ n)). pose proof (Z.mod_pos_bound K (2 ^ n)). nia. }
  destruct (Z.eq_dec n 0%Z) as [Hn|Hn].
  - rewrite Hn in *. change (2 ^ 0)%Z with 1%Z in *. rewrite Z.div_1_r.
    split; [|split; [lia|lia]]. split; [done|].
    eapply Z.lt_le_trans; [exact Hhi|]. apply Z.pow_le_mono_r; lia.
  - assert (Hnd : n = (d - 53)%Z) by lia.
    assert (Hq : (2 ^ 52 <= K / 2 ^ n < 2 ^ 53)%Z).
    { rewrite Hnd. split.
      - apply Z.div_le_lower_bound; [apply pow2_pos; lia|].
        rewrite <- Z.pow_add_r by lia. replace (d - 53 + 52)%Z with (d - 1)%Z by lia. done.
      - apply Z.div_lt_upper_bound; [apply pow2_pos; lia|].
        rewrite <- Z.pow_add_r by lia. replace (d - 53 + 53)%Z with d by lia. done. }
    assert (0 < 2 ^ 52)%Z by (by apply pow2_pos).
    split; [lia|]. split; [lia|exact Hmul].
Qed.

Lemma RN_positive (K : Z) : (0 < K)%Z -> (0 < RN K)%Z.
Proof.
  intros HK. unfold RN. destruct (RN_shift_bounds K HK) as (Hn & Hq & _).
  set (n := Z.max 0 (Zdigits2 K - 53)) in *.
  pose proof (rne_shift_bounds K n Hn). pose proof (pow2_pos n Hn).
  assert (0 < 2 ^ 2098)%Z by (by apply pow2_pos). 
  apply Z.min_glb_lt; [done|nia].
Qed.

(** Rounding is monotone. *)
Lemma RN_mono (K1 K2 : Z) : (0 < K1 <= K2)%Z -> (RN K1 <= RN K2)%Z.
Proof.
  intros [H1 H12]. assert (H2 : (0 < K2)%Z) by lia.
  unfold RN.
  destruct (RN_shift_bounds K1 H1) as (Hn1 & Hq1 & Hq1n & _).
  destruct (RN_shift_bounds K2 H2) as (Hn2 & Hq2 & Hq2n & _).
  pose proof (Zdigits2_mono K1 K2) as Hdm.
  destruct (Zdigits2_bounds K1 H1) as (Hd1 & Hlo1 & Hhi1).
  destruct (Zdigits2_bounds K2 H2) as (Hd2 & Hlo2 & Hhi2).
  set (d1 := Zdigits2 K1) in *. set (d2 := Zdigits2 K2) in *.
  set (n1 := Z.max 0 (d1 - 53)) in *. set (n2 := Z.max 0 (d2 - 53)) in *.
  pose proof (rne_shift_bounds K1 n1 Hn1) as Hr1.
  pose proof (rne_shift_bounds K2 n2 Hn2) as Hr2.
  pose proof (pow2_pos n1 Hn1) as HP1. pose proof (pow2_pos n2 Hn2) as HP2.
  apply Z.min_le_compat_l.
  destruct (Z.eq_dec n1 n2) as [Heq|Hne].
  - rewrite <- Heq. apply Z.mul_le_mono_nonneg_r; [lia|].
    apply rne_shift_mono; lia.
  - assert (Hlt : (n1 < n2)%Z) by lia.
    assert (Hn2d : n2 = (d2 - 53)%Z) by lia.
    transitivity (2 ^ (d2 - 1))%Z.
    + destruct (Z.eq_dec n1 0%Z) as [Hn10|Hn10].
      * rewrite Hn10. rewrite rne_shift_0. change (2 ^ 0)%Z with 1%Z.
        assert (2 ^ d1 <= 2 ^ (d2 - 1))%Z by (apply Z.pow_le_mono_r; lia). lia.
      * assert (Hn1d : n1 = (d1 - 53)%Z) by lia.
        assert (rne_shift K1 n1 * 2 ^ n1 <= 2 ^ 53 * 2 ^ n1)%Z by nia.
        rewrite <- Z.pow_add_r in H by lia.
        assert (2 ^ (53 + n1) <= 2 ^ (d2 - 1))%Z by (apply Z.pow_le_mono_r; lia). lia.
    + replace (d2 - 1)%Z with (52 + n2)%Z by lia. rewrite Z.pow_add_r by lia.
      assert (2 ^ 52 <= K2 / 2 ^ n2)%Z by (apply Hq2n; lia).
      nia.
Qed.

Lemma RNZ_mono (K1 K2 : Z) : (K1 <= K2)%Z -> (RNZ K1 <= RNZ K2)%Z.
Proof.
  intros H. destruct K1 as [|p1|p1], K2 as [|p2|p2]; cbn [RNZ Z.opp]; try lia.
  - pose proof (RN_positive (Zpos p2)). lia.
  - apply RN_mono. lia.
  - pose proof (RN_positive (Zpos p1)). lia.
  - pose proof (RN_positive (Zpos p1)). pose proof (RN_positive (Zpos p2)). lia.
  - assert (RN (Zpos p2) <= RN (Zpos p1))%Z by (apply RN_mono; lia). lia.
Qed.

Lemma RNZ_sign (K : Z) :
  ((0 < K -> 0 < RNZ K) /\ (K < 0 -> RNZ K < 0) /\ (K = 0 -> RNZ K = 0))%Z.
Proof.
  destruct K as [|p|p]; cbn [RNZ Z.opp]; repeat split; try lia.
  - intros _. by apply RN_positive.
  - intros _. pose proof (RN_positive (Zpos p)). lia.
Qed.

(** The image of a binary64 value is a fixed point of the rounding. *)
Lemma RN_fixed (m : positive) (e : Z) :
  valid_binary (S754_finite false m e) = true ->
  RN (Zpos m * 2 ^ (e + 1074)) = (Zpos m * 2 ^ (e + 1074))%Z.
Proof.
  intros V. pose proof (finite_key_bounds _ _ _ V) as Hb.
  apply valid_finite in V as (He & Hm & Hnorm).
  unfold RN.
  assert (HdK : Zdigits2 (Zpos m * 2 ^ (e + 1074)) = (Zdigits2 (Zpos m) + (e + 1074))%Z)
    by (apply Zdigits2_mul_pow2; lia).
  rewrite HdK.
  assert (Hd : (Zdigits2 (Zpos m) <= 53)%Z) by (apply Zdigits2_le; lia).
  pose proof (Zdigits2_nonneg (Zpos m)) as Hd0.
  set (n := Z.max 0 (Zdigits2 (Zpos m) + (e + 1074) - 53)).
  assert (Hn : (0 <= n <= e + 1074)%Z) by lia.
  replace (Zpos m * 2 ^ (e + 1074))%Z with ((Zpos m * 2 ^ (e + 1074 - n)) * 2 ^ n)%Z.
  2:{ rewrite <- Z.mul_assoc, <- Z.pow_add_r by lia. do 2 f_equal. lia. }
  rewrite rne_shift_exact by lia.
  apply Z.min_r.
  rewrite <- Z.mul_assoc, <- Z.pow_add_r by lia.
  replace (e + 1074 - n + n)%Z with (e + 1074)%Z by lia. lia.
Qed.

Lemma RNZ_fixed (x : spec_float) :
  valid_binary x = true -> SFfinite x = true -> RNZ (SFkey x) = SFkey x.
Proof.
  intros V F. destruct x as [sx|sx| |sx m e]; try discriminate; [reflexivity|].
  assert (V' : valid_binary (S754_finite false m e) = true) by exact V.
  pose proof (finite_key_bounds _ _ _ V') as Hb.
  simpl SFkey. destruct sx; simpl cond_Zopp.
  - rewrite RNZ_opp, RNZ_pos by lia. by rewrite RN_fixed.
  - rewrite RNZ_pos by lia. by apply RN_fixed.
Qed.

(** *** Sums and differences of finite values *)

Lemma shl_align_key (m : positive) (e ez : Z) :
  (-1074 <= ez <= e)%Z ->
  (Zpos (fst (shl_align m e ez)) * 2 ^ (ez + 1074) = Zpos m * 2 ^ (e + 1074))%Z.
Proof.
  intros He. pose proof (shl_align_spec m e ez) as H.
  destruct (shl_align m e ez) as [mz ez']. destruct H as [Hez Hmz]. simpl fst.
  rewrite Hmz, <- Z.mul_assoc, <- Z.pow_add_r by lia. do 2 f_equal. lia.
Qed.

Lemma cond_Zopp_mul (sx : bool) (a b : Z) :
  (cond_Zopp sx a * b = cond_Zopp sx (a * b))%Z.
Proof. destruct sx; simpl; lia. Qed.

Lemma SFadd_key (x y : spec_float) :
  valid_binary x = true -> valid_binary y = true ->
  SFfinite x = true -> SFfinite y = true ->
  SFis_nan (SF64add x y) = false /\
  SFkey (SF64add x y) = RNZ (SFkey x + SFkey y).
Proof.
  intros Vx Vy Fx Fy.
  destruct x as [sx|sx| |sx mx ex]; try discriminate;
    destruct y as [sy|sy| |sy my ey]; try discriminate.
  - by destruct sx, sy.
  - split; [done|]. cbn [SF64add SFadd]. rewrite Z.add_0_l.
    by rewrite RNZ_fixed.
  - split; [done|]. cbn [SF64add SFadd]. change (SFkey (S754_zero sy)) with 0%Z.
    rewrite Z.add_0_r. by rewrite RNZ_fixed.
  - cbn [SF64add SFadd].
    destruct (valid_finite _ _ _ Vx) as (Hex & _). destruct (valid_finite _ _ _ Vy) as (Hey & _).
    destruct (binary_normalize_key
                (cond_Zopp sx (Zpos (fst (shl_align mx ex (Z.min ex ey))))
                 + cond_Zopp sy (Zpos (fst (shl_align my ey (Z.min ex ey)))))
                (Z.min ex ey)) as [Hnan Hkey]; [lia|].
    split; [exact Hnan|]. rewrite Hkey. f_equal.
    rewrite Z.mul_add_distr_r, !cond_Zopp_mul, !shl_align_key by lia. reflexivity.
Qed.

Lemma SFsub_key (x y : spec_float) :
  valid_binary x = true -> valid_binary y = true ->
  SFfinite x = true -> SFfinite y = true ->
  SFis_nan (SF64sub x y) = false /\
  SFkey (SF64sub x y) = RNZ (SFkey x - SFkey y).
Proof.
  intros Vx Vy Fx Fy.
  destruct x as [sx|sx| |sx mx ex]; try discriminate;
    destruct y as [sy|sy| |sy my ey]; try discriminate.
  - by destruct sx, sy.
  - split; [done|]. cbn [SF64sub SFsub]. change (SFkey (S754_zero sx)) with 0%Z.
    rewrite Z.sub_0_l.
    assert (V' : valid_binary (S754_finite (negb sy) my ey) = true) by exact Vy.
    rewrite <- (RNZ_fixed _ V' eq_refl). f_equal. simpl. destruct sy; simpl; lia.
  - split; [done|]. cbn [SF64sub SFsub]. change (SFkey (S754_zero sy)) with 0%Z.
    rewrite Z.sub_0_r. by rewrite RNZ_fixed.
  - cbn [SF64sub SFsub].
    destruct (valid_finite _ _ _ Vx) as (Hex & _). destruct (valid_finite _ _ _ Vy) as (Hey & _).
    destruct (binary_normalize_key
                (cond_Zopp sx (Zpos (fst (shl_align mx ex (Z.min ex ey))))
                 - cond_Zopp sy (Zpos (fst (shl_align my ey (Z.min ex ey)))))
                (Z.min ex ey)) as [Hnan Hkey]; [lia|].
    split; [exact Hnan|]. rewrite Hkey. f_equal.
    rewrite Z.mul_sub_distr_r, !cond_Zopp_mul, !shl_align_key by lia. reflexivity.
Qed.

Lemma add_key (x y : number) :
  is_finite x = true -> is_finite y = true ->
  PrimFloat.is_nan (x + y) = false /\ key (x + y) = RNZ (key x + key y).
Proof.
  intros Hx Hy. rewrite is_finite_SF in Hx, Hy.
  rewrite <- Prim2SF_is_nan. unfold key. rewrite add_spec.
  apply SFadd_key; auto using Prim2SF_valid.
Qed.

Lemma sub_key (x y : number) :
  is_finite x = true -> is_finite y = true ->
  PrimFloat.is_nan (x - y) = false /\ key (x - y) = RNZ (key x - key y).
Proof.
  intros Hx Hy. rewrite is_finite_SF in Hx, Hy.
  rewrite <- Prim2SF_is_nan. unfold key. rewrite sub_spec.
  apply SFsub_key; auto using Prim2SF_valid.
Qed.

(** The sign of a difference decides the order of its operands: for numbers
    [x] and [y] (infinite ones included) [y - x > 0] exactly when
    [x < y]. *)
Lemma sub_pos_iff_ltb (x y : number) :
  PrimFloat.is_nan x = false -> PrimFloat.is_nan y = false ->
  (0 <? y - x)%float = (x <? y)%float.
Proof.
  intros Hx Hy.
  destruct (is_finite x) eqn:Fx, (is_finite y) eqn:Fy.
  - destruct (sub_key y x Fy Fx) as [Hnan Hkey].
    rewrite !ltb_key by done. change (key 0) with 0%Z. rewrite Hkey.
    destruct (RNZ_sign (key y - key x)) as (Hp & Hn & Hz).
    destruct (Z.ltb_spec (key x) (key y)); apply Z.ltb_lt || apply Z.ltb_ge; lia.
  - rewrite !FloatAxioms.ltb_spec, sub_spec. rewrite is_finite_SF in Fx, Fy.
    rewrite <- Prim2SF_is_nan in Hy.
    destruct (Prim2SF x) as [sx|sx| |sx mx ex]; try discriminate;
      destruct (Prim2SF y) as [sy|[]| |sy my ey]; try discriminate;
      try reflexivity; by destruct sx.
  - rewrite !FloatAxioms.ltb_spec, sub_spec. rewrite is_finite_SF in Fx, Fy.
    rewrite <- Prim2SF_is_nan in Hx.
    destruct (Prim2SF y) as [sy|sy| |sy my ey]; try discriminate;
      destruct (Prim2SF x) as [sx|[]| |sx mx ex]; try discriminate;
      try reflexivity; by destruct sy.
  - rewrite !FloatAxioms.ltb_spec, sub_spec. rewrite is_finite_SF in Fx, Fy.
    rewrite <- Prim2SF_is_nan in Hx, Hy.
    destruct (Prim2SF y) as [sy|[]| |sy my ey]; try discriminate;
      destruct (Prim2SF x) as [sx|[]| |sx mx ex]; try discriminate; reflexivity.
Qed.

(** ** [nearestNeighbors] *)

Lemma fold_left_filter_snoc {A B} (P : B -> Prop) `{forall x, Decision (P x)}
    (f : B -> A) (l : list B) (acc : list A) :
  fold_left (fun acc c => if decide (P c) then acc ++ [f c] else acc) l acc
  = acc ++ map f (filter P l).
Proof.
  revert acc. induction l as [|x l IH]; intros acc; simpl.
  - by rewrite app_nil_r.
  - rewrite IH. rewrite filter_cons. destruct (decide (P x)); [|done].
    simpl. by rewrite <- app_assoc.
Qed.

Definition entry (vectors : list (list number)) (i c : nat) : neighbor :=
  {| j := c; s := cosine (row vectors i) (row vectors c) |}.

Lemma sims_of_map (vectors : list (list number)) (i : nat) :
  sims_of vectors i
  = map (entry vectors i) (filter (fun c => c ≠ i) (seq 0 (length vectors))).
Proof. unfold sims_of. by rewrite fold_left_filter_snoc. Qed.

Lemma nearestNeighbors_lookup (vectors : list (list number)) (k i : nat) :
  i < length vectors ->
  nearestNeighbors vectors k !! i
  = Some (take k (js_sort comparefn (sims_of vectors i))).
Proof.
  intros Hi. unfold nearestNeighbors. rewrite fold_left_snoc_map. simpl.
  rewrite list_lookup_fmap, lookup_seq_lt by done. reflexivity.
Qed.

Lemma length_filter_ne_seq_from (a n i : nat) :
  length (filter (fun c => c ≠ i) (seq a n))
  = if decide (a <= i < a + n) then n - 1 else n.
Proof.
  revert a. induction n as [|n IH]; intros a; simpl.
  - by destruct (decide _).
  - rewrite filter_cons. destruct (decide (a ≠ i)) as [Hne|Heq]; simpl; rewrite IH;
      repeat case_decide; lia.
Qed.

Lemma length_filter_ne_seq (n i : nat) :
  i < n -> length (filter (fun c => c ≠ i) (seq 0 n)) = n - 1.
Proof. intros Hi. rewrite length_filter_ne_seq_from. case_decide; lia. Qed.

(** The order the sort is to establish: higher similarity first and, at equal
    similarity, lower index first. *)
Definition precedes (a b : neighbor) : Prop :=
  (key (s b) < key (s a))%Z \/ (key (s a) = key (s b) /\ j a < j b).

Lemma precedes_trans (a b c : neighbor) : precedes a b -> precedes b c -> precedes a c.
Proof. unfold precedes. intros [?|[? ?]] [?|[? ?]]; [left|left|left|right]; lia. Qed.

Lemma sort_insert_perm {A} (cmp : A -> A -> number) (x : A) (l : list A) :
  sort_insert cmp x l ≡ₚ x :: l.
Proof.
  induction l as [|y l IH]; simpl; [done|].
  destruct (_ <? _)%float; [|done]. rewrite IH. apply Permutation_swap.
Qed.

Lemma js_sort_perm {A} (cmp : A -> A -> number) (l : list A) : js_sort cmp l ≡ₚ l.
Proof.
  induction l as [|x l IH]; simpl; [done|].
  unfold js_sort in *. simpl. by rewrite sort_insert_perm, IH.
Qed.

Definition comparable (a : neighbor) : Prop := PrimFloat.is_nan (s a) = false.

Lemma comparefn_pos (a b : neighbor) :
  comparable a -> comparable b ->
  (0 <? comparefn a b)%float = (key (s a) <? key (s b))%Z.
Proof.
  intros Ha Hb. unfold comparefn. rewrite sub_pos_iff_ltb by done.
  by apply ltb_key.
Qed.

(** Inserting an element that comes from further left than the elements of a
    sorted list keeps the list sorted. *)
Lemma sort_insert_sorted (x : neighbor) (l : list neighbor) :
  comparable x -> Forall comparable l ->
  Forall (fun y => j x < j y) l ->
  StronglySorted precedes l ->
  StronglySorted precedes (sort_insert comparefn x l).
Proof.
  intros Hx Hl Hj Hs. induction l as [|y l IH]; simpl.
  - repeat constructor.
  - inversion Hl as [|? ? Hy Hl']; subst. inversion Hj as [|? ? Hjy Hj']; subst.
    apply StronglySorted_cons in Hs as [Hyl Hs].
    rewrite comparefn_pos by done.
    destruct (Z.ltb_spec (key (s x)) (key (s y))) as [Hlt|Hge].
    + apply StronglySorted_cons. split; [|by apply IH].
      rewrite sort_insert_perm. constructor; [by left|exact Hyl].
    + assert (Hxy : precedes x y).
      { unfold precedes. destruct (Z.eq_dec (key (s x)) (key (s y))); [right|left]; lia. }
      apply StronglySorted_cons. split.
      * constructor; [exact Hxy|].
        eapply Forall_impl; [exact Hyl|]. intros z Hz. by eapply precedes_trans.
      * apply StronglySorted_cons. by split.
Qed.

Lemma js_sort_sorted (l : list neighbor) :
  Forall comparable l ->
  StronglySorted (fun a b => j a < j b) l ->
  StronglySorted precedes (js_sort comparefn l).
Proof.
  intros Hl Hs. induction l as [|x l IH]; [constructor|].
  inversion Hl as [|? ? Hx Hl']; subst.
  apply StronglySorted_cons in Hs as [Hxl Hs].
  change (js_sort comparefn (x :: l)) with (sort_insert comparefn x (js_sort comparefn l)).
  apply sort_insert_sorted; [done|..].
  - by rewrite js_sort_perm.
  - by rewrite js_sort_perm.
  - by apply IH.
Qed.

Lemma StronglySorted_take {A} (R : relation A) (l : list A) (k : nat) :
  StronglySorted R l -> StronglySorted R (take k l).
Proof.
  intros H. rewrite <- (take_drop k l) in H. by apply StronglySorted_app_1_l in H.
Qed.

Lemma StronglySorted_lookup_lt {A} (R : relation A) (l : list A) (p q : nat) (a b : A) :
  StronglySorted R l -> p < q -> l !! p = Some a -> l !! q = Some b -> R a b.
Proof.
  intros Hs Hpq Ha Hb.
  rewrite <- (take_drop q l) in Hs.
  eapply StronglySorted_app_1_elem_of; [exact Hs|..].
  - apply list_elem_of_lookup. exists p. by rewrite lookup_take_lt.
  - apply list_elem_of_lookup. exists 0. rewrite lookup_drop. by rewrite Nat.add_0_r.
Qed.

Lemma seq_filter_sorted (n i : nat) :
  StronglySorted lt (filter (fun c => c ≠ i) (seq 0 n)).
Proof.
  generalize 0 as a. induction n as [|n IH]; intros a; simpl; [constructor|].
  rewrite filter_cons. destruct (decide (a ≠ i)); [|apply IH].
  apply StronglySorted_cons. split; [|apply IH].
  apply Forall_forall. intros c Hc. apply list_elem_of_filter in Hc as [_ Hc].
  apply elem_of_seq in Hc. lia.
Qed.

(** No raw similarity is NaN. *)
Definition comparable_similarities (vectors : list (list number)) : Prop :=
  forall a b, a < length vectors -> b < length vectors ->
    PrimFloat.is_nan (cosine (row vectors a) (row vectors b)) = false.

(** Any stable sort agrees with [js_sort] on comparable entries listed by
    increasing index: the sorted arrangement is unique. *)
Lemma js_sort_unique (l l' : list neighbor) :
  Forall comparable l ->
  StronglySorted (fun a b => j a < j b) l ->
  l' ≡ₚ l -> StronglySorted precedes l' ->
  l' = js_sort comparefn l.
Proof.
  intros Hl Hs Hp Hs'.
  apply (StronglySorted_unique_strong precedes); [|done|by apply js_sort_sorted|].
  - intros a b _ _ [Hab|[Hab1 Hab2]] [Hba|[Hba1 Hba2]]; lia.
  - by rewrite js_sort_perm.
Qed.

(** C2, as the code behaves: when none of the raw similarities of point [i]
    with the other points is NaN, the list for point [i] holds no entry for
    [i] itself, has [min k (N - 1)] entries, each carrying the raw cosine of
    its index, is sorted by descending similarity, and among equal
    similarities lists lower indices first. *)
Theorem nearestNeighbors_sorted_without_self (vectors : list (list number)) (k i : nat) :
  1 <= k -> i < length vectors ->
  (forall c, c < length vectors -> c ≠ i ->
     PrimFloat.is_nan (cosine (row vectors i) (row vectors c)) = false) ->
  length (nearestNeighbors vectors k) = length vectors /\
  exists out, nearestNeighbors vectors k !! i = Some out /\
    length out = Nat.min k (length vectors - 1) /\
    Forall (fun e => j e ≠ i /\ j e < length vectors /\
                     s e = cosine (row vectors i) (row vectors (j e))) out /\
    (forall p q a b, p < q -> out !! p = Some a -> out !! q = Some b ->
       (s b <=? s a)%float = true /\
       ((s a =? s b)%float = true -> j a < j b)).
Proof.
  intros Hk Hi Hcmp. split.
  { unfold nearestNeighbors. rewrite fold_left_snoc_map. simpl.
    by rewrite length_map, length_seq. }
  rewrite nearestNeighbors_lookup by done. eexists. split; [reflexivity|].
  set (idx := filter (fun c => c ≠ i) (seq 0 (length vectors))).
  assert (Hsims : sims_of vectors i = map (entry vectors i) idx) by apply sims_of_map.
  assert (Hidx : Forall (fun c => c ≠ i /\ c < length vectors) idx).
  { apply Forall_forall. intros c Hc. apply list_elem_of_filter in Hc as [Hne Hc].
    apply elem_of_seq in Hc. split; [done|lia]. }
  assert (Hall : Forall (fun e => j e ≠ i /\ j e < length vectors /\
                     s e = cosine (row vectors i) (row vectors (j e)) /\ comparable e)
                   (sims_of vectors i)).
  { rewrite Hsims. apply Forall_fmap. eapply Forall_impl; [exact Hidx|].
    intros c [Hne Hc]. simpl. repeat split; try done. unfold comparable. simpl.
    by apply Hcmp. }
  assert (Hsorted : StronglySorted precedes (js_sort comparefn (sims_of vectors i))).
  { apply js_sort_sorted.
    - eapply Forall_impl; [exact Hall|]. by intros e (_ & _ & _ & He).
    - rewrite Hsims.
      apply (StronglySorted_fmap (entry vectors i) lt); [|apply seq_filter_sorted].
      intros a b Hab. exact Hab. }
  assert (Hall' : Forall (fun e => j e ≠ i /\ j e < length vectors /\
                     s e = cosine (row vectors i) (row vectors (j e)) /\ comparable e)
                   (take k (js_sort comparefn (sims_of vectors i)))).
  { apply Forall_take. by rewrite js_sort_perm. }
  split; [|split].
  - rewrite length_take, js_sort_perm, Hsims, length_map.
    unfold idx. by rewrite length_filter_ne_seq.
  - eapply Forall_impl; [exact Hall'|]. by intros e (? & ? & ? & _).
  - intros p q a b Hpq Ha Hb.
    assert (Hab : precedes a b).
    { eapply StronglySorted_lookup_lt; [|exact Hpq|exact Ha|exact Hb].
      by apply StronglySorted_take. }
    assert (Hca : comparable a).
    { eapply Forall_lookup_1 in Ha; [|exact Hall']. by destruct Ha as (_ & _ & _ & ?). }
    assert (Hcb : comparable b).
    { eapply Forall_lookup_1 in Hb; [|exact Hall']. by destruct Hb as (_ & _ & _ & ?). }
    rewrite leb_key, eqb_key by done. split.
    + apply Z.leb_le. destruct Hab as [?|[? ?]]; lia.
    + intros Heq. apply Z.eqb_eq in Heq. destruct Hab as [?|[? ?]]; lia.
Qed.

(** Point 1 of a list with a shorter vector: its own similarities are
    numbers, although the list holds a pair whose similarity is NaN. *)
Lemma nearestNeighbors_sorted_without_self_witness :
  length (nearestNeighbors [[1; 0]; [1]; [2; 0]]%float 2) = 3 /\
  exists out, nearestNeighbors [[1; 0]; [1]; [2; 0]]%float 2 !! 1 = Some out /\
    length out = 2 /\
    Forall (fun e => j e ≠ 1 /\ j e < 3 /\
                     s e = cosine [1]%float (row [[1; 0]; [1]; [2; 0]]%float (j e))) out /\
    (forall p q a b, p < q -> out !! p = Some a -> out !! q = Some b ->
       (s b <=? s a)%float = true /\
       ((s a =? s b)%float = true -> j a < j b)).
Proof.
  apply (nearestNeighbors_sorted_without_self [[1; 0]; [1]; [2; 0]]%float 2 1).
  - lia.
  - simpl; lia.
  - intros c Hc Hne. simpl in Hc.
    destruct c as [|[|[|c]]]; [reflexivity|done|reflexivity|lia].
Defined.

(** C2 fails on a list with a shorter vector, all of whose components a
    [Float32Array] holds: [dot] reads past the end of [[1]], so the
    similarity of point 0 with point 1 is NaN; the comparator is NaN on the
    pair, which [sort] takes as equal, and the list of point 0 starts with
    the NaN entry, ahead of the entry with similarity 2. *)
Lemma nearestNeighbors_unsorted_on_nan_similarity :
  nearestNeighbors [[1; 0]; [1]; [2; 0]]%float 2 !! 0
  = Some [ {| j := 1; s := nan |}; {| j := 2; s := 2%float |} ] /\
  PrimFloat.is_nan (comparefn {| j := 1; s := nan |} {| j := 2; s := 2%float |}) = true /\
  PrimFloat.is_nan (comparefn {| j := 2; s := 2%float |} {| j := 1; s := nan |}) = true /\
  (2 <=? nan)%float = false /\
  forallb (forallb is_float32) [[1; 0]; [1]; [2; 0]]%float = true.
Proof.
  split; [vm_compute; reflexivity|]. split; [reflexivity|]. split; [reflexivity|].
  split; reflexivity.
Qed.

(** *** Products and quotients bounded by a binary64 value *)

Lemma valid_canonical (sx : bool) (m : positive) (e : Z) :
  valid_binary (S754_finite sx m e) = true ->
  fexp prec emax (Zdigits2 (Zpos m) + e) = e /\ (e <= 971)%Z.
Proof.
  unfold SpecFloat.valid_binary, bounded, canonical_mantissa. intros H.
  apply andb_prop in H as [H1 H2]. apply Z.eqb_eq in H1. apply Z.leb_le in H2.
  split; [exact H1|exact H2].
Qed.

(** Rounding a value that lies strictly below the binary64 value
    [mR * 2 ^ eR] gives a finite result that is not above it. *)
Lemma round_upper (N e : Z) (l : location) (mR : positive) (eR : Z) :
  (0 <= N)%Z -> valid_binary (S754_finite false mR eR) = true ->
  (e <= eR)%Z -> (N < Zpos mR * 2 ^ (eR - e))%Z ->
  SFfinite (binary_round_aux prec emax false N e l) = true /\
  (0 <= SFkey (binary_round_aux prec emax false N e l)
   <= Zpos mR * 2 ^ (eR + 1074))%Z.
Proof.
  intros HN V He Hlt.
  destruct (valid_canonical _ _ _ V) as [Hcan HeR].
  destruct (valid_finite _ _ _ V) as (HeR' & HmR & _).
  destruct (binary_round_aux_gen false N e l HN) as (q & Hq & ->).
  set (n0 := rshift N e) in *. set (E := (e + n0)%Z) in *.
  set (dR := Zdigits2 (Zpos mR)) in *.
  assert (HdR : (0 <= dR <= 53)%Z).
  { split; [apply Zdigits2_nonneg|]. apply Zdigits2_le; lia. }
  assert (HmRd : (Zpos mR < 2 ^ dR)%Z) by (apply (Zdigits2_bounds (Zpos mR)); lia).
  (* the exponent after the first shift is not above [eR] *)
  assert (HdN : (Zdigits2 N + e <= dR + eR)%Z).
  { assert (Zdigits2 N <= dR + (eR - e))%Z; [|lia].
    apply Zdigits2_le; [done|lia|].
    rewrite Z.pow_add_r by lia. pose proof (pow2_pos (eR - e)). nia. }
  assert (Hn0 : (0 <= n0)%Z) by apply rshift_nonneg.
  assert (HE : (-1074 <= E <= eR)%Z).
  { pose proof (fexp_mono _ _ HdN). pose proof (fexp_ge_emin (Zdigits2 N + e)).
    subst E n0. unfold rshift. lia. }
  pose proof (pow2_pos n0 Hn0) as HP0.
  pose proof (pow2_pos (eR - E)) as HPB.
  set (B := (Zpos mR * 2 ^ (eR - E))%Z).
  assert (HB : (Zpos mR * 2 ^ (eR - e) = B * 2 ^ n0)%Z).
  { unfold B. rewrite <- Z.mul_assoc, <- Z.pow_add_r by lia. do 2 f_equal. lia. }
  assert (Hq1 : (N / 2 ^ n0 < B)%Z).
  { apply Z.div_lt_upper_bound; [lia|]. rewrite Z.mul_comm, <- HB. exact Hlt. }
  assert (Hq0 : (0 <= N / 2 ^ n0)%Z) by (apply Z.div_pos; lia).
  assert (HqB : (0 <= q <= B)%Z) by lia.
  (* the second shift *)
  set (n2 := rshift q E). assert (Hn2 : (0 <= n2)%Z) by apply rshift_nonneg.
  assert (Hdq : (Zdigits2 q + E <= dR + eR)%Z).
  { pose proof (Zdigits2_mono q B HqB).
    assert (Zdigits2 B <= dR + (eR - E))%Z; [|lia].
    apply Zdigits2_le; [lia|lia|].
    rewrite Z.pow_add_r by lia. unfold B. nia. }
  assert (HE2 : (E + n2 <= eR)%Z).
  { pose proof (fexp_mono _ _ Hdq). subst n2. unfold rshift. lia. }
  pose proof (pow2_pos n2 Hn2) as HP2.
  assert (HM0 : (0 <= q / 2 ^ n2)%Z) by (apply Z.div_pos; lia).
  assert (HMq : (q / 2 ^ n2 * 2 ^ n2 <= q)%Z).
  { pose proof (Z.div_mod q (2 ^ n2)). pose proof (Z.mod_pos_bound q (2 ^ n2)). nia. }
  unfold bra_result. change (emax - prec)%Z with 971%Z.
  pose proof (pow2_pos (eR + 1074)) as HPR.
  destruct (q / 2 ^ n2)%Z as [|M|M] eqn:EM; [| |lia].
  - split; [done|]. simpl. lia.
  - destruct (Z.leb_spec (E + n2) 971) as [_|]; [|lia].
    split; [done|]. simpl SFkey.
    replace (E + n2 + 1074)%Z with (n2 + (E + 1074))%Z by lia.
    rewrite Z.pow_add_r by lia.
    pose proof (pow2_pos (E + 1074)) as HPE.
    assert (HBk : (B * 2 ^ (E + 1074) = Zpos mR * 2 ^ (eR + 1074))%Z).
    { unfold B. rewrite <- Z.mul_assoc, <- Z.pow_add_r by lia. do 2 f_equal. lia. }
    rewrite <- HBk. split; [lia|].
    rewrite Z.mul_assoc. apply Z.mul_le_mono_nonneg_r; lia.
Qed.

Lemma key_one : key 1 = (2 ^ 1074)%Z.
Proof. reflexivity. Qed.

Lemma finite_of_key (x : number) :
  PrimFloat.is_nan x = false -> (- 2 ^ 2098 < key x < 2 ^ 2098)%Z -> is_finite x = true.
Proof.
  rewrite <- Prim2SF_is_nan, is_finite_SF. unfold key.
  destruct (Prim2SF x) as [sx|[]| |sx mx ex]; try done; simpl; lia.
Qed.

(** A non-negative finite value is a zero or has sign bit clear. *)
Lemma Prim2SF_nonneg (x : number) :
  is_finite x = true -> (0 <= key x)%Z ->
  (exists sx, Prim2SF x = S754_zero sx) \/
  (exists m e, Prim2SF x = S754_finite false m e /\
               valid_binary (S754_finite false m e) = true /\
               key x = (Zpos m * 2 ^ (e + 1074))%Z).
Proof.
  rewrite is_finite_SF. unfold key. pose proof (Prim2SF_valid x) as V.
  destruct (Prim2SF x) as [sx|sx| |sx mx ex]; try discriminate; intros _ Hk.
  - left. by exists sx.
  - right. pose proof (finite_key_bounds _ _ _ V).
    destruct sx; simpl in Hk; [lia|]. by exists mx, ex.
Qed.

(** [t * W] for [0 <= t < 1] and [W > 0] lies between [0] and [W]. *)
Lemma mul_below_one (t W : number) :
  is_finite t = true -> is_finite W = true ->
  (0 <= key t < key 1)%Z -> (0 < key W)%Z ->
  is_finite (t * W) = true /\ (0 <= key (t * W) <= key W)%Z.
Proof.
  intros Ft FW [Ht0 Ht1] HW. rewrite key_one in Ht1.
  rewrite is_finite_SF. unfold key at 1 2. rewrite mul_spec.
  destruct (Prim2SF_nonneg W FW) as [[sw EW]|(mw & ew & EW & VW & KW)]; [lia| |].
  { assert (key W = 0%Z) by (unfold key; by rewrite EW). lia. }
  destruct (Prim2SF_nonneg t Ft Ht0) as [[st Et]|(mt & et & Et & Vt & Kt)].
  - rewrite Et, EW. simpl. lia.
  - rewrite Et, EW. cbn [SF64mul SFmul xorb]. rewrite KW.
    rewrite Kt in Ht1.
    destruct (valid_finite _ _ _ Vt) as (Het & _).
    pose proof (pow2_pos (et + 1074)) as HP.
    assert (Het0 : (et < 0)%Z).
    { destruct (Z.le_gt_cases 0 et) as [H0|]; [|done]. exfalso.
      assert (2 ^ 1074 <= 2 ^ (et + 1074))%Z by (apply Z.pow_le_mono_r; lia). nia. }
    assert (Hmt : (Zpos mt < 2 ^ (- et))%Z).
    { replace (2 ^ 1074)%Z with (2 ^ (- et) * 2 ^ (et + 1074))%Z in Ht1.
      2:{ rewrite <- Z.pow_add_r by lia. f_equal. lia. }
      nia. }
    apply round_upper; [lia|exact VW|lia|].
    replace (ew - (et + ew))%Z with (- et)%Z by lia.
    rewrite Pos2Z.inj_mul. pose proof (pow2_pos (- et)). nia.
Qed.

Lemma Z_div_eucl_div_mod (a b : Z) : Z.div_eucl a b = ((a / b)%Z, (a mod b)%Z).
Proof. unfold Z.div, Z.modulo. by destruct (Z.div_eucl a b). Qed.

(** The exact quotient and exponent [SFdiv] hands to the rounding. *)
Lemma SFdiv_core_spec (m1 m2 : positive) (e1 e2 : Z) :
  let e' := Z.min (fexp prec emax (Zdigits2 (Zpos m1) + e1 - (Zdigits2 (Zpos m2) + e2)))
                  (e1 - e2) in
  let s := (e1 - e2 - e')%Z in
  SFdiv_core_binary prec emax (Zpos m1) e1 (Zpos m2) e2
  = ((Zpos m1 * 2 ^ s / Zpos m2)%Z, e',
     new_location (Zpos m2) ((Zpos m1 * 2 ^ s) mod Zpos m2)).
Proof.
  intros e' s. unfold SFdiv_core_binary. fold e'. fold s.
  assert (Hs : (0 <= s)%Z) by (subst s e'; lia).
  assert (Hm' : match s with
                | Zpos _ => Z.shiftl (Zpos m1) s
                | Z0 => Zpos m1
                | Zneg _ => 0%Z
                end = (Zpos m1 * 2 ^ s)%Z).
  { destruct s as [|p|p]; [simpl; lia| |lia]. by rewrite Z.shiftl_mul_pow2. }
  rewrite Hm', Z_div_eucl_div_mod. reflexivity.
Qed.

(** [d / sp] for [0 < d < sp] lies between [0] and [1]. *)
Lemma div_below_one (d sp : number) :
  is_finite d = true -> is_finite sp = true ->
  (0 < key d < key sp)%Z ->
  is_finite (d / sp) = true /\ (0 <= key (d / sp) <= key 1)%Z.
Proof.
  intros Fd Fs [Hd Hlt]. rewrite key_one.
  rewrite is_finite_SF. unfold key at 1 2. rewrite div_spec.
  destruct (Prim2SF_nonneg d Fd) as [[sd Ed]|(md & ed & Ed & Vd & Kd)]; [lia| |].
  { assert (key d = 0%Z) by (unfold key; by rewrite Ed). lia. }
  destruct (Prim2SF_nonneg sp Fs) as [[ss Es]|(ms & es & Es & Vs & Ks)]; [lia| |].
  { assert (key sp = 0%Z) by (unfold key; by rewrite Es). lia. }
  rewrite Ed, Es. cbn [SF64div SFdiv xorb]. rewrite SFdiv_core_spec.
  rewrite Kd, Ks in Hlt.
  destruct (valid_finite _ _ _ Vd) as (Hed & _).
  destruct (valid_finite _ _ _ Vs) as (Hes & _).
  destruct (Zdigits2_bounds (Zpos md)) as (Hd1 & Hlo1 & Hhi1); [lia|].
  destruct (Zdigits2_bounds (Zpos ms)) as (Hd2 & Hlo2 & Hhi2); [lia|].
  set (d1 := Zdigits2 (Zpos md)) in *. set (d2 := Zdigits2 (Zpos ms)) in *.
  pose proof (pow2_pos (ed + 1074)) as HP1. pose proof (pow2_pos (es + 1074)) as HP2.
  (* magnitudes: d1 + ed <= d2 + es *)
  assert (Hmag : (d1 + ed <= d2 + es)%Z).
  { destruct (Z.le_gt_cases (d1 + ed) (d2 + es)) as [|Hgt]; [done|exfalso].
    assert (2 ^ (d2 + (es + 1074)) <= 2 ^ ((d1 - 1) + (ed + 1074)))%Z
      by (apply Z.pow_le_mono_r; lia).
    rewrite (Z.pow_add_r 2 d2), (Z.pow_add_r 2 (d1 - 1)) in H by lia.
    pose proof (pow2_pos (d1 - 1)). pose proof (pow2_pos d2). nia. }
  set (e' := Z.min (fexp prec emax (d1 + ed - (d2 + es))) (ed - es)).
  assert (He' : (e' <= -53)%Z).
  { subst e'. rewrite fexp_eq. lia. }
  set (s := (ed - es - e')%Z).
  assert (Hs : (0 <= s)%Z) by (subst s e'; lia).
  pose proof (pow2_pos s Hs) as HPs. pose proof (pow2_pos (- e')) as HPe.
  change 4503599627370496%positive with (Z.to_pos (2 ^ 52)).
  assert (V1 : valid_binary (S754_finite false (Z.to_pos (2 ^ 52)) (-52)) = true)
    by reflexivity.
  destruct (round_upper (Zpos md * 2 ^ s / Zpos ms) e'
              (new_location (Zpos ms) ((Zpos md * 2 ^ s) mod Zpos ms))
              (Z.to_pos (2 ^ 52)) (-52)) as [HF HK]; [|exact V1|lia| |].
  - apply Z.div_pos; lia.
  - apply Z.div_lt_upper_bound; [lia|].
    change (Zpos (Z.to_pos (2 ^ 52))) with (2 ^ 52)%Z.
    rewrite <- Z.pow_add_r by lia. replace (52 + (-52 - e'))%Z with (- e')%Z by lia.
    (* md * 2 ^ s < ms * 2 ^ (- e') *)
    apply (Z.mul_lt_mono_pos_r (2 ^ (es + 1074))); [lia|].
    rewrite <- !Z.mul_assoc, <- !Z.pow_add_r by lia.
    replace (s + (es + 1074))%Z with ((ed + 1074) + - e')%Z by (subst s; lia).
    replace (- e' + (es + 1074))%Z with ((es + 1074) + - e')%Z by lia.
    rewrite (Z.pow_add_r 2 (ed + 1074) (- e')), (Z.pow_add_r 2 (es + 1074) (- e')) by lia.
    rewrite !Z.mul_assoc. apply Z.mul_lt_mono_pos_r; [lia|exact Hlt].
  - split; [exact HF|]. exact HK.
Qed.

Lemma Prim2SF_one : Prim2SF 1 = S754_finite false 4503599627370496 (-52).
Proof. reflexivity. Qed.

(** A finite non-zero value divided by itself is exactly 1. *)
Lemma div_self (x : number) :
  is_finite x = true -> PrimFloat.is_zero x = false -> (x / x)%float = 1%float.
Proof.
  intros Fx Zx. apply Prim2SF_inj. rewrite div_spec, Prim2SF_one.
  rewrite is_finite_SF in Fx. rewrite is_zero_SF in Zx.
  destruct (Prim2SF x) as [sx|sx| |sx m e]; try discriminate.
  cbn [SF64div SFdiv]. rewrite SFdiv_core_spec.
  replace (Zdigits2 (Zpos m) + e - (Zdigits2 (Zpos m) + e))%Z with 0%Z by lia.
  replace (e - e)%Z with 0%Z by lia.
  change (Z.min (fexp prec emax 0) 0) with (-53)%Z.
  change (0 - -53)%Z with 53%Z.
  rewrite (Z.mul_comm (Zpos m)), Z.div_mul, Z.mod_mul by lia.
  rewrite xorb_nilpotent.
  assert (Hloc : new_location (Zpos m) 0 = loc_Exact).
  { unfold new_location, new_location_even, new_location_odd.
    by destruct (Z.even (Zpos m)). }
  rewrite Hloc. reflexivity.
Qed.

(** Multiplying a finite value by 1 returns it. *)
Lemma one_mul (W : number) : is_finite W = true -> (1 * W)%float = W.
Proof.
  intros FW. apply Prim2SF_inj. rewrite mul_spec, Prim2SF_one.
  rewrite is_finite_SF in FW. pose proof (Prim2SF_valid W) as V.
  destruct (Prim2SF W) as [sw|sw| |sw mw ew]; try discriminate; [reflexivity|].
  cbn [SF64mul SFmul xorb].
  destruct (valid_canonical _ _ _ V) as [Hcan HeW].
  destruct (valid_finite _ _ _ V) as (Hew & Hmw & _).
  destruct (binary_round_aux_exact sw (Zpos (4503599627370496 * mw)) (-52 + ew))
    as [_ ->]; [lia|].
  assert (HN : Zpos (4503599627370496 * mw) = (Zpos mw * 2 ^ 52)%Z).
  { rewrite Pos2Z.inj_mul. change (Zpos 4503599627370496) with (2 ^ 52)%Z. lia. }
  rewrite HN.
  assert (HdN : Zdigits2 (Zpos mw * 2 ^ 52) = (Zdigits2 (Zpos mw) + 52)%Z)
    by (apply Zdigits2_mul_pow2; lia).
  assert (Hn : rshift (Zpos mw * 2 ^ 52) (-52 + ew) = 52%Z).
  { unfold rshift. rewrite HdN.
    replace (Zdigits2 (Zpos mw) + 52 + (-52 + ew))%Z with (Zdigits2 (Zpos mw) + ew)%Z by lia.
    rewrite Hcan. lia. }
  rewrite Hn, rne_shift_exact by lia.
  replace (-52 + ew + 52)%Z with ew by lia.
  assert (Hn2 : rshift (Zpos mw) ew = 0%Z).
  { unfold rshift. rewrite Hcan. lia. }
  rewrite Hn2. change (2 ^ 0)%Z with 1%Z. rewrite Z.div_1_r, Z.add_0_r.
  unfold bra_result. change (emax - prec)%Z with 971%Z.
  destruct (Z.leb_spec ew 971); [reflexivity|lia].
Qed.

Lemma key_zero_SF (x : number) :
  is_finite x = true -> key x = 0%Z -> SFzero (Prim2SF x) = true.
Proof.
  rewrite is_finite_SF. unfold key. pose proof (Prim2SF_valid x) as V.
  destruct (Prim2SF x) as [sx|sx| |sx m e]; try discriminate; [done|].
  intros _ Hk. pose proof (finite_key_bounds _ _ _ V). simpl in Hk.
  destruct sx; simpl in Hk; lia.
Qed.

Lemma SFzero_key (x : number) : SFzero (Prim2SF x) = true -> key x = 0%Z.
Proof. unfold key. by destruct (Prim2SF x). Qed.

Lemma SFzero_finite (x : number) : SFzero (Prim2SF x) = true -> is_finite x = true.
Proof. rewrite is_finite_SF. by destruct (Prim2SF x). Qed.

(** A zero divided by a non-zero number is a zero. *)
Lemma zero_div (z sp : number) :
  SFzero (Prim2SF z) = true ->
  PrimFloat.is_nan sp = false -> PrimFloat.is_zero sp = false ->
  SFzero (Prim2SF (z / sp)) = true.
Proof.
  intros Hz Hn Hs. rewrite <- Prim2SF_is_nan in Hn. rewrite is_zero_SF in Hs.
  rewrite div_spec.
  destruct (Prim2SF z) as [sz| | |]; try discriminate.
  by destruct (Prim2SF sp) as [ss|ss| |ss ms es].
Qed.

(** A zero times a finite number, or a finite number times a zero, is a
    zero. *)
Lemma zero_mul (t W : number) :
  is_finite t = true -> is_finite W = true ->
  SFzero (Prim2SF t) = true \/ SFzero (Prim2SF W) = true ->
  SFzero (Prim2SF (t * W)) = true.
Proof.
  rewrite !is_finite_SF. intros Ft FW Hz. rewrite mul_spec.
  destruct (Prim2SF t) as [st|st| |st mt et]; try discriminate;
    destruct (Prim2SF W) as [sw|sw| |sw mw ew]; try discriminate; try reflexivity.
  by destruct Hz.
Qed.

(** *** The affine map of [normalize2D] on one axis *)

Lemma RNZ_key (x : number) : is_finite x = true -> RNZ (key x) = key x.
Proof.
  intros Fx. unfold key. apply RNZ_fixed; [apply Prim2SF_valid|].
  by rewrite <- is_finite_SF.
Qed.

Lemma js_or_span (span0 : number) :
  PrimFloat.is_nan span0 = false ->
  js_or span0 1 = if PrimFloat.is_zero span0 then 1%float else span0.
Proof.
  intros Hn. unfold js_or, truthy. rewrite Hn, orb_false_r.
  by destruct (PrimFloat.is_zero span0).
Qed.

Section AxisScale.

(** [mn] and [mx] bound the raw value [x]; all are finite and the span does
    not overflow. *)
Variables mn mx x : number.
Hypothesis Fmn : is_finite mn = true.
Hypothesis Fmx : is_finite mx = true.
Hypothesis Fx : is_finite x = true.
Hypothesis Hlo : (key mn <= key x)%Z.
Hypothesis Hhi : (key x <= key mx)%Z.
Hypothesis Fspan : is_finite (mx - mn) = true.

Lemma span_nonneg : (0 <= key (mx - mn))%Z.
Proof.
  destruct (sub_key mx mn Fmx Fmn) as [_ ->].
  change 0%Z with (RNZ 0). apply RNZ_mono. lia.
Qed.

Lemma span_truthy :
  PrimFloat.is_nan (js_or (mx - mn) 1) = false /\
  PrimFloat.is_zero (js_or (mx - mn) 1) = false.
Proof.
  rewrite js_or_span by (by apply is_finite_not_nan).
  destruct (PrimFloat.is_zero (mx - mn)) eqn:E; [by split|].
  split; [by apply is_finite_not_nan|exact E].
Qed.

(** The position of [x] within the span, a number of [[0, 1]]. *)
Lemma unit_position :
  let t := ((x - mn) / js_or (mx - mn) 1)%float in
  is_finite t = true /\ (0 <= key t <= key 1)%Z /\
  (key x = key mn -> SFzero (Prim2SF t) = true) /\
  (key x = key mx -> PrimFloat.is_zero (mx - mn) = false -> t = 1%float).
Proof.
  intros t. subst t.
  destruct (sub_key x mn Fx Fmn) as [Hdn Hdk].
  destruct (sub_key mx mn Fmx Fmn) as [Hsn Hsk].
  pose proof span_nonneg as Hs0.
  pose proof (key_finite_bounds _ Fspan) as Hsb.
  assert (Hd0 : (0 <= key (x - mn))%Z).
  { rewrite Hdk. change 0%Z with (RNZ 0). apply RNZ_mono. lia. }
  assert (Hds : (key (x - mn) <= key (mx - mn))%Z).
  { rewrite Hdk, Hsk. apply RNZ_mono. lia. }
  assert (Fd : is_finite (x - mn) = true) by (apply finite_of_key; [done|lia]).
  assert (Hzero : key (x - mn) = 0%Z ->
            SFzero (Prim2SF ((x - mn) / js_or (mx - mn) 1)) = true).
  { intros Hk. destruct span_truthy as [Hn Hz].
    apply zero_div; [by apply key_zero_SF|done|done]. }
  assert (Hfromzero : forall t : number, SFzero (Prim2SF t) = true ->
            is_finite t = true /\ (0 <= key t <= key 1)%Z).
  { intros t Ht. split; [by apply SFzero_finite|].
    rewrite (SFzero_key t Ht), key_one. split; [lia|]. apply Z.pow_nonneg. lia. }
  assert (Hmin : key x = key mn -> SFzero (Prim2SF ((x - mn) / js_or (mx - mn) 1)) = true).
  { intros Hk. apply Hzero. rewrite Hdk, Hk, Z.sub_diag. reflexivity. }
  rewrite js_or_span in * by done.
  destruct (PrimFloat.is_zero (mx - mn)) eqn:Ez.
  - (* zero span: the divisor is 1 and the numerator is a zero *)
    assert (Hk0 : key (x - mn) = 0%Z).
    { rewrite is_zero_SF in Ez. apply SFzero_key in Ez. lia. }
    destruct (Hfromzero _ (Hzero Hk0)) as [H1 H2].
    split; [exact H1|]. split; [exact H2|]. split; [exact Hmin|]. intros _ Hcontra.
    discriminate Hcontra.
  - assert (Hspos : (0 < key (mx - mn))%Z).
    { destruct (Z.eq_dec (key (mx - mn)) 0%Z) as [Hk|]; [|lia].
      apply key_zero_SF in Hk; [|done]. rewrite <- is_zero_SF in Hk. congruence. }
    assert (Hsame : key (x - mn) = key (mx - mn) ->
              ((x - mn) / (mx - mn))%float = 1%float).
    { intros Hk. destruct (key_eq_finite _ _ Fd Fspan Hk) as [->|[_ Hz]].
      - by apply div_self.
      - rewrite <- is_zero_SF in Hz. congruence. }
    assert (Hmax : key x = key mx -> false = false ->
              ((x - mn) / (mx - mn))%float = 1%float).
    { intros Hk _. apply Hsame. by rewrite Hdk, Hsk, Hk. }
    destruct (Z.eq_dec (key (x - mn)) 0%Z) as [Hk0|Hk0].
    + destruct (Hfromzero _ (Hzero Hk0)) as [H1 H2].
      split; [exact H1|]. split; [exact H2|]. split; [exact Hmin|exact Hmax].
    + destruct (Z.eq_dec (key (x - mn)) (key (mx - mn))) as [Hk1|Hk1].
      * split; [by rewrite (Hsame Hk1)|]. split; [rewrite (Hsame Hk1), key_one; lia|].
        split; [exact Hmin|exact Hmax].
      * destruct (div_below_one (x - mn) (mx - mn) Fd Fspan) as [H1 H2]; [lia|].
        split; [exact H1|]. split; [exact H2|]. split; [exact Hmin|exact Hmax].
Qed.

End AxisScale.

(** Scaling a position of [[0, 1]] by a non-negative extent stays within the
    extent. *)
Lemma scale_position (t W : number) :
  is_finite t = true -> (0 <= key t <= key 1)%Z ->
  is_finite W = true -> (0 <= key W)%Z ->
  is_finite (t * W) = true /\ (0 <= key (t * W) <= key W)%Z.
Proof.
  intros Ft [Ht0 Ht1] FW HW.
  assert (Hfromzero : SFzero (Prim2SF (t * W)) = true ->
            is_finite (t * W) = true /\ (0 <= key (t * W) <= key W)%Z).
  { intros Hz. split; [by apply SFzero_finite|]. rewrite (SFzero_key _ Hz). lia. }
  destruct (Z.eq_dec (key W) 0%Z) as [HW0|HW0].
  { apply Hfromzero, zero_mul; [done|done|right]. by apply key_zero_SF. }
  destruct (Z.eq_dec (key t) 0%Z) as [Ht0'|Ht0'].
  { apply Hfromzero, zero_mul; [done|done|left]. by apply key_zero_SF. }
  destruct (Z.eq_dec (key t) (key 1)) as [Ht1'|Ht1'].
  - destruct (key_eq_finite t 1 Ft eq_refl Ht1') as [->|[_ Hz]]; [|discriminate Hz].
    rewrite one_mul by done. split; [done|lia].
  - apply mul_below_one; try done; lia.
Qed.

(** Adding a non-negative offset below [W] to [pad] lands between [pad] and
    [pad + W]. *)
Lemma offset_range (pad u W : number) :
  is_finite pad = true -> is_finite u = true -> is_finite W = true ->
  (0 <= key u <= key W)%Z ->
  (pad <=? pad + u)%float = true /\ (pad + u <=? pad + W)%float = true.
Proof.
  intros Fp Fu FW [Hu0 HuW].
  destruct (add_key pad u Fp Fu) as [Hn1 Hk1].
  destruct (add_key pad W Fp FW) as [Hn2 Hk2].
  rewrite !leb_key by (try done; by apply is_finite_not_nan).
  rewrite Hk1, Hk2. split; apply Z.leb_le.
  - rewrite <- (RNZ_key pad Fp) at 1. apply RNZ_mono. lia.
  - apply RNZ_mono. lia.
Qed.

(** *** Range of [normalize2D] *)

Definition axis_extent (k : nat) (width height pad : number) : number :=
  (dimension k width height - pad * 2)%float.

Definition axis_lowest (k : nat) (coords : list (list number)) (p : list number) : Prop :=
  forall p', p' ∈ coords -> (elem p k <=? elem p' k)%float = true.

Definition axis_highest (k : nat) (coords : list (list number)) (p : list number) : Prop :=
  forall p', p' ∈ coords -> (elem p' k <=? elem p k)%float = true.

(** C4: for a non-empty set of finite points whose span on axis [k] does not
    overflow, a finite [pad] and a finite extent [dimension - pad * 2]:
    a point with the minimum raw value on the axis is mapped to [pad]; when
    the span is not zero, a point with the maximum raw value is mapped to
    exactly [pad + (dimension - pad * 2)]; and when the extent is not
    negative every output coordinate lies between [pad] and
    [pad + (dimension - pad * 2)]. *)
Theorem normalize2D_axis_range (coords : list (list number))
    (width height pad : number) (k i : nat) (p : list number) :
  k < 2 ->
  finite_axis k coords ->
  is_finite (axis_max k coords - axis_min k coords) = true ->
  is_finite pad = true ->
  is_finite (axis_extent k width height pad) = true ->
  coords !! i = Some p ->
  exists q, normalize2D coords width height pad !! i = Some q /\
    (axis_lowest k coords p -> (elem q k =? pad)%float = true) /\
    (axis_highest k coords p ->
     PrimFloat.is_zero (axis_max k coords - axis_min k coords) = false ->
     elem q k = (pad + axis_extent k width height pad)%float) /\
    ((0 <=? axis_extent k width height pad)%float = true ->
     (pad <=? elem q k)%float = true /\
     (elem q k <=? pad + axis_extent k width height pad)%float = true).
Proof.
  intros Hk Hfin Fspan Fpad FW Hp.
  assert (Hne : coords <> []) by (intros ->; discriminate Hp).
  assert (Hin : p ∈ coords) by (by eapply list_elem_of_lookup_2).
  destruct (axis_min_spec k coords Hne Hfin) as [(p1 & Hp1 & Hmin) Hlo].
  destruct (axis_max_spec k coords Hne Hfin) as [(p2 & Hp2 & Hmax) Hhi].
  pose proof (proj1 (Forall_forall _ _) Hfin) as Hfin'.
  pose proof (proj1 (Forall_forall _ _) Hlo) as Hlo'.
  pose proof (proj1 (Forall_forall _ _) Hhi) as Hhi'.
  assert (Fmn : is_finite (axis_min k coords) = true) by (rewrite Hmin; auto).
  assert (Fmx : is_finite (axis_max k coords) = true) by (rewrite Hmax; auto).
  assert (Fx : is_finite (elem p k) = true) by auto.
  destruct (normalize2D_axis coords width height pad i k p Hp Hk) as (q & Hq & He).
  exists q. split; [exact Hq|]. rewrite He. clear He.
  unfold axis_scale, axis_span. fold (axis_extent k width height pad).
  set (W := axis_extent k width height pad) in *.
  destruct (unit_position (axis_min k coords) (axis_max k coords) (elem p k)
              Fmn Fmx Fx (Hlo' p Hin) (Hhi' p Hin) Fspan) as (Ft & Ht & Hzero & Hone).
  set (t := ((elem p k - axis_min k coords)
             / js_or (axis_max k coords - axis_min k coords) 1)%float) in *.
  split; [|split].
  - (* a lowest point *)
    intros Hlow.
    assert (Hkey : key (elem p k) = key (axis_min k coords)).
    { apply Z.le_antisymm; [|by apply Hlo'].
      rewrite Hmin. apply Z.leb_le.
      rewrite <- leb_key by (apply is_finite_not_nan; auto). by apply Hlow. }
    pose proof (zero_mul t W Ft FW (or_introl (Hzero Hkey))) as Hu.
    destruct (add_key pad (t * W) Fpad (SFzero_finite _ Hu)) as [Hn Hadd].
    rewrite eqb_key by (try done; by apply is_finite_not_nan).
    rewrite Hadd, (SFzero_key _ Hu), Z.add_0_r, (RNZ_key pad Fpad).
    apply Z.eqb_refl.
  - (* a highest point *)
    intros Hhigh Hnz.
    assert (Hkey : key (elem p k) = key (axis_max k coords)).
    { apply Z.le_antisymm; [by apply Hhi'|].
      rewrite Hmax. apply Z.leb_le.
      rewrite <- leb_key by (apply is_finite_not_nan; auto). by apply Hhigh. }
    by rewrite (Hone Hkey Hnz), (one_mul W FW).
  - (* every point *)
    intros HW.
    rewrite leb_key in HW by (try done; by apply is_finite_not_nan).
    apply Z.leb_le in HW. change (key 0) with 0%Z in HW.
    destruct (scale_position t W Ft Ht FW HW) as [Fu Hu].
    by apply offset_range.
Qed.

Lemma normalize2D_axis_range_witness :
  exists q, normalize2D [[0; 0]; [10; 10]]%float 100 100 10 !! 1 = Some q /\
    (axis_lowest 0 [[0; 0]; [10; 10]]%float [10; 10]%float ->
     (elem q 0 =? 10)%float = true) /\
    (axis_highest 0 [[0; 0]; [10; 10]]%float [10; 10]%float ->
     PrimFloat.is_zero (axis_max 0 [[0; 0]; [10; 10]]%float
                        - axis_min 0 [[0; 0]; [10; 10]]%float) = false ->
     elem q 0 = (10 + axis_extent 0 100 100 10)%float) /\
    ((0 <=? axis_extent 0 100 100 10)%float = true ->
     (10 <=? elem q 0)%float = true /\
     (elem q 0 <=? 10 + axis_extent 0 100 100 10)%float = true).
Proof.
  apply (normalize2D_axis_range [[0; 0]; [10; 10]]%float 100 100 10 0 1 [10; 10]%float).
  - lia.
  - repeat constructor.
  - reflexivity.
  - reflexivity.
  - reflexivity.
  - reflexivity.
Defined.

(** C4 fails as stated: a single point is both the minimum and the maximum and
    is mapped to [pad], not to [dimension - pad]; a padding larger than half
    the dimension puts the outputs outside [[pad, dimension - pad]]; and with
    width [1.1] and padding [0.1] the maximum is mapped to
    [0.1 + (1.1 - 0.2)], which is above [1.1 - 0.1]. *)
Lemma normalize2D_range_fails :
  (normalize2D [[5; 5]]%float 100 100 10 = [[10; 10]]%float /\
   (10 =? 100 - 10)%float = false) /\
  (normalize2D [[0; 0]; [10; 10]]%float 100 100 60 = [[60; 60]; [40; 40]]%float /\
   (60 <=? 100 - 60)%float = false) /\
  (exists q, normalize2D [[0; 0]; [1; 1]]%float 0x1.199999999999ap+0 0x1.199999999999ap+0
               0x1.999999999999ap-4 !! 1 = Some q /\
             (elem q 0 <=? 0x1.199999999999ap+0 - 0x1.999999999999ap-4)%float = false).
Proof.
  split; [split; reflexivity|]. split; [split; reflexivity|].
  eexists. split; reflexivity.
Qed.

(** ** The diagonal of the similarity matrix *)

Lemma leb_not_nan (x y : number) :
  (x <=? y)%float = true ->
  PrimFloat.is_nan x = false /\ PrimFloat.is_nan y = false.
Proof.
  rewrite FloatAxioms.leb_spec, <- !Prim2SF_is_nan. unfold SFleb, SFcompare.
  destruct (Prim2SF x) as [sx|sx| |sx mx ex], (Prim2SF y) as [sy|sy| |sy my ey];
    try discriminate; by intros _.
Qed.

(** A comparison [lo <= x <= hi] between finite bounds, on keys. *)
Lemma between_key (lo x hi : number) :
  is_finite lo = true -> is_finite hi = true ->
  (lo <=? x)%float = true -> (x <=? hi)%float = true ->
  is_finite x = true /\ (key lo <= key x <= key hi)%Z.
Proof.
  intros Flo Fhi H1 H2.
  destruct (leb_not_nan _ _ H1) as [Nlo Nx]. destruct (leb_not_nan _ _ H2) as [_ Nhi].
  rewrite leb_key in H1, H2 by done. apply Z.leb_le in H1, H2.
  split; [|lia]. apply finite_of_key; [done|].
  pose proof (key_finite_bounds _ Flo). pose proof (key_finite_bounds _ Fhi). lia.
Qed.

(** Zeros and positive values, the infinite one included. *)
Definition SFnonneg (x : spec_float) : bool :=
  match x with
  | S754_zero _ | S754_infinity false | S754_finite false _ _ => true
  | _ => false
  end.

Lemma bra_nonneg (N e : Z) (l : location) :
  (0 <= N)%Z -> SFnonneg (binary_round_aux prec emax false N e l) = true.
Proof.
  intros HN. destruct (binary_round_aux_gen false N e l HN) as (q & Hq & ->).
  assert (0 <= N / 2 ^ rshift N e)%Z.
  { apply Z.div_pos; [done|]. apply pow2_pos, rshift_nonneg. }
  assert (Hq' : (0 <= q / 2 ^ rshift q (e + rshift N e))%Z).
  { apply Z.div_pos; [lia|]. apply pow2_pos, rshift_nonneg. }
  unfold bra_result. destruct (q / 2 ^ rshift q (e + rshift N e))%Z; [done| |lia].
  by destruct (_ <=? _)%Z.
Qed.

Lemma bra_opp (sx : bool) (N e : Z) (l : location) :
  binary_round_aux prec emax (negb sx) N e l
  = SFopp (binary_round_aux prec emax sx N e l).
Proof.
  unfold binary_round_aux.
  destruct (shr_fexp prec emax N e l) as [mrs' e'].
  destruct (shr_fexp prec emax _ e' loc_Exact) as [mrs'' e''].
  destruct (shr_m mrs''); [done| |done]. by destruct (_ <=? _)%Z.
Qed.

(** A quotient of positive values that lies strictly below the binary64
    value [mR * 2 ^ eR] is rounded to a finite value that is not above
    it. *)
Lemma div_upper (d sp : number) (mR : positive) (eR : Z) :
  is_finite d = true -> is_finite sp = true ->
  valid_binary (S754_finite false mR eR) = true ->
  (0 < key d)%Z -> (0 < key sp)%Z ->
  (key d * 2 ^ 1074 < Zpos mR * 2 ^ (eR + 1074) * key sp)%Z ->
  is_finite (d / sp) = true /\
  (0 <= key (d / sp) <= Zpos mR * 2 ^ (eR + 1074))%Z.
Proof.
  intros Fd Fs VR Hd Hs Hlt.
  rewrite is_finite_SF. unfold key at 1 2. rewrite div_spec.
  destruct (Prim2SF_nonneg d Fd) as [[sd Ed]|(md & ed & Ed & Vd & Kd)]; [lia| |].
  { assert (key d = 0%Z) by (unfold key; by rewrite Ed). lia. }
  destruct (Prim2SF_nonneg sp Fs) as [[ss Es]|(ms & es & Es & Vs & Ks)]; [lia| |].
  { assert (key sp = 0%Z) by (unfold key; by rewrite Es). lia. }
  rewrite Ed, Es. cbn [SF64div SFdiv xorb]. rewrite SFdiv_core_spec.
  rewrite Kd, Ks in Hlt.
  destruct (valid_finite _ _ _ Vd) as (Hed & _).
  destruct (valid_finite _ _ _ Vs) as (Hes & _).
  destruct (valid_finite _ _ _ VR) as (HeR & _).
  destruct (valid_canonical _ _ _ VR) as [HcanR _].
  destruct (Zdigits2_bounds (Zpos md)) as (Hd1 & Hlo1 & Hhi1); [lia|].
  destruct (Zdigits2_bounds (Zpos ms)) as (Hd2 & Hlo2 & Hhi2); [lia|].
  destruct (Zdigits2_bounds (Zpos mR)) as (HdR & HloR & HhiR); [lia|].
  set (d1 := Zdigits2 (Zpos md)) in *. set (d2 := Zdigits2 (Zpos ms)) in *.
  set (dR := Zdigits2 (Zpos mR)) in *.
  pose proof (pow2_pos (ed + 1074)) as HP1. pose proof (pow2_pos (es + 1074)) as HP2.
  pose proof (pow2_pos (eR + 1074)) as HPR. pose proof (pow2_pos 1074) as HP.
  (* the inequality on mantissas *)
  assert (Hm : (Zpos md * 2 ^ (ed + 1074) * 2 ^ 1074
                < Zpos mR * Zpos ms * 2 ^ (eR + 1074) * 2 ^ (es + 1074))%Z) by lia.
  (* magnitudes *)
  assert (Hmag : (d1 + ed - (d2 + es) <= dR + eR)%Z).
  { destruct (Z.le_gt_cases (d1 + ed - (d2 + es)) (dR + eR)) as [|Hgt]; [done|exfalso].
    assert (H1 : (2 ^ (dR + d2 + (eR + 1074) + (es + 1074))
                  <= 2 ^ ((d1 - 1) + (ed + 1074) + 1074))%Z)
      by (apply Z.pow_le_mono_r; lia).
    rewrite (Z.pow_add_r 2 (dR + d2 + (eR + 1074)) (es + 1074)),
      (Z.pow_add_r 2 (dR + d2) (eR + 1074)), (Z.pow_add_r 2 dR d2),
      (Z.pow_add_r 2 (d1 - 1 + (ed + 1074)) 1074),
      (Z.pow_add_r 2 (d1 - 1) (ed + 1074)) in H1 by lia.
    pose proof (pow2_pos (d1 - 1)). pose proof (pow2_pos d2). pose proof (pow2_pos dR).
    assert (Zpos mR * Zpos ms < 2 ^ dR * 2 ^ d2)%Z by nia.
    assert (2 ^ (d1 - 1) * 2 ^ (ed + 1074) * 2 ^ 1074
            <= Zpos md * 2 ^ (ed + 1074) * 2 ^ 1074)%Z by nia.
    assert (Zpos mR * Zpos ms * 2 ^ (eR + 1074) * 2 ^ (es + 1074)
            < 2 ^ dR * 2 ^ d2 * 2 ^ (eR + 1074) * 2 ^ (es + 1074))%Z.
    { apply Z.mul_lt_mono_pos_r; [lia|]. apply Z.mul_lt_mono_pos_r; [lia|]. lia. }
    lia. }
  set (e' := Z.min (fexp prec emax (d1 + ed - (d2 + es))) (ed - es)).
  assert (He' : (e' <= eR)%Z).
  { pose proof (fexp_mono _ _ Hmag). subst e'. lia. }
  set (s := (ed - es - e')%Z).
  assert (Hs0 : (0 <= s)%Z) by (subst s e'; lia).
  pose proof (pow2_pos s Hs0) as HPs. pose proof (pow2_pos (eR - e')) as HPe.
  destruct (round_upper (Zpos md * 2 ^ s / Zpos ms) e'
              (new_location (Zpos ms) ((Zpos md * 2 ^ s) mod Zpos ms))
              mR eR) as [HF HK]; [|exact VR|lia| |].
  - apply Z.div_pos; lia.
  - apply Z.div_lt_upper_bound; [lia|].
    (* md * 2 ^ s < ms * (mR * 2 ^ (eR - e')) *)
    assert (He'0 : (0 <= e' + 2148)%Z).
    { subst e'. pose proof (fexp_ge_emin (d1 + ed - (d2 + es))). lia. }
    pose proof (pow2_pos (e' + 2148) He'0) as HPm.
    set (M := (2 ^ (es + 1074) * 2 ^ (e' + 2148))%Z).
    assert (HM : (0 < M)%Z) by (subst M; nia).
    assert (E1 : (2 ^ s * M = 2 ^ (ed + 1074) * 2 ^ 1074 * 2 ^ 1074)%Z).
    { subst M. rewrite <- !Z.pow_add_r by lia. f_equal. subst s. lia. }
    assert (E2 : (2 ^ (eR - e') * M = 2 ^ (eR + 1074) * 2 ^ (es + 1074) * 2 ^ 1074)%Z).
    { subst M. rewrite <- !Z.pow_add_r by lia. f_equal. lia. }
    apply (Z.mul_lt_mono_pos_r M); [exact HM|].
    replace (Zpos md * 2 ^ s * M)%Z with (Zpos md * (2 ^ s * M))%Z by ring.
    replace (Zpos ms * (Zpos mR * 2 ^ (eR - e')) * M)%Z
      with (Zpos mR * Zpos ms * (2 ^ (eR - e') * M))%Z by ring.
    rewrite E1, E2.
    replace (Zpos md * (2 ^ (ed + 1074) * 2 ^ 1074 * 2 ^ 1074))%Z
      with (Zpos md * 2 ^ (ed + 1074) * 2 ^ 1074 * 2 ^ 1074)%Z by ring.
    replace (Zpos mR * Zpos ms * (2 ^ (eR + 1074) * 2 ^ (es + 1074) * 2 ^ 1074))%Z
      with (Zpos mR * Zpos ms * 2 ^ (eR + 1074) * 2 ^ (es + 1074) * 2 ^ 1074)%Z by ring.
    apply Z.mul_lt_mono_pos_r; [lia|exact Hm].
  - split; [exact HF|exact HK].
Qed.

(** Halving a normal value only lowers its exponent. *)
Lemma halve_normal (y : number) (sy : bool) (my : positive) (ey : Z) :
  Prim2SF y = S754_finite sy my ey ->
  (2 ^ 52 <= Zpos my)%Z -> (-1072 <= ey)%Z ->
  Prim2SF (y / 2) = S754_finite sy my (ey - 1).
Proof.
  intros Ey Hm He. pose proof (Prim2SF_valid y) as V. rewrite Ey in V.
  destruct (valid_finite _ _ _ V) as (HeV & HmV & _).
  assert (Hd : Zdigits2 (Zpos my) = 53%Z) by (apply Zdigits2_unique; lia).
  assert (H2 : Prim2SF 2 = S754_finite false 4503599627370496 (-51)) by reflexivity.
  rewrite div_spec, Ey, H2. cbn [SF64div SFdiv]. rewrite SFdiv_core_spec.
  rewrite Hd. change (Zdigits2 (Zpos 4503599627370496)) with 53%Z.
  rewrite fexp_eq.
  replace (Z.min (Z.max (53 + ey - (53 + -51) - 53) (-1074)) (ey - -51))
    with (ey - 2)%Z by lia.
  replace (ey - -51 - (ey - 2))%Z with 53%Z by lia.
  change (Zpos 4503599627370496) with (2 ^ 52)%Z.
  replace (Zpos my * 2 ^ 53)%Z with (Zpos my * 2 * 2 ^ 52)%Z
    by (change (2 ^ 53)%Z with (2 * 2 ^ 52)%Z; ring).
  rewrite Z.div_mul, Z.mod_mul by lia.
  assert (Hloc : new_location (2 ^ 52) 0 = loc_Exact) by reflexivity.
  rewrite Hloc, xorb_false_r.
  destruct (binary_round_aux_exact sy (Zpos my * 2) (ey - 2)) as [_ ->]; [lia|].
  assert (HdN : Zdigits2 (Zpos my * 2) = 54%Z).
  { change 2%Z with (2 ^ 1)%Z at 1. rewrite Zdigits2_mul_pow2 by lia. lia. }
  assert (Hn : rshift (Zpos my * 2) (ey - 2) = 1%Z).
  { unfold rshift. rewrite HdN, fexp_eq. lia. }
  rewrite Hn. change (Zpos my * 2)%Z with (Zpos my * 2 ^ 1)%Z.
  rewrite rne_shift_exact by lia.
  assert (Hn2 : rshift (Zpos my) (ey - 2 + 1) = 0%Z).
  { unfold rshift. rewrite Hd, fexp_eq. lia. }
  rewrite Hn2. change (2 ^ 0)%Z with 1%Z. rewrite Z.div_1_r, Z.add_0_r.
  unfold bra_result. change (emax - prec)%Z with 971%Z.
  replace (ey - 2 + 1)%Z with (ey - 1)%Z by lia.
  destruct (Z.leb_spec (ey - 1) 971); [reflexivity|lia].
Qed.

(** A negative or zero dividend does not give the quotient 1. *)
Lemma div_nonpos_ne_one (y sp : number) :
  PrimFloat.is_nan y = false -> (key y <= 0)%Z -> (0 < key sp)%Z ->
  is_finite sp = true ->
  (y / sp)%float <> 1%float.
Proof.
  intros Ny Ky Ks Fs H. apply (f_equal Prim2SF) in H. rewrite div_spec, Prim2SF_one in H.
  rewrite <- Prim2SF_is_nan in Ny. unfold key in Ky.
  destruct (Prim2SF_nonneg sp Fs) as [[ss Es]|(ms & es & Es & Vs & Kse)]; [lia| |].
  { unfold key in Ks. rewrite Es in Ks. simpl in Ks. lia. }
  rewrite Es in H. pose proof (Prim2SF_valid y) as V.
  destruct (Prim2SF y) as [sy|[]| |[] my ey]; try discriminate.
  - cbn [SF64div SFdiv xorb] in H. rewrite SFdiv_core_spec in H.
    change true with (negb false) in H. rewrite bra_opp in H.
    match type of H with
    | SFopp (binary_round_aux _ _ _ ?N ?e ?l) = _ =>
        pose proof (bra_nonneg N e l) as Hnn;
        destruct (binary_round_aux prec emax false N e l) as [s0|[]| |[] m0 e0]
    end; try discriminate.
    discriminate Hnn. apply Z.div_pos; [|lia].
    apply Z.mul_nonneg_nonneg; [lia|]. apply Z.pow_nonneg. lia.
  - pose proof (finite_key_bounds _ _ _ V). simpl in Ky. lia.
Qed.

(** The remapped value [(c + 1) / 2] is exactly 1 just when [c] is 1 or one
    of the two binary64 values next to it. *)
Lemma remap_one_iff (c : number) :
  ((c + 1) / 2)%float = 1%float <->
  (0x1.fffffffffffffp-1 <=? c)%float = true /\
  (c <=? 0x1.0000000000001p+0)%float = true.
Proof.
  split.
  - intros H.
    (* c is finite *)
    assert (Fc : is_finite c = true).
    { rewrite is_finite_SF. pose proof (f_equal Prim2SF H) as H'.
      rewrite div_spec, add_spec, Prim2SF_one in H'.
      by destruct (Prim2SF c) as [sc|[]| |sc mc ec]. }
    pose proof (is_finite_not_nan _ Fc) as Nc.
    destruct (add_key c 1 Fc eq_refl) as [Ny Ky]. rewrite key_one in Ky.
    set (y := (c + 1)%float) in *.
    rewrite !leb_key by done.
    split; apply Z.leb_le.
    + (* not below the predecessor of 1 *)
      destruct (Z.le_gt_cases (key 0x1.fffffffffffffp-1) (key c)) as [|Hlt]; [done|exfalso].
      assert (Hy : (key y <= key 0x1.fffffffffffffp+0)%Z).
      { rewrite Ky.
        transitivity (RNZ (key 0x1.fffffffffffffp-1 - 1 + 2 ^ 1074)); [apply RNZ_mono; lia|].
        by vm_compute. }
      destruct (Z.le_gt_cases (key y) 0) as [Hneg|Hpos].
      { by apply (div_nonpos_ne_one y 2 Ny Hneg). }
      assert (Fy : is_finite y = true).
      { apply finite_of_key; [done|].
        pose proof (key_finite_bounds 0x1.fffffffffffffp+0 eq_refl). lia. }
      destruct (Z.eq_dec (key y) (key 0x1.fffffffffffffp+0)) as [Heq|Hne].
      * destruct (key_eq_finite y 0x1.fffffffffffffp+0 Fy eq_refl Heq) as [Ey|[_ Hz]];
          [|discriminate Hz].
        rewrite Ey in H. vm_compute in H. discriminate H.
      * destruct (div_upper y 2 9007199254740991 (-53) Fy eq_refl eq_refl) as [_ Hq];
          [lia|by vm_compute| |].
        -- change (key 2) with (2 * 2 ^ 1074)%Z.
           change (key 0x1.fffffffffffffp+0) with (9007199254740991 * 2 ^ 1022)%Z in Hy, Hne.
           change (-53 + 1074)%Z with 1021%Z.
           replace (Zpos 9007199254740991 * 2 ^ 1021 * (2 * 2 ^ 1074))%Z
             with (9007199254740991 * 2 ^ 1022 * 2 ^ 1074)%Z
             by (change (2 ^ 1022)%Z with (2 * 2 ^ 1021)%Z; ring).
           apply Z.mul_lt_mono_pos_r; [by apply pow2_pos|]. lia.
        -- rewrite H in Hq. vm_compute in Hq. by destruct Hq as [_ Hq].
    + (* not above the successor of 1 *)
      destruct (Z.le_gt_cases (key c) (key 0x1.0000000000001p+0)) as [|Hgt]; [done|exfalso].
      assert (Hy : (key 0x1.0000000000001p+1 <= key y)%Z).
      { rewrite Ky.
        transitivity (RNZ (key 0x1.0000000000001p+0 + 1 + 2 ^ 1074)); [|apply RNZ_mono; lia].
        by vm_compute. }
      change (key 0x1.0000000000001p+1) with (4503599627370497 * 2 ^ 1023)%Z in Hy.
      pose proof (f_equal Prim2SF H) as H'. rewrite Prim2SF_one in H'.
      pose proof (Prim2SF_valid y) as V. unfold key in Hy.
      destruct (Prim2SF y) as [sy|sy| |sy my ey] eqn:Ey.
      * rewrite div_spec, Ey in H'. discriminate H'.
      * rewrite div_spec, Ey in H'. discriminate H'.
      * rewrite div_spec, Ey in H'. discriminate H'.
      * destruct (valid_finite _ _ _ V) as (HeV & HmV & Hnorm).
        pose proof (pow2_pos (ey + 1074)) as HPe. pose proof (pow2_pos 1023) as HP.
        assert (Hs : sy = false).
        { destruct sy; [|done]. simpl in Hy. nia. }
        subst sy. simpl in Hy.
        assert (He : (-51 <= ey)%Z).
        { destruct (Z.le_gt_cases (-51) ey) as [|Hlow]; [done|exfalso].
          assert (2 ^ (ey + 1074) <= 2 ^ 1022)%Z by (apply Z.pow_le_mono_r; lia).
          change (2 ^ 1023)%Z with (2 * 2 ^ 1022)%Z in Hy.
          pose proof (pow2_pos 1022). nia. }
        assert (Hm : (2 ^ 52 <= Zpos my)%Z) by lia.
        rewrite (halve_normal y false my ey Ey Hm) in H' by lia.
        inversion H' as [[Hmy Hey]].
        assert (ey = -51)%Z by lia. subst ey my.
        vm_compute in Hy. by apply Hy.
  - intros [H1 H2].
    destruct (between_key 0x1.fffffffffffffp-1 c 0x1.0000000000001p+0 eq_refl eq_refl H1 H2)
      as [Fc Kc].
    destruct (add_key c 1 Fc eq_refl) as [Ny Ky]. rewrite key_one in Ky.
    assert (Hk : key (c + 1) = key 2).
    { apply Z.le_antisymm; rewrite Ky.
      - transitivity (RNZ (key 0x1.0000000000001p+0 + 2 ^ 1074)); [apply RNZ_mono; lia|].
        by vm_compute.
      - transitivity (RNZ (key 0x1.fffffffffffffp-1 + 2 ^ 1074)); [|apply RNZ_mono; lia].
        by vm_compute. }
    assert (Fy : is_finite (c + 1) = true).
    { apply finite_of_key; [done|]. rewrite Hk. by vm_compute. }
    destruct (key_eq_finite (c + 1) 2 Fy eq_refl Hk) as [->|[_ Hz]]; [|discriminate Hz].
    reflexivity.
Qed.

(** The L2 norm of a vector, as [embedWordToy] computes it. *)
Definition l2_norm (v : list number) : number := Math.sqrt (dot v v).

(** Unit-normalized, to the precision of the [Float32Array] that holds the
    vector: the L2 norm rounds to 1 in binary32. *)
Definition unit_normalized (v : list number) : Prop := fround (l2_norm v) = 1%float.

(** C3, as the code behaves: on vectors of one dimension, unit-normalized or
    not, the matrix has [N] rows of [N] cells, cell [(i, j)] is
    [(cosine v_i v_j + 1) / 2], the matrix is symmetric, and no vector gives
    the empty matrix; a diagonal entry is exactly 1 just when the product of
    the vector with itself, as [cosine] computes it, is 1 or one of the two
    binary64 values next to 1. *)
Theorem buildSimMatrix_spec (vectors : list (list number)) (D : nat) :
  Forall (fun v => length v = D) vectors ->
  let n := length vectors in
  let M := buildSimMatrix vectors in
  length M = n /\
  Forall (fun r => length r = n) M /\
  (forall a b, a < n -> b < n ->
     cell M a b = Some ((cosine (row vectors a) (row vectors b) + 1) / 2)%float) /\
  (forall a b, a < n -> b < n -> cell M a b = cell M b a) /\
  (forall a, a < n ->
     cell M a a = Some 1%float <->
     (0x1.fffffffffffffp-1 <=? cosine (row vectors a) (row vectors a))%float = true /\
     (cosine (row vectors a) (row vectors a) <=? 0x1.0000000000001p+0)%float = true) /\
  (n = 0 -> M = []).
Proof.
  intros Hdim n M. subst n M.
  set (n := length vectors). set (M := buildSimMatrix vectors).
  assert (Hsh : shaped n M).
  { destruct vectors as [|v vs]; [by split|].
    apply (buildSimMatrix_cell (v :: vs) 0 0); simpl; lia. }
  assert (Hcell : forall a b, a < n -> b < n ->
            cell M a b = Some (sim vectors a b)).
  { intros a b Ha Hb.
    destruct (buildSimMatrix_cell vectors a b Ha Hb) as [_ Hab']. fold M in Hab'.
    rewrite Hab'. destruct (decide (a <= b)) as [Hab|Hab].
    - by rewrite Nat.min_l, Nat.max_r by lia.
    - rewrite Nat.min_r, Nat.max_l by lia. unfold sim, cosine.
      destruct (lookup_lt_is_Some_2 vectors a Ha) as [va Hva].
      destruct (lookup_lt_is_Some_2 vectors b Hb) as [vb Hvb].
      rewrite (row_lookup _ _ _ Hva), (row_lookup _ _ _ Hvb).
      rewrite (dot_comm vb va); [done|].
      eapply Forall_lookup_1 in Hva; [|exact Hdim].
      eapply Forall_lookup_1 in Hvb; [|exact Hdim]. simpl in *. congruence. }
  destruct Hsh as [Hlen Hrows].
  split; [exact Hlen|]. split; [exact Hrows|]. split; [exact Hcell|]. split; [|split].
  - intros a b Ha Hb.
    destruct (buildSimMatrix_cell vectors a b Ha Hb) as [_ Hab].
    destruct (buildSimMatrix_cell vectors b a Hb Ha) as [_ Hba].
    fold M in Hab, Hba. rewrite Hab, Hba. by rewrite Nat.min_comm, Nat.max_comm.
  - intros a Ha. rewrite Hcell by done. unfold sim.
    rewrite <- remap_one_iff. split; [by intros [= ->]|by intros ->].
  - intros Hn. destruct vectors; [reflexivity|discriminate Hn].
Qed.

Lemma buildSimMatrix_spec_witness :
  cell (buildSimMatrix [[1; 0; 0; 0]; [0; 1; 0; 0]; [0.5; 0.5; 0.5; 0.5]]%float) 2 0
  = Some 0.75%float /\
  cell (buildSimMatrix [[1; 0; 0; 0]; [0; 1; 0; 0]; [0.5; 0.5; 0.5; 0.5]]%float) 2 2
  = Some 1%float.
Proof.
  destruct (buildSimMatrix_spec
              [[1; 0; 0; 0]; [0; 1; 0; 0]; [0.5; 0.5; 0.5; 0.5]]%float 4)
    as (_ & _ & Hcell & _ & Hdiag & _).
  - repeat constructor.
  - split; [rewrite Hcell by (simpl; lia); reflexivity|].
    apply Hdiag; [simpl; lia|]. split; reflexivity.
Defined.

(** C3 fails on the diagonal.  The toy vectors of the seed words ["art"]
    and ["gallery"] hold binary32 values and are unit-normalized as far as
    that precision tells (their L2 norms round to 1), but their products with
    themselves are [0.99999997605...] and [1.00000005960...], and the two
    diagonal cells are [0.99999998802...] and [1.00000002980...]: one below
    1 and one above. *)
Lemma buildSimMatrix_diagonal_not_one :
  Forall unit_normalized
    [embedWordToy toLowerCase_ascii (str "art") 128;
     embedWordToy toLowerCase_ascii (str "gallery") 128] /\
  Forall (fun v => length v = 128 /\ forallb is_float32 v = true)
    [embedWordToy toLowerCase_ascii (str "art") 128;
     embedWordToy toLowerCase_ascii (str "gallery") 128] /\
  cell (buildSimMatrix
    [embedWordToy toLowerCase_ascii (str "art") 128;
     embedWordToy toLowerCase_ascii (str "gallery") 128]) 0 0
  = Some 0x1.ffffff9925550p-1%float /\
  cell (buildSimMatrix
    [embedWordToy toLowerCase_ascii (str "art") 128;
     embedWordToy toLowerCase_ascii (str "gallery") 128]) 1 1
  = Some 0x1.0000008000002p+0%float /\
  (0x1.ffffff9925550p-1 <? 1)%float = true /\
  (1 <? 0x1.0000008000002p+0)%float = true.
Proof.
  split.
  { constructor; [vm_compute; reflexivity|].
    constructor; [vm_compute; reflexivity|constructor]. }
  split.
  { constructor; [split; vm_compute; reflexivity|].
    constructor; [split; vm_compute; reflexivity|constructor]. }
  split; [vm_compute; reflexivity|]. split; [vm_compute; reflexivity|].
  split; reflexivity.
Qed.

(** * Further properties of the code *)

(** ** [src/utils/embeddings.ts] *)

(** X1: the similarity of two vectors of one length does not depend on the
    order of the arguments. *)
Theorem cosine_symmetric (a b : list number) :
  length a = length b -> cosine a b = cosine b a.
Proof. intros Hlen. unfold cosine. by apply dot_comm. Qed.

Lemma cosine_symmetric_witness :
  cosine [0.5; 0.25; 3]%float [2; 7; 0.125]%float
  = cosine [2; 7; 0.125]%float [0.5; 0.25; 3]%float.
Proof. apply (cosine_symmetric [0.5; 0.25; 3]%float [2; 7; 0.125]%float). reflexivity. Defined.

Lemma cell_out_of_range (n : nat) (M : list (list number)) (a b : nat) :
  shaped n M -> n <= a \/ n <= b -> cell M a b = None.
Proof.
  intros [H1 H2] Hab. unfold cell. destruct (M !! a) as [r|] eqn:Hr; [|done].
  assert (length r = n) as Hlen by (eapply Forall_lookup_1 in H2; eauto).
  apply lookup_lt_Some in Hr. apply lookup_ge_None. lia.
Qed.

(** X2: for every list of vectors, whatever their lengths and entries, the
    matrix has [N] rows of [N] cells and is symmetric; the cells [(a, b)] and
    [(b, a)] with [a <= b] both hold the value computed once from
    [cosine v_a v_b], the vector of lower index first. *)
Theorem buildSimMatrix_mirrors_upper_triangle (vectors : list (list number)) :
  let n := length vectors in
  let M := buildSimMatrix vectors in
  length M = n /\
  Forall (fun r => length r = n) M /\
  (forall a b, cell M a b = cell M b a) /\
  (forall a b, a <= b -> b < n ->
     cell M a b = Some ((cosine (row vectors a) (row vectors b) + 1) / 2)%float /\
     cell M b a = Some ((cosine (row vectors a) (row vectors b) + 1) / 2)%float).
Proof.
  intros n M.
  assert (Hsh : shaped n M).
  { subst n M. destruct vectors as [|v vs]; [by split|].
    apply (buildSimMatrix_cell (v :: vs) 0 0); simpl; lia. }
  assert (Hcell : forall a b, a < n -> b < n ->
            cell M a b = Some (sim vectors (Nat.min a b) (Nat.max a b))).
  { intros a b Ha Hb. by apply buildSimMatrix_cell. }
  destruct Hsh as [H1 H2]. split; [exact H1|]. split; [exact H2|]. split.
  - intros a b.
    destruct (decide (a < n /\ b < n)) as [[Ha Hb]|Hout].
    + rewrite !Hcell by done. by rewrite Nat.min_comm, Nat.max_comm.
    + rewrite !(cell_out_of_range n) by (try done; lia). done.
  - intros a b Hab Hb. rewrite !Hcell by lia.
    rewrite (Nat.min_comm b a), (Nat.max_comm b a), Nat.min_l, Nat.max_r by lia.
    done.
Qed.

Lemma nearestNeighbors_length (vectors : list (list number)) (k : nat) :
  length (nearestNeighbors vectors k) = length vectors.
Proof.
  unfold nearestNeighbors. rewrite fold_left_snoc_map. simpl.
  by rewrite length_map, length_seq.
Qed.

(** X3: whatever the similarities are (NaN included), there is one list per
    point; the list of point [i] has exactly [min k (N - 1)] entries, its
    indices are pairwise distinct, in range and different from [i], every
    entry carries the similarity of its pair, and when [k] is at least
    [N - 1] every other point is listed. *)
Theorem nearestNeighbors_lists_distinct_other_points
    (vectors : list (list number)) (k i : nat) :
  i < length vectors ->
  length (nearestNeighbors vectors k) = length vectors /\
  exists out, nearestNeighbors vectors k !! i = Some out /\
    length out = Nat.min k (length vectors - 1) /\
    NoDup (map j out) /\
    Forall (fun e => j e <> i /\ j e < length vectors /\
                     s e = cosine (row vectors i) (row vectors (j e))) out /\
    (length vectors - 1 <= k ->
       forall c, c < length vectors -> c <> i -> c ∈ map j out).
Proof.
  intros Hi. split; [apply nearestNeighbors_length|].
  rewrite nearestNeighbors_lookup by done. eexists. split; [reflexivity|].
  set (idx := filter (fun c => c ≠ i) (seq 0 (length vectors))).
  set (full := js_sort comparefn (sims_of vectors i)).
  assert (Hperm : map j full ≡ₚ idx).
  { unfold full. rewrite js_sort_perm, sims_of_map. fold idx.
    rewrite <- list_fmap_compose. by rewrite list_fmap_id. }
  assert (Hnd : NoDup (map j full)).
  { rewrite Hperm. apply NoDup_filter, NoDup_seq. }
  assert (Hall : Forall (fun e => j e <> i /\ j e < length vectors /\
                     s e = cosine (row vectors i) (row vectors (j e))) full).
  { unfold full. rewrite js_sort_perm, sims_of_map. apply Forall_fmap.
    apply Forall_forall. intros c Hc. apply list_elem_of_filter in Hc as [Hne Hc].
    apply elem_of_seq in Hc. simpl. repeat split; [done|lia]. }
  split; [|split; [|split]].
  - rewrite length_take. unfold full.
    rewrite js_sort_perm, sims_of_map, length_map, length_filter_ne_seq by done. done.
  - rewrite fmap_take. rewrite <- (take_drop k (map j full)) in Hnd.
    by apply NoDup_app in Hnd as [Hnd _].
  - by apply Forall_take.
  - intros Hk c Hc Hne.
    rewrite take_ge.
    + rewrite Hperm. apply list_elem_of_filter. split; [done|].
      apply elem_of_seq. lia.
    + unfold full.
      rewrite js_sort_perm, sims_of_map, length_map, length_filter_ne_seq by done. done.
Qed.

Lemma nearestNeighbors_lists_distinct_other_points_witness :
  exists out,
    nearestNeighbors [[1; 0]; [nan; 0]; [1; 1]; []]%float 2 !! 1 = Some out /\
    length out = 2 /\ NoDup (map j out).
Proof.
  destruct (nearestNeighbors_lists_distinct_other_points
              [[1; 0]; [nan; 0]; [1; 1]; []]%float 2 1)
    as (_ & out & Hout & Hlen & Hnd & _).
  - simpl; lia.
  - exists out. split; [exact Hout|]. split; [exact Hlen|exact Hnd].
Defined.

(** X4: asking for fewer neighbors only shortens the lists: the lists for
    [k] are the first [k] entries of the lists for any larger [k']. *)
Theorem nearestNeighbors_prefix (vectors : list (list number)) (k k' : nat) :
  k <= k' ->
  nearestNeighbors vectors k = map (take k) (nearestNeighbors vectors k').
Proof.
  intros Hk. unfold nearestNeighbors. rewrite !fold_left_snoc_map. simpl.
  rewrite <- list_fmap_compose. apply list_fmap_ext. intros _ c _. simpl.
  rewrite take_take. by rewrite Nat.min_l.
Qed.

Lemma nearestNeighbors_prefix_witness :
  nearestNeighbors [[1; 0]; [0.5; 0]; [1; 1]; [0; 1]]%float 1
  = map (take 1) (nearestNeighbors [[1; 0]; [0.5; 0]; [1; 1]; [0; 1]]%float 3).
Proof.
  apply (nearestNeighbors_prefix [[1; 0]; [0.5; 0]; [1; 1]; [0; 1]]%float 1 3). lia.
Defined.

(** X5: when no similarity is NaN the listed points are the most similar
    ones: a point that is not in the list of [i] is at most as similar to
    [i] as every listed point. *)
Theorem nearestNeighbors_keeps_most_similar
    (vectors : list (list number)) (k i c : nat) (out : list neighbor) (e : neighbor) :
  comparable_similarities vectors ->
  nearestNeighbors vectors k !! i = Some out ->
  e ∈ out ->
  c < length vectors -> c <> i -> c ∉ map j out ->
  (cosine (row vectors i) (row vectors c) <=? s e)%float = true.
Proof.
  intros Hcmp Hout He Hc Hci Hnot.
  assert (Hi : i < length vectors).
  { apply lookup_lt_Some in Hout. by rewrite nearestNeighbors_length in Hout. }
  rewrite nearestNeighbors_lookup in Hout by done. injection Hout as <-.
  set (full := js_sort comparefn (sims_of vectors i)) in *.
  assert (Hcomp : Forall comparable (sims_of vectors i)).
  { rewrite sims_of_map. apply Forall_fmap. apply Forall_forall.
    intros d Hd. apply list_elem_of_filter in Hd as [_ Hd]. apply elem_of_seq in Hd.
    unfold comparable. simpl. apply Hcmp; lia. }
  assert (Hsorted : StronglySorted precedes full).
  { apply js_sort_sorted; [done|]. rewrite sims_of_map.
    apply (StronglySorted_fmap (entry vectors i) lt); [|apply seq_filter_sorted].
    intros a b Hab. exact Hab. }
  assert (Hin : entry vectors i c ∈ full).
  { unfold full. rewrite js_sort_perm, sims_of_map. apply list_elem_of_fmap_2.
    apply list_elem_of_filter. split; [done|]. apply elem_of_seq. lia. }
  rewrite <- (take_drop k full) in Hin, Hsorted.
  apply elem_of_app in Hin as [Hin|Hin].
  { exfalso. apply Hnot. change c with (j (entry vectors i c)).
    by apply list_elem_of_fmap_2. }
  assert (Hprec : precedes e (entry vectors i c)).
  { by eapply StronglySorted_app_1_elem_of. }
  assert (Hce : comparable e).
  { assert (e ∈ full) as Hef.
    { rewrite <- (take_drop k full). apply elem_of_app. by left. }
    unfold full in Hef. rewrite js_sort_perm in Hef.
    by eapply Forall_forall in Hcomp. }
  rewrite leb_key; [|by apply Hcmp|exact Hce].
  apply Z.leb_le. destruct Hprec as [H|[H _]]; simpl in H; lia.
Qed.

Lemma nearestNeighbors_keeps_most_similar_witness :
  (cosine (row [[1; 0]; [0.5; 0]; [1; 1]; [0; 1]]%float 0)
          (row [[1; 0]; [0.5; 0]; [1; 1]; [0; 1]]%float 3)
   <=? s {| j := 1; s := 0.5 |})%float = true.
Proof.
  apply (nearestNeighbors_keeps_most_similar
           [[1; 0]; [0.5; 0]; [1; 1]; [0; 1]]%float 2 0 3
           [{| j := 2; s := 1 |}; {| j := 1; s := 0.5 |}]%float).
  - intros a b Ha Hb. simpl in Ha, Hb.
    destruct a as [|[|[|[|a]]]]; try lia;
      destruct b as [|[|[|[|b]]]]; try lia; reflexivity.
  - reflexivity.
  - apply list_elem_of_lookup. by exists 1.
  - simpl; lia.
  - lia.
  - simpl. intros H. repeat (apply elem_of_cons in H as [H|H]; [lia|]).
    by apply elem_of_nil in H.
Defined.

(** ** [kmeans] beyond its labels *)

Lemma nearest_no_centers (p : list number) : nearest [] p = 0.
Proof. reflexivity. Qed.

Lemma assign_length (points ctrs : list (list number)) (lbls : list nat) :
  length (assign points ctrs lbls) = length lbls.
Proof.
  unfold assign. generalize (seq 0 (length points)) as l. intros l. revert lbls.
  induction l as [|i l IH]; intros lbls; simpl; [done|].
  by rewrite IH, length_insert.
Qed.

(** When every center scan answers 0 the labels stay all zero. *)
Lemma assign_zero (points ctrs : list (list number)) (n : nat) :
  (forall p, nearest ctrs p = 0) ->
  assign points ctrs (replicate n 0) = replicate n 0.
Proof.
  intros H0. unfold assign. generalize (seq 0 (length points)) as l. intros l.
  induction l as [|i l IH]; simpl; [done|].
  by rewrite H0, insert_replicate.
Qed.

(** X6: with no cluster requested there is no center; on at least one point
    the first pass of the outer loop then throws a [TypeError] (it reads
    [sum[0][0]] where [sum] is empty), and with no pass at all every label
    is 0 and the list of centers is empty. *)
Theorem kmeans_without_clusters (points : list (list number)) (iters : nat) :
  0 < length points ->
  kmeans points 0 iters =
  match iters with
  | 0 => Normal {| labels := replicate (length points) 0; centers := [] |}
  | S _ => Throw TypeError
  end.
Proof.
  intros Hn. rewrite kmeans_unfold.
  destruct (decide (length points = 0)) as [|_]; [lia|].
  rewrite init_centers_take. cbn [Nat.min].
  destruct iters as [|iters]; [reflexivity|].
  assert (Hstep : kmeans_step points (replicate (length points) 0, []) 0 = Throw TypeError).
  { unfold kmeans_step. rewrite assign_zero by apply nearest_no_centers.
    unfold accumulate. destruct (length points) as [|n] eqn:E; [lia|]. reflexivity. }
  cbn [seq foldM]. change (take 0 points) with (@nil (list number)). by rewrite Hstep.
Qed.

Lemma kmeans_without_clusters_witness :
  kmeans [[1; 2]; [3; 4]]%float 0 10 = Throw TypeError.
Proof.
  apply (kmeans_without_clusters [[1; 2]; [3; 4]]%float 10). simpl; lia.
Defined.

(** The sum of the points along one axis, in the order of the loop. *)
Definition axis_sum (k : nat) (points : list (list number)) : number :=
  fold_left (fun a p => (a + elem p k)%float) points 0%float.

Lemma elem_js_store_eq (a : list number) (i : nat) (v : number) :
  elem (js_store a i v) i = v.
Proof.
  unfold elem, js_store. destruct (decide (i < length a)) as [Hi|Hi].
  - by rewrite list_lookup_insert_eq.
  - rewrite lookup_app_r by lia. rewrite lookup_app_r by (rewrite length_replicate; lia).
    rewrite length_replicate. by replace (i - length a - (i - length a)) with 0 by lia.
Qed.

Lemma elem_js_store_ne (a : list number) (i i' : nat) (v : number) :
  i' <> i -> elem (js_store a i v) i' = elem a i'.
Proof.
  intros Hne. unfold elem, js_store. destruct (decide (i < length a)) as [Hi|Hi].
  - by rewrite list_lookup_insert_ne.
  - destruct (decide (i' < length a)) as [Hi'|Hi'].
    + by rewrite lookup_app_l.
    + rewrite (proj2 (lookup_ge_None a i')) by lia.
      rewrite lookup_app_r by lia.
      destruct (decide (i' < i)) as [Hlt|Hge].
      * rewrite lookup_app_l by (rewrite length_replicate; lia).
        rewrite lookup_replicate_2 by lia. done.
      * rewrite lookup_app_r by (rewrite length_replicate; lia).
        rewrite length_replicate.
        rewrite (proj2 (lookup_ge_None _ _)); [done|]. simpl. lia.
Qed.

Lemma nearest_one_center (c p : list number) : nearest [c] p = 0.
Proof. unfold nearest. cbn [length seq fold_left]. by destruct (_ <? _)%float. Qed.


(** One round of [sum[0][0] += x; sum[0][1] += y] per point. *)
Definition add_point (sc p : list number) : list number :=
  let sc := js_store sc 0 (elem sc 0 + elem p 0)%float in
  js_store sc 1 (elem sc 1 + elem p 1)%float.

Lemma add_points_elem (ps : list (list number)) (sc : list number) (k : nat) :
  k < 2 ->
  elem (fold_left add_point ps sc) k
  = fold_left (fun a p => (a + elem p k)%float) ps (elem sc k).
Proof.
  intros Hk. revert sc. induction ps as [|p ps IH]; intros sc; simpl; [done|].
  rewrite IH. f_equal. unfold add_point.
  destruct k as [|[|k]]; [| |lia].
  - rewrite elem_js_store_ne by done. by rewrite elem_js_store_eq.
  - rewrite elem_js_store_eq. by rewrite elem_js_store_ne.
Qed.

(** The accumulation loop when every label is 0 and there is one center. *)
Lemma accumulate_single (points : list (list number)) (n : nat) (l : list nat)
    (sc : list number) (m : nat) :
  foldM (fun '(sum, cnt) i =>
      let c := default 0 (replicate n 0 !! i) in
      match sum !! c with
      | None => Throw TypeError
      | Some sc =>
          let sc := js_store sc 0 (elem sc 0 + elem (row points i) 0)%float in
          let sc := js_store sc 1 (elem sc 1 + elem (row points i) 1)%float in
          Normal (<[c := sc]> sum, <[c := S (default 0 (cnt !! c))]> cnt)
      end) l ([sc], [m])
  = Normal ([fold_left add_point (map (row points) l) sc], [m + length l]).
Proof.
  revert sc m. induction l as [|i l IH]; intros sc m; simpl.
  - by rewrite Nat.add_0_r.
  - assert (H0 : default 0 (replicate n 0 !! i) = 0).
    { destruct (replicate n 0 !! i) as [c|] eqn:E; [|done].
      apply lookup_replicate in E as [-> _]. done. }
    rewrite H0. simpl. rewrite IH. by rewrite Nat.add_succ_r.
Qed.

Lemma accumulate_all_zero (points : list (list number)) (sc : list number) (m : nat) :
  accumulate points (replicate (length points) 0) [sc] [m]
  = Normal ([fold_left add_point points sc], [m + length points]).
Proof.
  unfold accumulate.
  etransitivity;
    [exact (accumulate_single points (length points) (seq 0 (length points)) sc m)|].
  by rewrite length_seq, map_row_seq, firstn_all.
Qed.

Definition centroid (points : list (list number)) (c : list number) : Prop :=
  elem c 0 = (axis_sum 0 points / num_of_nat (length points))%float /\
  elem c 1 = (axis_sum 1 points / num_of_nat (length points))%float.

Lemma kmeans_step_single (points : list (list number)) (c : list number) (it : nat) :
  0 < length points ->
  exists c', kmeans_step points (replicate (length points) 0, [c]) it
             = Normal (replicate (length points) 0, [c']) /\
             centroid points c'.
Proof.
  intros Hn. unfold kmeans_step.
  rewrite assign_zero by apply nearest_one_center.
  change (map (fun _ => [0; 0]%float) [c]) with [[0; 0]%float].
  change (map (fun _ => 0) [c]) with [0].
  rewrite accumulate_all_zero. simpl mbind.
  unfold update_centers. cbn [length seq fold_left lookup list_lookup default Nat.add].
  rewrite decide_True by done. cbn [alter list_alter].
  eexists. split; [reflexivity|]. unfold centroid.
  rewrite elem_js_store_ne, !elem_js_store_eq by done.
  unfold row. cbn [lookup list_lookup default].
  unfold id. rewrite !add_points_elem by lia. done.
Qed.

Lemma kmeans_loop_single (points : list (list number)) (its : list nat) (c : list number) :
  0 < length points ->
  exists c', foldM (kmeans_step points) its (replicate (length points) 0, [c])
             = Normal (replicate (length points) 0, [c']) /\
             (its <> [] \/ centroid points c -> centroid points c').
Proof.
  intros Hn. revert c. induction its as [|it its IH]; intros c.
  - exists c. split; [done|]. by intros [?|?].
  - destruct (kmeans_step_single points c it Hn) as (c1 & Hstep & Hc1).
    destruct (IH c1) as (c' & Hloop & Hc').
    exists c'. cbn [foldM]. rewrite Hstep. split; [exact Hloop|].
    intros _. apply Hc'. by right.
Qed.

(** X7: when there is a single center (one cluster requested, or one
    point), after at least one pass every label is 0 and the center holds,
    on both axes, the sum of the coordinates of all points divided by their
    number. *)
Theorem kmeans_single_cluster_centroid (points : list (list number)) (k iters : nat) :
  Nat.min k (length points) = 1 -> 1 <= iters ->
  exists c, kmeans points k iters
            = Normal {| labels := replicate (length points) 0; centers := [c] |} /\
    elem c 0 = (axis_sum 0 points / num_of_nat (length points))%float /\
    elem c 1 = (axis_sum 1 points / num_of_nat (length points))%float.
Proof.
  intros Hmin Hit. rewrite kmeans_unfold.
  destruct (decide (length points = 0)) as [|_]; [lia|].
  rewrite init_centers_take, Hmin.
  destruct points as [|p0 points]; [simpl in Hmin; lia|].
  change (take 1 (p0 :: points)) with [p0].
  destruct (kmeans_loop_single (p0 :: points) (seq 0 iters) p0) as (c & Hloop & Hc);
    [simpl; lia|].
  exists c. rewrite Hloop. split; [reflexivity|].
  apply Hc. left. destruct iters; [lia|discriminate].
Qed.

Lemma kmeans_single_cluster_centroid_witness :
  exists c, kmeans [[1; 2]; [3; 4]; [8; 0]]%float 1 10
            = Normal {| labels := [0; 0; 0]; centers := [c] |} /\
    elem c 0 = 4%float /\ elem c 1 = 2%float.
Proof.
  apply (kmeans_single_cluster_centroid [[1; 2]; [3; 4]; [8; 0]]%float 1 10).
  - reflexivity.
  - lia.
Defined.

(** ** [normalize2D] on malformed points *)

Lemma is_nan_eq (x : number) : PrimFloat.is_nan x = true -> x = nan.
Proof.
  rewrite <- Prim2SF_is_nan. intros H. apply Prim2SF_inj.
  by destruct (Prim2SF x).
Qed.

Lemma ltb_nan_l (x : number) : (nan <? x)%float = false.
Proof. rewrite FloatAxioms.ltb_spec. reflexivity. Qed.

Lemma ltb_nan_r (x : number) : (x <? nan)%float = false.
Proof.
  rewrite FloatAxioms.ltb_spec, Prim2SF_nan. unfold SFltb, SFcompare.
  by destruct (Prim2SF x) as [[]|[]| |[]].
Qed.

Lemma sub_nan_l (x : number) : (nan - x)%float = nan.
Proof. apply Prim2SF_inj. rewrite sub_spec. reflexivity. Qed.

Lemma div_nan_l (x : number) : (nan / x)%float = nan.
Proof. apply Prim2SF_inj. rewrite div_spec. reflexivity. Qed.

Lemma mul_nan_l (x : number) : (nan * x)%float = nan.
Proof. apply Prim2SF_inj. rewrite mul_spec. reflexivity. Qed.

(** The bounding box skips a coordinate that is not a number. *)
Lemma axis_min_from_skip (k : nat) (l1 l2 : list (list number)) (p : list number)
    (m0 : number) :
  elem p k = nan ->
  axis_min_from k (l1 ++ p :: l2) m0 = axis_min_from k (l1 ++ l2) m0.
Proof.
  intros Hp. unfold axis_min_from. rewrite !fold_left_app. cbn [fold_left].
  by rewrite Hp, ltb_nan_l.
Qed.

Lemma axis_max_from_skip (k : nat) (l1 l2 : list (list number)) (p : list number)
    (m0 : number) :
  elem p k = nan ->
  axis_max_from k (l1 ++ p :: l2) m0 = axis_max_from k (l1 ++ l2) m0.
Proof.
  intros Hp. unfold axis_max_from. rewrite !fold_left_app. cbn [fold_left].
  by rewrite Hp, ltb_nan_r.
Qed.

Lemma axis_scale_skip (k : nat) (l1 l2 : list (list number)) (p : list number)
    (width height pad v : number) :
  elem p k = nan ->
  axis_scale k (l1 ++ p :: l2) width height pad v
  = axis_scale k (l1 ++ l2) width height pad v.
Proof.
  intros Hp. unfold axis_scale, axis_span, axis_min, axis_max.
  by rewrite axis_min_from_skip, axis_max_from_skip.
Qed.

Lemma axis_scale_nan (k : nat) (coords : list (list number)) (width height pad : number) :
  axis_scale k coords width height pad nan = nan.
Proof.
  unfold axis_scale. by rewrite sub_nan_l, div_nan_l, mul_nan_l, add_nan_r.
Qed.

(** X8: a point whose two coordinates are not numbers (an empty array, for
    one) is left out of the bounding box: the other points are placed as if
    it were absent, in their order, and the point itself is placed at
    [[NaN, NaN]]. *)
Theorem normalize2D_skips_nan_point (l1 l2 : list (list number)) (p : list number)
    (width height pad : number) :
  PrimFloat.is_nan (elem p 0) = true -> PrimFloat.is_nan (elem p 1) = true ->
  normalize2D (l1 ++ p :: l2) width height pad
  = take (length l1) (normalize2D (l1 ++ l2) width height pad)
    ++ [nan; nan] :: drop (length l1) (normalize2D (l1 ++ l2) width height pad).
Proof.
  intros H0 H1. apply is_nan_eq in H0, H1.
  rewrite !normalize2D_unfold.
  rewrite !map_app. cbn [map].
  rewrite take_app_length', drop_app_length' by (by rewrite length_map).
  rewrite H0, H1, !axis_scale_nan.
  f_equal; [|f_equal]; apply map_ext; intros q;
    by rewrite !axis_scale_skip.
Qed.

Lemma normalize2D_skips_nan_point_witness :
  normalize2D ([[0; 0]]%float ++ [] :: [[10; 10]]%float) 100 100 10
  = take 1 (normalize2D [[0; 0]; [10; 10]]%float 100 100 10)
    ++ [nan; nan] :: drop 1 (normalize2D [[0; 0]; [10; 10]]%float 100 100 10).
Proof.
  apply (normalize2D_skips_nan_point [[0; 0]]%float [[10; 10]]%float [] 100 100 10);
    reflexivity.
Defined.

(** ** The toy embedding *)

(** The 32-bit FNV-1a hash in unsigned arithmetic: offset basis 2166136261,
    prime 16777619, every step reduced modulo [2^32]. *)
Definition fnv1a32 (tri : jsstring) : Z :=
  fold_left (fun h c => (Z.lxor h c * 16777619) mod 2 ^ 32)%Z tri 2166136261%Z.

Lemma to_int32_mod (z : Z) : (to_int32 z mod 2 ^ 32 = z mod 2 ^ 32)%Z.
Proof.
  unfold to_int32. rewrite Zminus_mod_idemp_l. f_equal. lia.
Qed.

Lemma lxor_mod (a b : Z) :
  (Z.lxor a b mod 2 ^ 32 = Z.lxor (a mod 2 ^ 32) (b mod 2 ^ 32))%Z.
Proof.
  apply Z.bits_inj'. intros n Hn. rewrite Z.lxor_spec.
  destruct (Z.lt_ge_cases n 32) as [Hlt|Hge].
  - rewrite !Z.mod_pow2_bits_low by lia. by rewrite Z.lxor_spec.
  - rewrite !Z.mod_pow2_bits_high by lia. done.
Qed.

Lemma fnv_step_mod (h1 h2 c : Z) :
  (h1 mod 2 ^ 32 = h2 mod 2 ^ 32)%Z ->
  (imul (Z.lxor (to_int32 h1) (to_int32 c)) 16777619 mod 2 ^ 32
   = (Z.lxor h2 c * 16777619) mod 2 ^ 32)%Z.
Proof.
  intros H. unfold imul. rewrite to_int32_mod.
  rewrite Zmult_mod, !to_int32_mod, <- Zmult_mod.
  rewrite (Zmult_mod (Z.lxor _ _)), (Zmult_mod (Z.lxor h2 c)).
  rewrite !lxor_mod, !to_int32_mod. by rewrite H.
Qed.

Lemma fnv_fold_mod (tri : jsstring) (h1 h2 : Z) :
  (h1 mod 2 ^ 32 = h2 mod 2 ^ 32)%Z ->
  (fold_left (fun h c => imul (Z.lxor (to_int32 h) (to_int32 c)) 16777619) tri h1
     mod 2 ^ 32
   = fold_left (fun h c => (Z.lxor h c * 16777619) mod 2 ^ 32) tri h2 mod 2 ^ 32)%Z.
Proof.
  revert h1 h2. induction tri as [|c tri IH]; intros h1 h2 H; simpl; [done|].
  apply IH. rewrite Z.mod_mod by lia. by apply fnv_step_mod.
Qed.

Lemma fnv1a32_range (tri : jsstring) : (0 <= fnv1a32 tri < 2 ^ 32)%Z.
Proof.
  unfold fnv1a32.
  assert (H : forall h, (0 <= h < 2 ^ 32)%Z ->
            (0 <= fold_left (fun h c => (Z.lxor h c * 16777619) mod 2 ^ 32) tri h
             < 2 ^ 32)%Z).
  { induction tri as [|c tri IH]; intros h Hh; simpl; [done|].
    apply IH. apply Z.mod_pos_bound. lia. }
  apply H. lia.
Qed.

(** X9: the hash built from [^], [Math.imul] and [>>> 0] on signed 32-bit
    values is the 32-bit FNV-1a hash of the code units; it is an unsigned
    32-bit integer, so for every dimension [dim >= 1] the bucket
    [hashTri(tri) % dim] is an index of the vector. *)
Theorem hashTri_is_fnv1a32 (tri : jsstring) :
  hashTri tri = fnv1a32 tri /\
  (0 <= hashTri tri < 2 ^ 32)%Z /\
  (forall dim, 1 <= dim -> Z.to_nat (hashTri tri mod Z.of_nat dim) < dim).
Proof.
  assert (Heq : hashTri tri = fnv1a32 tri).
  { unfold hashTri, to_uint32.
    change 0x01000193%Z with 16777619%Z. change 0x811c9dc5%Z with 2166136261%Z.
    rewrite (fnv_fold_mod tri _ 2166136261%Z) by done.
    fold (fnv1a32 tri). apply Z.mod_small. apply fnv1a32_range. }
  split; [exact Heq|]. rewrite Heq. split; [apply fnv1a32_range|].
  intros dim Hdim.
  pose proof (Z.mod_pos_bound (fnv1a32 tri) (Z.of_nat dim)). lia.
Qed.

Lemma fold_insert_length {A B} (f : list A -> B -> nat) (g : list A -> B -> A)
    (l : list B) (v : list A) :
  length (fold_left (fun v i => <[f v i := g v i]> v) l v) = length v.
Proof.
  revert v. induction l as [|i l IH]; intros v; simpl; [done|].
  by rewrite IH, length_insert.
Qed.

Section ToyEmbeddingShape.

Variable toLowerCase : jsstring -> jsstring.

Lemma embedWordToy_length (word : jsstring) (dim : nat) :
  length (embedWordToy toLowerCase word dim) = dim.
Proof.
  unfold embedWordToy.
  rewrite (fold_insert_length (fun _ i => i)).
  rewrite (fold_insert_length
             (fun _ i => Z.to_nat (hashTri (take 3 (drop i _)) mod Z.of_nat dim))
             (fun v i => fround (elem v (Z.to_nat (hashTri (take 3 (drop i _))
                                                    mod Z.of_nat dim)) + 1)%float)).
  apply length_replicate.
Qed.

(** X10: the vector of a word has exactly [dim] entries, whatever the word;
    the similarity of the vectors of two words therefore does not depend on
    the order in which the words are given. *)
Theorem embedWordToy_similarity_symmetric (word word' : jsstring) (dim : nat) :
  length (embedWordToy toLowerCase word dim) = dim /\
  cosine (embedWordToy toLowerCase word dim) (embedWordToy toLowerCase word' dim)
  = cosine (embedWordToy toLowerCase word' dim) (embedWordToy toLowerCase word dim).
Proof.
  split; [apply embedWordToy_length|].
  unfold cosine. apply dot_comm. by rewrite !embedWordToy_length.
Qed.

End ToyEmbeddingShape.

(** ** Integers, [Math.floor], [Math.max] and [Math.min] *)

Lemma RN_int (k : Z) : (0 < k < 2 ^ 53)%Z -> RN (k * 2 ^ 1074) = (k * 2 ^ 1074)%Z.
Proof.
  intros [Hk0 Hk]. unfold RN.
  rewrite (Zdigits2_mul_pow2 k 1074) by lia.
  assert (Hd : (Zdigits2 k <= 53)%Z) by (apply Zdigits2_le; lia).
  pose proof (Zdigits2_nonneg k) as Hd0.
  set (n := Z.max 0 (Zdigits2 k + 1074 - 53)).
  assert (Hn : (0 <= n <= 1074)%Z) by lia.
  replace (k * 2 ^ 1074)%Z with ((k * 2 ^ (1074 - n)) * 2 ^ n)%Z.
  2:{ rewrite <- Z.mul_assoc, <- (Z.pow_add_r 2 (1074 - n) n) by lia.
      by replace (1074 - n + n)%Z with 1074%Z by lia. }
  rewrite rne_shift_exact by lia.
  apply Z.min_r.
  rewrite <- Z.mul_assoc, <- (Z.pow_add_r 2 (1074 - n) n) by lia.
  replace (1074 - n + n)%Z with 1074%Z by lia.
  assert (0 < 2 ^ 1074)%Z by (by apply pow2_pos).
  replace (2 ^ 2098)%Z with (2 ^ 1024 * 2 ^ 1074)%Z
    by (rewrite <- (Z.pow_add_r 2 1024 1074); [reflexivity|lia|lia]).
  assert (2 ^ 53 <= 2 ^ 1024)%Z by (apply Z.pow_le_mono_r; lia).
  nia.
Qed.

Lemma RNZ_int (k : Z) : (- 2 ^ 53 < k < 2 ^ 53)%Z -> RNZ (k * 2 ^ 1074) = (k * 2 ^ 1074)%Z.
Proof.
  intros Hk. assert (HP : (0 < 2 ^ 1074)%Z) by (by apply pow2_pos).
  destruct (Z.lt_trichotomy k 0) as [Hneg|[->|Hpos]].
  - replace (k * 2 ^ 1074)%Z with (- ((- k) * 2 ^ 1074))%Z by lia.
    rewrite RNZ_opp, RNZ_pos by nia. rewrite RN_int by lia. done.
  - reflexivity.
  - rewrite RNZ_pos by nia. apply RN_int. lia.
Qed.

Lemma of_uint63_key (z : Z) :
  (0 <= z < 2 ^ 53)%Z ->
  is_finite (of_uint63 (Uint63.of_Z z)) = true /\
  key (of_uint63 (Uint63.of_Z z)) = (z * 2 ^ 1074)%Z.
Proof.
  intros Hz.
  assert (Hto : Uint63.to_Z (Uint63.of_Z z) = z).
  { rewrite Uint63.of_Z_spec. apply Z.mod_small.
    split; [lia|]. eapply Z.lt_le_trans; [apply Hz|]. by vm_compute. }
  destruct (binary_normalize_key z 0) as [Hnan Hkey]; [lia|].
  assert (Hk : key (of_uint63 (Uint63.of_Z z)) = (z * 2 ^ 1074)%Z).
  { unfold key. rewrite of_uint63_spec, Hto, Hkey. apply RNZ_int. lia. }
  split; [|exact Hk].
  apply finite_of_key.
  - rewrite <- Prim2SF_is_nan, of_uint63_spec, Hto. exact Hnan.
  - rewrite Hk. assert (0 < 2 ^ 1074)%Z by (by apply pow2_pos).
    replace (2 ^ 2098)%Z with (2 ^ 1024 * 2 ^ 1074)%Z
      by (rewrite <- (Z.pow_add_r 2 1024 1074); [reflexivity|lia|lia]).
    assert (2 ^ 53 <= 2 ^ 1024)%Z by (apply Z.pow_le_mono_r; lia).
    nia.
Qed.

Lemma opp_key (x : number) :
  PrimFloat.is_nan (- x) = PrimFloat.is_nan x /\
  is_finite (- x) = is_finite x /\
  key (- x) = (- key x)%Z.
Proof.
  rewrite <- !Prim2SF_is_nan, !is_finite_SF. unfold key. rewrite opp_spec.
  destruct (Prim2SF x) as [sx|sx| |sx mx ex]; simpl; repeat split; try done;
    destruct sx; simpl; lia.
Qed.

Lemma of_int_key (z : Z) :
  (- 2 ^ 53 < z < 2 ^ 53)%Z ->
  is_finite (Math.of_int z) = true /\ key (Math.of_int z) = (z * 2 ^ 1074)%Z.
Proof.
  intros Hz. unfold Math.of_int. destruct (Z.ltb_spec z 0) as [Hneg|Hpos].
  - destruct (of_uint63_key (- z)) as [Hf Hk]; [lia|].
    destruct (opp_key (of_uint63 (Uint63.of_Z (- z)))) as (_ & Hf' & Hk').
    rewrite Hf', Hk', Hk. split; [exact Hf|lia].
  - apply of_uint63_key. lia.
Qed.

(** [Math.floor] of a finite number is finite, and its value is the integer
    part of the value, rounded down. *)
Lemma floor_key (x : number) :
  is_finite x = true ->
  is_finite (Math.floor x) = true /\
  key (Math.floor x) = (key x / 2 ^ 1074 * 2 ^ 1074)%Z /\
  (- 2 ^ 53 < key x / 2 ^ 1074 < 2 ^ 53 \/ Math.floor x = x)%Z.
Proof.
  intros Fx. pose proof (Prim2SF_valid x) as V.
  assert (HP : (0 < 2 ^ 1074)%Z) by (by apply pow2_pos).
  assert (Hkx : key x = SFkey (Prim2SF x)) by reflexivity.
  unfold Math.floor. pose proof Fx as Fx'. rewrite is_finite_SF in Fx'.
  destruct (Prim2SF x) as [sx|sx| |sx m e] eqn:E; try discriminate.
  - split; [exact Fx|]. split; [|by right]. by rewrite Hkx.
  - cbn [SFkey] in Hkx. destruct (valid_finite _ _ _ V) as (He & Hm & _).
    destruct (Z.leb_spec 0 e) as [He0|He0].
    + split; [exact Fx|]. split; [|by right]. rewrite Hkx.
      rewrite (Z.pow_add_r 2 e 1074) by lia.
      destruct sx; cbn [cond_Zopp].
      * replace (- (Zpos m * (2 ^ e * 2 ^ 1074)))%Z
          with ((- (Zpos m * 2 ^ e)) * 2 ^ 1074)%Z by lia.
        by rewrite Z.div_mul by lia.
      * replace (Zpos m * (2 ^ e * 2 ^ 1074))%Z
          with ((Zpos m * 2 ^ e) * 2 ^ 1074)%Z by lia.
        by rewrite Z.div_mul by lia.
    + assert (Hdiv : (key x / 2 ^ 1074 = cond_Zopp sx (Zpos m) / 2 ^ (- e))%Z).
      { rewrite Hkx.
        replace (2 ^ 1074)%Z with (2 ^ (- e) * 2 ^ (e + 1074))%Z
          by (rewrite <- (Z.pow_add_r 2 (- e) (e + 1074)) by lia; f_equal; lia).
        replace (cond_Zopp sx (Zpos m * 2 ^ (e + 1074)))
          with (cond_Zopp sx (Zpos m) * 2 ^ (e + 1074))%Z
          by (destruct sx; cbn [cond_Zopp]; lia).
        apply Z.div_mul_cancel_r.
        - assert (0 < 2 ^ (- e))%Z by (apply pow2_pos; lia). lia.
        - assert (0 < 2 ^ (e + 1074))%Z by (apply pow2_pos; lia). lia. }
      rewrite Hdiv.
      assert (Hz : (- 2 ^ 53 < cond_Zopp sx (Zpos m) / 2 ^ (- e) < 2 ^ 53)%Z).
      { assert (H2 : (0 < 2 ^ (- e))%Z) by (apply pow2_pos; lia).
        split.
        - apply Z.lt_le_trans with (- Zpos m)%Z; [lia|].
          apply Z.div_le_lower_bound; [done|]. destruct sx; cbn [cond_Zopp]; nia.
        - apply Z.div_lt_upper_bound; [done|]. destruct sx; cbn [cond_Zopp]; nia. }
      destruct (of_int_key _ Hz) as [Hf Hk]. split; [exact Hf|]. split; [exact Hk|].
      by left.
Qed.

Lemma floor_not_finite (x : number) : is_finite x = false -> Math.floor x = x.
Proof.
  rewrite is_finite_SF. unfold Math.floor.
  by destruct (Prim2SF x) as [sx|sx| |sx m e].
Qed.

Lemma floor_not_nan (x : number) :
  PrimFloat.is_nan x = false -> PrimFloat.is_nan (Math.floor x) = false.
Proof.
  intros Hn. destruct (is_finite x) eqn:F.
  - apply is_finite_not_nan. by apply floor_key.
  - by rewrite floor_not_finite.
Qed.

Section MaxMin.

Variables x y : number.
Hypothesis Hx : PrimFloat.is_nan x = false.
Hypothesis Hy : PrimFloat.is_nan y = false.

Lemma max_key :
  PrimFloat.is_nan (Math.max x y) = false /\
  key (Math.max x y) = Z.max (key x) (key y) /\
  (Math.max x y = x \/ Math.max x y = y).
Proof.
  unfold Math.max. rewrite Hx, Hy. cbn [orb].
  rewrite (ltb_key x y Hx Hy), (ltb_key y x Hy Hx).
  destruct (Z.ltb_spec (key x) (key y)); [split; [done|split; [lia|by right]]|].
  destruct (Z.ltb_spec (key y) (key x)); [split; [done|split; [lia|by left]]|].
  destruct (get_sign x); (split; [done|split; [lia|auto]]).
Qed.

Lemma min_key :
  PrimFloat.is_nan (Math.min x y) = false /\
  key (Math.min x y) = Z.min (key x) (key y) /\
  (Math.min x y = x \/ Math.min x y = y).
Proof.
  unfold Math.min. rewrite Hx, Hy. cbn [orb].
  rewrite (ltb_key x y Hx Hy), (ltb_key y x Hy Hx).
  destruct (Z.ltb_spec (key x) (key y)); [split; [done|split; [lia|by left]]|].
  destruct (Z.ltb_spec (key y) (key x)); [split; [done|split; [lia|by right]]|].
  destruct (get_sign x); (split; [done|split; [lia|auto]]).
Qed.

End MaxMin.

(** ** [heatColor] *)

(** The hue and the lightness computed for a value of [[0, 1]]. *)
Lemma heat_ranges (v : number) :
  (0 <=? v)%float = true -> (v <=? 1)%float = true ->
  (0 <=? 220 - 220 * v)%float = true /\ (220 - 220 * v <=? 220)%float = true /\
  (35 <=? 35 + 25 * v)%float = true /\ (35 + 25 * v <=? 60)%float = true.
Proof.
  intros H0 H1.
  destruct (between_key 0 v 1 eq_refl eq_refl H0 H1) as [Fv Hv].
  change (key 0) with 0%Z in Hv.
  rewrite (mul_comm 220 v), (mul_comm 25 v).
  destruct (scale_position v 220 Fv Hv eq_refl) as [Fu Hu]; [by vm_compute|].
  destruct (scale_position v 25 Fv Hv eq_refl) as [Fw Hw]; [by vm_compute|].
  destruct (sub_key 220 (v * 220) eq_refl Fu) as [Nh Kh].
  assert (Hh : (0 <= key (220 - v * 220) <= key 220)%Z).
  { rewrite Kh. split.
    - change 0%Z with (RNZ 0). apply RNZ_mono. lia.
    - rewrite <- (RNZ_key 220 eq_refl) at 2. apply RNZ_mono. lia. }
  rewrite !leb_key by done. change (key 0) with 0%Z.
  split; [apply Z.leb_le; lia|]. split; [apply Z.leb_le; lia|].
  destruct (offset_range 35 (v * 25) 25 eq_refl Fw eq_refl Hw) as [Hl1 Hl2].
  split; [exact Hl1|exact Hl2].
Qed.

Lemma heat_components (Number_toString : number -> jsstring) (v : number) :
  (0 <=? v)%float = true -> (v <=? 1)%float = true ->
  exists hue light,
    heatColor Number_toString v = hsl Number_toString hue 70 light /\
    (0 <=? hue)%float = true /\ (hue <=? 220)%float = true /\
    (35 <=? light)%float = true /\ (light <=? 60)%float = true.
Proof.
  intros H0 H1. exists (220 - 220 * v)%float, (35 + 25 * v)%float.
  split; [reflexivity|]. by apply heat_ranges.
Qed.

(** X11: for a similarity [v] in [[0, 1]] the colour is
    [hsl(hue, 70%, light%)] with the hue [220 - 220 * v], which lies in
    [[0, 220]], and the lightness [35 + 25 * v], which lies in
    [[35, 60]]. *)
Theorem heatColor_in_gamut (Number_toString : number -> jsstring) (v : number) :
  (0 <=? v)%float = true -> (v <=? 1)%float = true ->
  heatColor Number_toString v
  = hsl Number_toString (220 - 220 * v)%float 70 (35 + 25 * v)%float /\
  (0 <=? 220 - 220 * v)%float = true /\ (220 - 220 * v <=? 220)%float = true /\
  (35 <=? 35 + 25 * v)%float = true /\ (35 + 25 * v <=? 60)%float = true.
Proof.
  intros H0 H1. split; [reflexivity|]. by apply heat_ranges.
Qed.

Lemma heatColor_in_gamut_witness :
  heatColor (fun x => [key x]) 0.25
  = hsl (fun x => [key x]) (220 - 220 * 0.25)%float 70 (35 + 25 * 0.25)%float /\
  (0 <=? 220 - 220 * 0.25)%float = true /\ (220 - 220 * 0.25 <=? 220)%float = true /\
  (35 <=? 35 + 25 * 0.25)%float = true /\ (35 + 25 * 0.25 <=? 60)%float = true.
Proof. apply (heatColor_in_gamut (fun x => [key x]) 0.25); reflexivity. Defined.

(** ** The cluster count *)

Lemma SFnonneg_not_nan (x : number) :
  SFnonneg (Prim2SF x) = true -> PrimFloat.is_nan x = false.
Proof. rewrite <- Prim2SF_is_nan. by destruct (Prim2SF x) as [sx|[]| |[] m e]. Qed.

Lemma key_pos_SF (x : number) :
  PrimFloat.is_nan x = false -> (0 < key x)%Z ->
  match Prim2SF x with
  | S754_infinity false | S754_finite false _ _ => True
  | _ => False
  end.
Proof.
  rewrite <- Prim2SF_is_nan. unfold key. pose proof (Prim2SF_valid x) as V.
  assert (0 < 2 ^ 2098)%Z by (by apply pow2_pos).
  destruct (Prim2SF x) as [sx|[]| |[] m e]; simpl; try done; try lia.
  all: try (pose proof (finite_key_bounds _ _ _ V); lia).
Qed.

Lemma div_three_nonneg (a : number) :
  PrimFloat.is_nan a = false -> (0 < key a)%Z -> SFnonneg (Prim2SF (a / 3)) = true.
Proof.
  intros Na Ka. pose proof (key_pos_SF a Na Ka) as Hs.
  assert (H3 : Prim2SF 3 = S754_finite false 6755399441055744 (-51)) by reflexivity.
  rewrite div_spec, H3. destruct (Prim2SF a) as [sx|[]| |[] m e]; try done.
  unfold SF64div, SFdiv. rewrite SFdiv_core_spec. apply bra_nonneg.
  apply Z.div_pos; [|lia].
  apply Z.mul_nonneg_nonneg; [lia|]. apply Z.pow_nonneg. lia.
Qed.

Lemma sqrt_nonneg (q : number) :
  SFnonneg (Prim2SF q) = true -> SFnonneg (Prim2SF (Math.sqrt q)) = true.
Proof.
  unfold Math.sqrt. rewrite sqrt_spec.
  destruct (Prim2SF q) as [sx|[]| |[] m e]; try done.
  intros _. unfold SF64sqrt, SFsqrt, SFsqrt_core_binary.
  match goal with
  | |- context [Z.sqrtrem ?a] =>
      pose proof (Z.sqrtrem_sqrt a) as Hs; pose proof (Z.sqrt_nonneg a) as Hn;
      destruct (Z.sqrtrem a) as [r1 r2]
  end.
  cbn [fst] in Hs. cbv beta iota zeta. apply bra_nonneg. lia.
Qed.

Lemma num_of_nat_not_nan (n : nat) : PrimFloat.is_nan (num_of_nat n) = false.
Proof.
  unfold num_of_nat. rewrite <- Prim2SF_is_nan, of_uint63_spec.
  apply binary_normalize_key. lia.
Qed.

Lemma key_int (z : number) (k : Z) :
  is_finite z = true -> key z = (k * 2 ^ 1074)%Z -> (2 <= k <= 5)%Z ->
  exists c : nat, 2 <= c <= 5 /\ z = num_of_nat c.
Proof.
  intros Fz Hk Hr.
  assert (Hc : k = 2%Z \/ k = 3%Z \/ k = 4%Z \/ k = 5%Z) by lia.
  assert (Hpick : forall (c : nat) (v : number),
            key v = (Z.of_nat c * 2 ^ 1074)%Z -> is_finite v = true ->
            SFzero (Prim2SF v) = false -> v = num_of_nat c ->
            k = Z.of_nat c -> z = num_of_nat c).
  { intros c v Hv Fv Zv Ev Hkc. subst k. rewrite <- Hv in Hk.
    destruct (key_eq_finite z v Fz Fv Hk) as [->|[_ Hz]]; [exact Ev|congruence]. }
  destruct Hc as [-> | [-> | [-> | ->]]].
  - exists 2. split; [lia|]. by apply (Hpick 2 2%float).
  - exists 3. split; [lia|]. by apply (Hpick 3 3%float).
  - exists 4. split; [lia|]. by apply (Hpick 4 4%float).
  - exists 5. split; [lia|]. by apply (Hpick 5 5%float).
Qed.

(** X12: for every number of points the cluster count is one of the
    integers 2, 3, 4, 5; [kmeans] run with it returns, and every label it
    gives is below 5. *)
Theorem cluster_count_between_2_and_5 (n : nat) :
  exists k : nat, 2 <= k <= 5 /\ cluster_count n = num_of_nat k /\
    forall (points : list (list number)) (iters : nat),
      exists res, kmeans points k iters = Normal res /\
                  length (labels res) = length points /\
                  Forall (fun c => c < 5) (labels res).
Proof.
  assert (Hcount : exists k : nat, 2 <= k <= 5 /\ cluster_count n = num_of_nat k).
  { unfold cluster_count.
    destruct (max_key 1 (num_of_nat n) eq_refl (num_of_nat_not_nan n)) as (Na & Ka & _).
    set (a := Math.max 1 (num_of_nat n)) in *.
    assert (Ka' : (0 < key a)%Z).
    { rewrite Ka, key_one. assert (0 < 2 ^ 1074)%Z by (by apply pow2_pos). lia. }
    pose proof (sqrt_nonneg _ (div_three_nonneg a Na Ka')) as Hy.
    apply SFnonneg_not_nan in Hy.
    set (y := Math.sqrt (a / 3)) in *.
    pose proof (floor_not_nan y Hy) as Nz.
    destruct (max_key 2 (Math.floor y) eq_refl Nz) as (Nm & Km & Em).
    set (m := Math.max 2 (Math.floor y)) in *.
    destruct (min_key 5 m eq_refl Nm) as (Nr & Kr & Er).
    destruct Er as [Er|Er]; [exists 5; split; [lia|exact Er]|].
    rewrite Er in Kr |- *.
    assert (Hrange : (key 2 <= key m <= key 5)%Z) by lia.
    destruct Em as [Em|Em]; [exists 2; split; [lia|exact Em]|].
    rewrite Em in Hrange |- *.
    assert (Fz : is_finite (Math.floor y) = true).
    { apply finite_of_key; [done|].
      assert (0 < 2 ^ 2098)%Z by (by apply pow2_pos).
      change (key 2) with (2 * 2 ^ 1074)%Z in Hrange.
      assert (key 5 < 2 ^ 2098)%Z by (by vm_compute).
      assert (0 < 2 ^ 1074)%Z by (by apply pow2_pos). lia. }
    assert (Fy : is_finite y = true).
    { destruct (is_finite y) eqn:F; [done|].
      rewrite (floor_not_finite y F) in Fz. congruence. }
    destruct (floor_key y Fy) as (_ & Kz & _).
    apply (key_int _ (key y / 2 ^ 1074)); [done|done|].
    change (key 2) with (2 * 2 ^ 1074)%Z in Hrange.
    change (key 5) with (5 * 2 ^ 1074)%Z in Hrange.
    rewrite Kz in Hrange. assert (0 < 2 ^ 1074)%Z by (by apply pow2_pos). nia. }
  destruct Hcount as (k & Hk & Heq). exists k. split; [exact Hk|]. split; [exact Heq|].
  intros points iters. destruct points as [|p points].
  - exists {| labels := []; centers := [] |}. by repeat split.
  - destruct (kmeans_run (p :: points) k iters) as (res & Hres & Hlen & _ & Hall);
      [simpl; lia|lia|].
    exists res. split; [exact Hres|]. split; [exact Hlen|].
    eapply Forall_impl; [exact Hall|]. simpl. intros c Hc. lia.
Qed.

(** ** The pseudo-random weights of the fallback projection *)

Lemma opp_involutive (x : number) : (- - x)%float = x.
Proof.
  apply Prim2SF_inj. rewrite !opp_spec.
  destruct (Prim2SF x) as [sx|sx| |sx m e]; simpl; by rewrite ?negb_involutive.
Qed.

Lemma mul_opp_l (x y : number) : (- x * y)%float = (- (x * y))%float.
Proof.
  apply Prim2SF_inj. rewrite opp_spec, !mul_spec, opp_spec. unfold SF64mul.
  destruct (Prim2SF x) as [sx|sx| |sx mx ex], (Prim2SF y) as [sy|sy| |sy my ey];
    simpl; try done; try (by destruct sx, sy).
  rewrite <- bra_opp. by destruct sx, sy.
Qed.

(** A factor of magnitude at most 1 keeps a finite number finite. *)
Lemma mul_unit_finite (t W : number) :
  is_finite t = true -> (- key 1 <= key t <= key 1)%Z ->
  is_finite W = true -> (0 <= key W)%Z ->
  is_finite (t * W) = true.
Proof.
  intros Ft Ht FW HW. destruct (Z.le_gt_cases 0 (key t)) as [Hpos|Hneg].
  - apply scale_position; try done. lia.
  - destruct (opp_key t) as (_ & Fo & Ko).
    rewrite <- (opp_involutive t), mul_opp_l.
    destruct (opp_key (- t * W)) as (_ & -> & _).
    apply scale_position; try done; [congruence|lia].
Qed.

(** The sum of two non-negative integers is exact below [2^53]. *)
Lemma add_int_key (x y : number) (zx zy : Z) :
  is_finite x = true -> key x = (zx * 2 ^ 1074)%Z ->
  is_finite y = true -> key y = (zy * 2 ^ 1074)%Z ->
  (0 <= zx)%Z -> (0 <= zy)%Z -> (zx + zy < 2 ^ 53)%Z ->
  is_finite (x + y) = true /\ key (x + y) = ((zx + zy) * 2 ^ 1074)%Z.
Proof.
  intros Fx Kx Fy Ky Hx Hy Hs.
  assert (HP : (0 < 2 ^ 1074)%Z) by (by apply pow2_pos).
  assert (Hbig : (2 ^ 53 * 2 ^ 1074 < 2 ^ 2098)%Z).
  { rewrite <- Z.pow_add_r by lia. apply Z.pow_lt_mono_r; lia. }
  destruct (add_key x y Fx Fy) as [Na Ka].
  rewrite Kx, Ky, <- Z.mul_add_distr_r, RNZ_int in Ka by lia.
  split; [|exact Ka]. apply finite_of_key; [done|]. rewrite Ka. nia.
Qed.

Section RandomWeights.

(** [Math.sin] of the host: on a finite argument its value lies in
    [[-1, 1]]; nothing is asked of it on NaN and the infinities, where it
    is NaN. *)
Variable Math_sin : number -> number.
Hypothesis Math_sin_range :
  forall y, is_finite y = true ->
    (-1 <=? Math_sin y)%float = true /\ (Math_sin y <=? 1)%float = true.

Lemma rand_range (i : number) :
  is_finite (seed + i) = true ->
  (0 <=? rand Math_sin Math.floor i)%float = true /\
  (rand Math_sin Math.floor i <=? 1)%float = true /\
  (-0.5 <=? rand Math_sin Math.floor i - 0.5)%float = true /\
  (rand Math_sin Math.floor i - 0.5 <=? 0.5)%float = true.
Proof.
  intros Fi. unfold rand. set (sn := Math_sin (seed + i)).
  destruct (Math_sin_range (seed + i) Fi) as [H1 H2]. fold sn in H1, H2.
  destruct (between_key (-1) sn 1 eq_refl eq_refl H1 H2) as [Fs Hs].
  change (key (-1)) with (- key 1)%Z in Hs.
  assert (Fx : is_finite (sn * 10000) = true).
  { apply mul_unit_finite; first [done|by vm_compute]. }
  set (x := (sn * 10000)%float) in *.
  destruct (floor_key x Fx) as (Ff & Kf & _).
  destruct (sub_key x (Math.floor x) Fx Ff) as [Nr Kr].
  assert (HP : (0 < 2 ^ 1074)%Z) by (by apply pow2_pos).
  assert (Hfrac : (0 <= key x - key (Math.floor x) <= key 1)%Z).
  { rewrite Kf, key_one. pose proof (Z.div_mod (key x) (2 ^ 1074)).
    pose proof (Z.mod_pos_bound (key x) (2 ^ 1074) HP). lia. }
  assert (Hr : (0 <= key (x - Math.floor x) <= key 1)%Z).
  { rewrite Kr. split.
    - change 0%Z with (RNZ 0). apply RNZ_mono. lia.
    - rewrite <- (RNZ_key 1 eq_refl). apply RNZ_mono. lia. }
  set (r := (x - Math.floor x)%float) in *.
  assert (Fr : is_finite r = true).
  { apply finite_of_key; [done|]. rewrite key_one in Hr.
    assert (2 ^ 1074 < 2 ^ 2098)%Z by (apply Z.pow_lt_mono_r; lia). lia. }
  destruct (sub_key r 0.5 Fr eq_refl) as [Nw Kw].
  rewrite !leb_key by done. change (key 0) with 0%Z.
  split; [apply Z.leb_le; lia|]. split; [apply Z.leb_le; lia|].
  rewrite Kw. split; apply Z.leb_le.
  - rewrite <- (RNZ_key (-0.5) eq_refl). apply RNZ_mono.
    change (key (-0.5)) with (0 - key 0.5)%Z. lia.
  - rewrite <- (RNZ_key 0.5 eq_refl) at 2. apply RNZ_mono.
    rewrite key_one in Hr. change (key 0.5) with (2 ^ 1073)%Z.
    replace (2 ^ 1074)%Z with (2 * 2 ^ 1073)%Z in Hr
      by (rewrite <- (Z.pow_succ_r 2 1073) by lia; reflexivity).
    lia.
Qed.

(** X13: for every index [n] of the two weight vectors (an array index, so
    below [2^32]) the arguments [1337 + n] and [1337 + (n + 17)] of the sine
    are finite integers, and with the sine in [[-1, 1]] there, [rand(n)] and
    [rand(n + 17)] lie in [[0, 1]] (the upper end is reached when the scaled
    sine is a tiny negative number), so every weight [rand(..) - 0.5] of the
    fallback projection lies in [[-0.5, 0.5]]. *)
Theorem rand_in_unit_interval (n : nat) (i : number) :
  (Z.of_nat n < 2 ^ 32)%Z ->
  i = num_of_nat n \/ i = (num_of_nat n + 17)%float ->
  is_finite (seed + i) = true /\
  (0 <=? rand Math_sin Math.floor i)%float = true /\
  (rand Math_sin Math.floor i <=? 1)%float = true /\
  (-0.5 <=? rand Math_sin Math.floor i - 0.5)%float = true /\
  (rand Math_sin Math.floor i - 0.5 <=? 0.5)%float = true.
Proof.
  intros Hn Hi.
  assert (H32 : (2 ^ 32 + 2000 < 2 ^ 53)%Z) by (by vm_compute).
  destruct (of_uint63_key (Z.of_nat n)) as [Fn Kn]; [lia|].
  fold (num_of_nat n) in Fn, Kn.
  assert (Fi : is_finite (seed + i) = true).
  { destruct Hi as [-> | ->].
    - by apply (add_int_key seed (num_of_nat n) 1337 (Z.of_nat n)); [..|lia|lia|lia].
    - destruct (add_int_key (num_of_nat n) 17 (Z.of_nat n) 17) as [F17 K17];
        [done|done|done|done|lia|lia|lia|].
      by apply (add_int_key seed (num_of_nat n + 17) 1337 (Z.of_nat n + 17));
        [..|lia|lia|lia]. }
  split; [exact Fi|]. by apply rand_range.
Qed.

End RandomWeights.

Lemma rand_in_unit_interval_witness :
  is_finite (seed + num_of_nat 3) = true /\
  (0 <=? rand (fun y => if is_finite y then (-0x1p-60)%float else nan)
           Math.floor (num_of_nat 3))%float = true /\
  (rand (fun y => if is_finite y then (-0x1p-60)%float else nan)
     Math.floor (num_of_nat 3) <=? 1)%float = true /\
  (-0.5 <=? rand (fun y => if is_finite y then (-0x1p-60)%float else nan)
              Math.floor (num_of_nat 3) - 0.5)%float = true /\
  (rand (fun y => if is_finite y then (-0x1p-60)%float else nan)
     Math.floor (num_of_nat 3) - 0.5 <=? 0.5)%float = true.
Proof.
  assert (Hsin : forall y, is_finite y = true ->
            (-1 <=? (if is_finite y then (-0x1p-60)%float else nan))%float = true /\
            ((if is_finite y then (-0x1p-60)%float else nan) <=? 1)%float = true).
  { intros y Hy. rewrite Hy. split; reflexivity. }
  apply (rand_in_unit_interval _ Hsin 3); [by vm_compute|by left].
Defined.

(** ** The spotlight list and the word entry *)

(** A list that the comparator never asks to reorder is returned as it
    is. *)
Lemma js_sort_fixed {A} (cmp : A -> A -> number) (l : list A) :
  StronglySorted (fun a b => (0 <? cmp a b)%float = false) l -> js_sort cmp l = l.
Proof.
  induction l as [|x l IH]; intros Hs; [done|].
  apply StronglySorted_cons in Hs as [Hx Hl].
  change (js_sort cmp (x :: l)) with (sort_insert cmp x (js_sort cmp l)).
  rewrite IH by done. destruct l as [|y l]; [done|].
  inversion Hx as [|? ? Hxy _]; subst. simpl. by rewrite Hxy.
Qed.

Lemma StronglySorted_with {A} (R : relation A) (P : A -> Prop) (l : list A) :
  StronglySorted R l -> Forall P l ->
  StronglySorted (fun a b => R a b /\ P a /\ P b) l.
Proof.
  induction 1 as [|x l Hs IH Hx]; intros Hl; [constructor|].
  inversion Hl as [|? ? Px Pl]; subst. constructor; [by apply IH|].
  apply Forall_forall. intros y Hy. split; [|split; [done|]].
  - by eapply Forall_forall in Hx.
  - by eapply Forall_forall in Pl.
Qed.

Lemma at_index_nat {A} (a : list A) (i : nat) : Gallery.at_index a (Z.of_nat i) = a !! i.
Proof.
  unfold Gallery.at_index. destruct (Z.ltb_spec (Z.of_nat i) 0); [lia|].
  by rewrite Nat2Z.id.
Qed.

(** X15: when no similarity is NaN, the spotlight list of a selected point
    is its neighbor list in the same order: sorting it again by descending
    similarity changes nothing. *)
Theorem selectedNeighbors_keeps_order (vectors : list (list number)) (k i : nat) :
  comparable_similarities vectors -> i < length vectors ->
  exists out, nearestNeighbors vectors k !! i = Some out /\
    Gallery.selectedNeighbors (nearestNeighbors vectors k) (Some (Z.of_nat i))
    = Some (map (fun e => {| Gallery.index := j e; Gallery.sim := s e |}) out).
Proof.
  intros Hcmp Hi. eexists. split; [by apply nearestNeighbors_lookup|].
  unfold Gallery.selectedNeighbors. rewrite at_index_nat, nearestNeighbors_lookup by done.
  cbn [default]. f_equal. apply js_sort_fixed.
  assert (Hcomp : Forall comparable (sims_of vectors i)).
  { rewrite sims_of_map. apply Forall_fmap. apply Forall_forall.
    intros d Hd. apply list_elem_of_filter in Hd as [_ Hd]. apply elem_of_seq in Hd.
    unfold comparable. simpl. apply Hcmp; lia. }
  assert (Hsorted : StronglySorted precedes (js_sort comparefn (sims_of vectors i))).
  { apply js_sort_sorted; [done|]. rewrite sims_of_map.
    apply (StronglySorted_fmap (entry vectors i) lt); [|apply seq_filter_sorted].
    intros a b Hab. exact Hab. }
  apply (StronglySorted_fmap _ (fun a b => precedes a b /\ comparable a /\ comparable b)).
  - intros a b (Hab & Ha & Hb). cbn [Gallery.sim].
    change (s b - s a)%float with (comparefn a b).
    rewrite comparefn_pos by done. apply Z.ltb_ge.
    destruct Hab as [?|[? _]]; lia.
  - apply StronglySorted_with.
    + by apply StronglySorted_take.
    + apply Forall_take. by rewrite js_sort_perm.
Qed.

Lemma selectedNeighbors_keeps_order_witness :
  exists out,
    nearestNeighbors [[1; 0]; [0.5; 0]; [1; 1]; [0; 1]]%float 2 !! 0 = Some out /\
    Gallery.selectedNeighbors
      (nearestNeighbors [[1; 0]; [0.5; 0]; [1; 1]; [0; 1]]%float 2) (Some 0%Z)
    = Some (map (fun e => {| Gallery.index := j e; Gallery.sim := s e |}) out).
Proof.
  apply (selectedNeighbors_keeps_order [[1; 0]; [0.5; 0]; [1; 1]; [0; 1]]%float 2 0).
  - intros a b Ha Hb. simpl in Ha, Hb.
    destruct a as [|[|[|[|a]]]]; try lia;
      destruct b as [|[|[|[|b]]]]; try lia; reflexivity.
  - simpl; lia.
Defined.

Lemma findIndex_from_spec {A} (P : A -> bool) (a : list A) (i0 : Z) :
  (exists n x, Gallery.findIndex_from P a i0 = (i0 + Z.of_nat n)%Z /\
               a !! n = Some x /\ P x = true /\
               forall n' x', n' < n -> a !! n' = Some x' -> P x' = false) \/
  (Gallery.findIndex_from P a i0 = (-1)%Z /\ Forall (fun x => P x = false) a).
Proof.
  revert i0. induction a as [|x a IH]; intros i0; simpl.
  - right. by split.
  - destruct (P x) eqn:Px.
    + left. exists 0, x. split; [lia|]. split; [done|]. split; [done|]. intros; lia.
    + destruct (IH (i0 + 1)%Z) as [(n & y & Hf & Hy & Py & Hfirst)|[Hf Hall]].
      * left. exists (S n), y. split; [lia|]. split; [done|]. split; [done|].
        intros [|n'] x' Hn' Hx'; simpl in Hx'; [by inversion Hx'; subst|].
        apply (Hfirst n' x'); [lia|done].
      * right. split; [done|]. by constructor.
Qed.

Section WordEntry.

Variables toLowerCase trim : jsstring -> jsstring.

(** X16: the word entry keeps the gallery free of words that differ in case
    only: if no two words of the list have the same lower-case form, the
    same holds after [addWord], whatever was typed. *)
Theorem addWord_keeps_words_distinct (st : Gallery.state) :
  NoDup (map toLowerCase (Gallery.words st)) ->
  NoDup (map toLowerCase (Gallery.words (Gallery.addWord toLowerCase trim st))).
Proof.
  intros Hnd. unfold Gallery.addWord.
  destruct (bool_decide _); [done|].
  destruct (bool_decide (_ ∈ _)) eqn:Hin; [done|].
  apply bool_decide_eq_false in Hin. cbn [Gallery.words].
  rewrite map_app. apply NoDup_app. split; [done|]. split.
  - intros x Hx Hx'. apply list_elem_of_singleton in Hx'. by subst.
  - apply NoDup_singleton.
Qed.

(** X17: after [addWord] on an input that is not blank, the input box is
    empty, the old words are kept in place, and the selection is the index
    of a word of the list whose lower-case form is that of the trimmed
    input: the first such word when there was one, the word just
    appended otherwise. *)
Theorem addWord_selects_entered_word (st : Gallery.state) :
  trim (Gallery.newWord st) <> [] ->
  let st' := Gallery.addWord toLowerCase trim st in
  exists i x,
    Gallery.selected st' = Some (Z.of_nat i) /\
    Gallery.words st' !! i = Some x /\
    toLowerCase x = toLowerCase (trim (Gallery.newWord st)) /\
    (forall i' x', i' < i -> Gallery.words st' !! i' = Some x' ->
       toLowerCase x' <> toLowerCase (trim (Gallery.newWord st))) /\
    Gallery.newWord st' = [] /\
    Gallery.words st `prefix_of` Gallery.words st' /\
    length (Gallery.words st') <= S (length (Gallery.words st)).
Proof.
  intros Hw st'. subst st'. unfold Gallery.addWord.
  set (w := trim (Gallery.newWord st)) in *.
  rewrite bool_decide_eq_false_2 by done.
  destruct (bool_decide (_ ∈ _)) eqn:Hin.
  - apply bool_decide_eq_true in Hin. cbn [Gallery.words Gallery.selected Gallery.newWord].
    unfold Gallery.findIndex.
    destruct (findIndex_from_spec
                (fun x => bool_decide (toLowerCase x = toLowerCase w))
                (Gallery.words st) 0) as [(n & x & Hf & Hx & Px & Hfirst)|[_ Hall]].
    + exists n, x. rewrite Hf. apply bool_decide_eq_true in Px.
      split; [f_equal; lia|]. split; [done|]. split; [done|]. split.
      * intros i' x' Hi' Hx'. specialize (Hfirst i' x' Hi' Hx').
        by apply bool_decide_eq_false in Hfirst.
      * split; [done|]. split; [done|lia].
    + exfalso. apply list_elem_of_fmap in Hin as (x & Hx & Hxin).
      eapply Forall_forall in Hall; [|exact Hxin].
      apply bool_decide_eq_false in Hall. by apply Hall.
  - apply bool_decide_eq_false in Hin. cbn [Gallery.words Gallery.selected Gallery.newWord].
    exists (length (Gallery.words st)), w.
    split; [done|]. split; [by rewrite lookup_app_r, Nat.sub_diag by lia|].
    split; [done|]. split.
    + intros i' x' Hi' Hx'. rewrite lookup_app_l in Hx' by done.
      intros Heq. apply Hin. rewrite <- Heq. apply list_elem_of_fmap_2.
      by eapply list_elem_of_lookup_2.
    + split; [done|]. split; [by apply prefix_app_r|].
      rewrite length_app. simpl. lia.
Qed.

End WordEntry.

Lemma addWord_keeps_words_distinct_witness :
  NoDup (map toLowerCase_ascii
           (Gallery.words
              (Gallery.addWord toLowerCase_ascii (fun t => t)
                 {| Gallery.words := [str "art"; str "Dog"];
                    Gallery.newWord := str "DOG";
                    Gallery.selected := None |}))).
Proof.
  apply (addWord_keeps_words_distinct toLowerCase_ascii (fun t => t)).
  simpl. repeat constructor; cbv; intros H;
    repeat (apply elem_of_cons in H as [H|H]; [discriminate H|]);
    by apply elem_of_nil in H.
Defined.

Lemma addWord_selects_entered_word_witness :
  exists i x,
    Gallery.selected
      (Gallery.addWord toLowerCase_ascii (fun t => t)
         {| Gallery.words := [str "art"; str "Dog"];
            Gallery.newWord := str "DOG";
            Gallery.selected := None |}) = Some (Z.of_nat i) /\
    [str "art"; str "Dog"] !! i = Some x /\
    toLowerCase_ascii x = toLowerCase_ascii (str "DOG").
Proof.
  destruct (addWord_selects_entered_word toLowerCase_ascii (fun t => t)
              {| Gallery.words := [str "art"; str "Dog"];
                 Gallery.newWord := str "DOG";
                 Gallery.selected := None |})
    as (i & x & Hsel & Hx & Hlc & _).
  - discriminate.
  - exists i, x. split; [exact Hsel|]. split; [exact Hx|exact Hlc].
Defined.

(** *** Rounding a value that is not below a binary64 value *)

Lemma bra_result_exact_shift (q E : Z) :
  (0 <= q <= 2 ^ 53)%Z -> (-1074 <= E)%Z ->
  (q / 2 ^ rshift q E * 2 ^ rshift q E = q)%Z.
Proof.
  intros [Hq0 Hq] HE. unfold rshift. rewrite fexp_eq.
  destruct (Z.eq_dec q (2 ^ 53)%Z) as [->|Hne].
  - change (Zdigits2 (2 ^ 53)) with 54%Z.
    replace (Z.max 0 (Z.max (54 + E - 53) (-1074) - E)) with 1%Z by lia.
    reflexivity.
  - assert (Hd : (Zdigits2 q <= 53)%Z) by (apply Zdigits2_le; lia).
    replace (Z.max 0 (Z.max (Zdigits2 q + E - 53) (-1074) - E)) with 0%Z by lia.
    change (2 ^ 0)%Z with 1%Z. rewrite Z.div_1_r. lia.
Qed.

(** Rounding a value that is at least the binary64 value [mR * 2 ^ eR]
    gives a number (possibly infinite) that is not below it. *)
Lemma round_lower (N e : Z) (l : location) (mR : positive) (eR : Z) :
  (0 <= N)%Z -> (-1074 <= e)%Z ->
  valid_binary (S754_finite false mR eR) = true ->
  (Zpos mR * 2 ^ (eR + 1074) <= N * 2 ^ (e + 1074))%Z ->
  SFis_nan (binary_round_aux prec emax false N e l) = false /\
  (Zpos mR * 2 ^ (eR + 1074) <= SFkey (binary_round_aux prec emax false N e l))%Z.
Proof.
  intros HN He V Hle.
  pose proof (finite_key_bounds _ _ _ V) as HbR.
  destruct (valid_finite _ _ _ V) as (HeR & HmR & _).
  destruct (binary_round_aux_gen false N e l HN) as (q & Hq & ->).
  set (n0 := rshift N e) in *. set (E := (e + n0)%Z) in *.
  assert (Hn0 : (0 <= n0)%Z) by apply rshift_nonneg.
  pose proof (pow2_pos n0 Hn0) as HP0.
  pose proof (pow2_pos (e + 1074)) as HPe.
  pose proof (pow2_pos (eR + 1074)) as HPR.
  assert (HNpos : (0 < N)%Z) by nia.
  destruct (Zdigits2_bounds N HNpos) as (HdN & HloN & HhiN).
  set (dN := Zdigits2 N) in *.
  assert (Hn0eq : n0 = Z.max 0 (Z.max (dN + e - 53) (-1074) - e)).
  { unfold n0, rshift. by rewrite fexp_eq. }
  assert (HE : (-1074 <= E)%Z) by lia.
  pose proof (pow2_pos (E + 1074)) as HPE.
  set (q1 := (N / 2 ^ n0)%Z) in *.
  assert (Hq1lo : (0 <= q1)%Z) by (apply Z.div_pos; lia).
  assert (Hq1hi : (q1 < 2 ^ 53)%Z).
  { apply Z.div_lt_upper_bound; [lia|].
    rewrite <- (Z.pow_add_r 2 n0 53) by lia.
    eapply Z.lt_le_trans; [exact HhiN|]. apply Z.pow_le_mono_r; lia. }
  (* the truncated mantissa is still not below the bound *)
  assert (Hq1 : (Zpos mR * 2 ^ (eR + 1074) <= q1 * 2 ^ (E + 1074))%Z).
  { destruct (Z.eq_dec n0 0%Z) as [Hz|Hnz].
    - unfold q1, E. rewrite Hz. change (2 ^ 0)%Z with 1%Z.
      rewrite Z.div_1_r, Z.add_0_r. exact Hle.
    - assert (HEeq : E = Z.max (dN + e - 53) (-1074)) by lia.
      destruct (Z.le_gt_cases E eR) as [HEle|HEgt].
      + assert (Hdiv : (Zpos mR * 2 ^ (eR - E) <= q1)%Z).
        { apply Z.div_le_lower_bound; [lia|].
          apply (Z.mul_le_mono_pos_r _ _ (2 ^ (e + 1074))); [lia|].
          eapply Z.le_trans; [|exact Hle].
          rewrite (Z.mul_comm (2 ^ n0)), <- !Z.mul_assoc.
          rewrite <- (Z.pow_add_r 2 n0 (e + 1074)) by lia.
          rewrite <- (Z.pow_add_r 2 (eR - E)) by lia.
          replace (eR - E + (n0 + (e + 1074)))%Z with (eR + 1074)%Z by lia. lia. }
        eapply Z.le_trans; [|apply Z.mul_le_mono_nonneg_r; [lia|exact Hdiv]].
        rewrite <- Z.mul_assoc, <- (Z.pow_add_r 2 (eR - E)) by lia.
        replace (eR - E + (E + 1074))%Z with (eR + 1074)%Z by lia. lia.
      + assert (Hn0' : n0 = (dN - 53)%Z) by lia.
        assert (H52 : (2 ^ 52 <= q1)%Z).
        { apply Z.div_le_lower_bound; [lia|].
          rewrite <- (Z.pow_add_r 2 n0 52) by lia.
          replace (n0 + 52)%Z with (dN - 1)%Z by lia. exact HloN. }
        assert (2 ^ (eR + 1 + 1074) <= 2 ^ (E + 1074))%Z
          by (apply Z.pow_le_mono_r; lia).
        replace (eR + 1 + 1074)%Z with (1 + (eR + 1074))%Z in * by lia.
        rewrite (Z.pow_add_r 2 1 (eR + 1074)) in * by lia.
        change (2 ^ 1)%Z with 2%Z in *.
        change (2 ^ 53)%Z with (2 * 2 ^ 52)%Z in HmR.
        assert (0 < 2 ^ 52)%Z by (by apply pow2_pos). nia. }
  assert (Hqb : (0 <= q <= 2 ^ 53)%Z) by lia.
  pose proof (bra_result_exact_shift q E Hqb HE) as Hex.
  set (n2 := rshift q E) in *.
  assert (Hn2 : (0 <= n2)%Z) by apply rshift_nonneg.
  pose proof (pow2_pos n2 Hn2) as HP2.
  assert (HM : (Zpos mR * 2 ^ (eR + 1074) <= q / 2 ^ n2 * 2 ^ (E + n2 + 1074))%Z).
  { replace (E + n2 + 1074)%Z with (n2 + (E + 1074))%Z by lia.
    rewrite (Z.pow_add_r 2 n2 (E + 1074)), Z.mul_assoc, Hex by lia. nia. }
  assert (HPE2 : (0 < 2 ^ (E + n2 + 1074))%Z) by (apply pow2_pos; lia).
  unfold bra_result.
  destruct (q / 2 ^ n2)%Z as [|M|M] eqn:EM; [lia| |nia].
  destruct (_ <=? _)%Z; (split; [done|]); simpl SFkey; lia.
Qed.

(** *** The cluster count as a function of the number of points *)

Lemma key_pos_finite (x : number) :
  is_finite x = true -> (0 < key x)%Z ->
  exists m e, Prim2SF x = S754_finite false m e /\
              valid_binary (S754_finite false m e) = true /\
              key x = (Zpos m * 2 ^ (e + 1074))%Z.
Proof.
  intros Fx Hk. destruct (Prim2SF_nonneg x Fx) as [[sx E]|H]; [lia| |exact H].
  exfalso. assert (key x = 0%Z) by (unfold key; by rewrite E). lia.
Qed.

Lemma digits_of_bound (m : positive) (e b : Z) :
  (0 <= e + 1074)%Z -> (0 <= b)%Z ->
  (Zpos m * 2 ^ (e + 1074) <= 2 ^ b * 2 ^ 1074)%Z ->
  (Zdigits2 (Zpos m) + e <= b + 1)%Z.
Proof.
  intros He Hb H. destruct (Zdigits2_bounds (Zpos m)) as (Hd & Hlo & _); [lia|].
  set (d := Zdigits2 (Zpos m)) in *.
  destruct (Z.le_gt_cases (d + e) (b + 1)) as [|Hgt]; [done|exfalso].
  assert (H1 : (2 ^ (b + 1 + 1074) <= 2 ^ ((d - 1) + (e + 1074)))%Z)
    by (apply Z.pow_le_mono_r; lia).
  rewrite (Z.pow_add_r 2 (d - 1) (e + 1074)) in H1 by lia.
  replace (b + 1 + 1074)%Z with (1 + (b + 1074))%Z in H1 by lia.
  rewrite (Z.pow_add_r 2 1 (b + 1074)), (Z.pow_add_r 2 b 1074) in H1 by lia.
  change (2 ^ 1)%Z with 2%Z in H1.
  pose proof (pow2_pos (e + 1074) He). pose proof (pow2_pos b Hb).
  assert (0 < 2 ^ 1074)%Z by (by apply pow2_pos).
  nia.
Qed.

(** A third of a number between 75 and [2^53] is between 25 and [2^53]. *)
Lemma div_three_bounds (a : number) :
  is_finite a = true -> (75 * 2 ^ 1074 <= key a <= 2 ^ 53 * 2 ^ 1074)%Z ->
  is_finite (a / 3) = true /\
  (25 * 2 ^ 1074 <= key (a / 3) <= 2 ^ 53 * 2 ^ 1074)%Z.
Proof.
  intros Fa [Hlo Hhi].
  assert (HP : (0 < 2 ^ 1074)%Z) by (by apply pow2_pos).
  destruct (key_pos_finite a Fa) as (m1 & e1 & E1 & V1 & K1); [lia|].
  assert (H3 : Prim2SF 3 = S754_finite false 6755399441055744 (-51)) by reflexivity.
  rewrite is_finite_SF. unfold key. rewrite div_spec, E1, H3.
  cbn [SF64div SFdiv xorb]. rewrite SFdiv_core_spec.
  change (Zdigits2 6755399441055744) with 53%Z.
  rewrite K1 in Hlo, Hhi.
  destruct (valid_finite _ _ _ V1) as (He1 & Hm1 & _).
  pose proof (digits_of_bound m1 e1 53 ltac:(lia) ltac:(lia) Hhi) as Hd.
  set (d1 := Zdigits2 (Zpos m1)) in *.
  set (e' := Z.min (fexp prec emax (d1 + e1 - (53 + -51))) (e1 - -51)).
  assert (He' : (-1074 <= e' <= 0)%Z).
  { subst e'. rewrite fexp_eq. lia. }
  set (s := (e1 - -51 - e')%Z).
  assert (Hs : (0 <= s)%Z) by (subst s e'; lia).
  pose proof (pow2_pos s Hs) as HPs.
  pose proof (pow2_pos (- e')) as HPe.
  pose proof (pow2_pos (e1 + 1074)) as HP1.
  pose proof (pow2_pos (51 - e')) as HP51.
  set (N := (Zpos m1 * 2 ^ s / 6755399441055744)%Z).
  assert (HN0 : (0 <= N)%Z) by (apply Z.div_pos; lia).
  (* the scaled numerator *)
  assert (Hnum : (Zpos m1 * 2 ^ s * 2 ^ 1074
                  = Zpos m1 * 2 ^ (e1 + 1074) * 2 ^ (51 - e'))%Z).
  { rewrite <- !Z.mul_assoc. f_equal.
    rewrite <- !Z.pow_add_r by lia. f_equal. subst s. lia. }
  assert (HNlo : (25 * 2 ^ (- e') <= N)%Z).
  { apply Z.div_le_lower_bound; [lia|].
    apply (Z.mul_le_mono_pos_r _ _ (2 ^ 1074)); [lia|]. rewrite Hnum.
    replace (6755399441055744 * (25 * 2 ^ (- e')) * 2 ^ 1074)%Z
      with (75 * 2 ^ 1074 * (2 ^ 51 * 2 ^ (- e')))%Z by lia.
    rewrite <- (Z.pow_add_r 2 51 (- e')) by lia.
    replace (51 + - e')%Z with (51 - e')%Z by lia.
    apply Z.mul_le_mono_nonneg_r; lia. }
  assert (HNhi : (N < 2 ^ 52 * 2 ^ (1 - e'))%Z).
  { apply Z.div_lt_upper_bound; [lia|].
    apply (Z.mul_lt_mono_pos_r (2 ^ 1074)); [lia|]. rewrite Hnum.
    replace (1 - e')%Z with (1 + - e')%Z by lia.
    rewrite (Z.pow_add_r 2 1 (- e')) by lia. change (2 ^ 1)%Z with 2%Z.
    replace (51 - e')%Z with (51 + - e')%Z in * by lia.
    rewrite (Z.pow_add_r 2 51 (- e')) in * by lia.
    assert (0 < 2 ^ 51)%Z by (by apply pow2_pos).
    change (2 ^ 53)%Z with (4 * 2 ^ 51)%Z in Hhi.
    change 6755399441055744%Z with (3 * 2 ^ 51)%Z.
    change (2 ^ 52)%Z with (2 * 2 ^ 51)%Z. nia. }
  assert (V25 : valid_binary (S754_finite false 7036874417766400 (-48)) = true)
    by reflexivity.
  assert (V53 : valid_binary (S754_finite false 4503599627370496 1) = true)
    by reflexivity.
  destruct (round_upper N e' (new_location 6755399441055744
                                (Zpos m1 * 2 ^ s mod 6755399441055744))
              4503599627370496 1 HN0 V53) as [HF HKu]; [lia|exact HNhi|].
  destruct (round_lower N e' (new_location 6755399441055744
                                (Zpos m1 * 2 ^ s mod 6755399441055744))
              7036874417766400 (-48) HN0 ltac:(lia) V25) as [_ HKl].
  { change (7036874417766400 * 2 ^ (-48 + 1074))%Z with (25 * 2 ^ 1074)%Z.
    replace (25 * 2 ^ 1074)%Z with (25 * 2 ^ (- e') * 2 ^ (e' + 1074))%Z.
    - apply Z.mul_le_mono_nonneg_r; [apply Z.pow_nonneg; lia|exact HNlo].
    - rewrite <- Z.mul_assoc, <- (Z.pow_add_r 2 (- e')) by lia.
      by replace (- e' + (e' + 1074))%Z with 1074%Z by lia. }
  split; [exact HF|].
  change (7036874417766400 * 2 ^ (-48 + 1074))%Z with (25 * 2 ^ 1074)%Z in HKl.
  change (4503599627370496 * 2 ^ (1 + 1074))%Z with (2 ^ 53 * 2 ^ 1074)%Z in HKu.
  lia.
Qed.

(** The square root of a number between 25 and [2^53] is at least 5. *)
Lemma sqrt_at_least_5 (q : number) :
  is_finite q = true -> (25 * 2 ^ 1074 <= key q <= 2 ^ 53 * 2 ^ 1074)%Z ->
  PrimFloat.is_nan (Math.sqrt q) = false /\ (5 * 2 ^ 1074 <= key (Math.sqrt q))%Z.
Proof.
  intros Fq [Hlo Hhi].
  assert (HP : (0 < 2 ^ 1074)%Z) by (by apply pow2_pos).
  destruct (key_pos_finite q Fq) as (m & e & E & V & K); [lia|].
  rewrite <- Prim2SF_is_nan. unfold key, Math.sqrt. rewrite sqrt_spec, E.
  rewrite K in Hlo, Hhi.
  destruct (valid_finite _ _ _ V) as (He & Hm & _).
  pose proof (digits_of_bound m e 53 ltac:(lia) ltac:(lia) Hhi) as Hd.
  unfold SF64sqrt, SFsqrt, SFsqrt_core_binary.
  set (d := Zdigits2 (Zpos m)) in *.
  set (e' := Z.min (fexp prec emax (Z.div2 (d + e + 1))) (Z.div2 e)).
  assert (Hdiv2 : forall a : Z, (2 * Z.div2 a <= a <= 2 * Z.div2 a + 1)%Z).
  { intros a. rewrite Z.div2_div. pose proof (Z.div_mod a 2).
    pose proof (Z.mod_pos_bound a 2). lia. }
  assert (He' : (-1074 <= e' <= 0)%Z).
  { subst e'. rewrite fexp_eq. pose proof (Hdiv2 e). pose proof (Hdiv2 (d + e + 1)%Z).
    lia. }
  assert (Hs : (0 <= e - 2 * e')%Z).
  { subst e'. pose proof (Hdiv2 e). lia. }
  set (s := (e - 2 * e')%Z) in *.
  set (m' := match s with
             | 0%Z => Zpos m
             | Zpos _ => Z.shiftl (Zpos m) s
             | Zneg _ => 0%Z
             end).
  assert (Hm' : m' = (Zpos m * 2 ^ s)%Z).
  { subst m'. destruct s as [|p|p]; [simpl; lia| |lia]. by rewrite Z.shiftl_mul_pow2. }
  pose proof (Z.sqrtrem_sqrt m') as Hsq. pose proof (Z.sqrt_nonneg m') as Hsq0.
  destruct (Z.sqrtrem m') as [qz r]. cbn [fst] in Hsq. cbv beta iota zeta.
  pose proof (pow2_pos (- e')) as HPe.
  pose proof (pow2_pos s Hs) as HPs.
  pose proof (pow2_pos (e + 1074)) as HP1.
  assert (Hqz : (5 * 2 ^ (- e') <= qz)%Z).
  { rewrite Hsq. apply Z.sqrt_le_square; [lia|lia|].
    rewrite Hm'.
    apply (Z.mul_le_mono_pos_r _ _ (2 ^ 1074)); [lia|].
    replace (Zpos m * 2 ^ s * 2 ^ 1074)%Z
      with (Zpos m * 2 ^ (e + 1074) * (2 ^ (- e') * 2 ^ (- e')))%Z.
    - replace (5 * 2 ^ (- e') * (5 * 2 ^ (- e')) * 2 ^ 1074)%Z
        with (25 * 2 ^ 1074 * (2 ^ (- e') * 2 ^ (- e')))%Z by lia.
      apply Z.mul_le_mono_nonneg_r; nia.
    - rewrite <- !Z.mul_assoc. f_equal.
      rewrite <- !Z.pow_add_r by lia. f_equal. subst s. lia. }
  assert (V5 : valid_binary (S754_finite false 5629499534213120 (-50)) = true)
    by reflexivity.
  destruct (round_lower qz e'
              (if (r =? 0)%Z then loc_Exact
               else loc_Inexact (if (r <=? qz)%Z then Lt else Gt))
              5629499534213120 (-50) ltac:(lia) ltac:(lia) V5) as [Hn Hk].
  { change (5629499534213120 * 2 ^ (-50 + 1074))%Z with (5 * 2 ^ 1074)%Z.
    replace (5 * 2 ^ 1074)%Z with (5 * 2 ^ (- e') * 2 ^ (e' + 1074))%Z.
    - apply Z.mul_le_mono_nonneg_r; [apply Z.pow_nonneg; lia|exact Hqz].
    - rewrite <- Z.mul_assoc, <- (Z.pow_add_r 2 (- e')) by lia.
      by replace (- e' + (e' + 1074))%Z with 1074%Z by lia. }
  split; [exact Hn|].
  change (5629499534213120 * 2 ^ (-50 + 1074))%Z with (5 * 2 ^ 1074)%Z in Hk.
  exact Hk.
Qed.

Lemma num_of_nat_key (n : nat) :
  (Z.of_nat n < 2 ^ 53)%Z ->
  is_finite (num_of_nat n) = true /\ key (num_of_nat n) = (Z.of_nat n * 2 ^ 1074)%Z.
Proof. intros Hn. apply of_uint63_key. lia. Qed.

Lemma cluster_count_large (n : nat) :
  75 <= n -> (Z.of_nat n < 2 ^ 53)%Z -> cluster_count n = 5%float.
Proof.
  intros Hn Hb. unfold cluster_count.
  assert (HP : (0 < 2 ^ 1074)%Z) by (by apply pow2_pos).
  destruct (num_of_nat_key n Hb) as [Fn Kn].
  destruct (max_key 1 (num_of_nat n) eq_refl (is_finite_not_nan _ Fn)) as (Na & Ka & Ea).
  set (a := Math.max 1 (num_of_nat n)) in *.
  assert (Fa : is_finite a = true) by (destruct Ea as [->| ->]; done).
  rewrite Kn, key_one in Ka.
  destruct (div_three_bounds a Fa) as [Fq Kq].
  { rewrite Ka. rewrite Z.max_r by nia. split; [nia|].
    apply Z.mul_le_mono_nonneg_r; lia. }
  destruct (sqrt_at_least_5 _ Fq Kq) as [Ny Ky].
  set (y := Math.sqrt (a / 3)) in *.
  pose proof (floor_not_nan y Ny) as Nz.
  assert (Kz : (5 * 2 ^ 1074 <= key (Math.floor y))%Z).
  { destruct (is_finite y) eqn:Fy.
    - destruct (floor_key y Fy) as (_ & -> & _).
      apply Z.mul_le_mono_nonneg_r; [lia|].
      apply Z.div_le_lower_bound; lia.
    - by rewrite floor_not_finite. }
  destruct (max_key 2 (Math.floor y) eq_refl Nz) as (Nm & Km & _).
  set (m := Math.max 2 (Math.floor y)) in *.
  destruct (min_key 5 m eq_refl Nm) as (Nr & Kr & Er).
  destruct Er as [Er|Er]; [exact Er|]. rewrite Er in Kr |- *.
  change (key 5) with (5 * 2 ^ 1074)%Z in Kr.
  assert (Hk5 : key m = key 5) by (change (key 5) with (5 * 2 ^ 1074)%Z; lia).
  assert (Fm : is_finite m = true).
  { apply finite_of_key; [done|]. rewrite Hk5. by vm_compute. }
  destruct (key_eq_finite m 5 Fm eq_refl Hk5) as [Heq|[_ Hz]]; [exact Heq|discriminate Hz].
Qed.

(** X18: for every number of points an array can hold, the cluster count
    is 2 below 27 points, 3 from 27 to 47, 4 from 48 to 74 and 5 from 75
    on. *)
Theorem cluster_count_table (n : nat) :
  (Z.of_nat n < 2 ^ 32)%Z ->
  cluster_count n
  = if Nat.ltb n 27 then 2%float
    else if Nat.ltb n 48 then 3%float
    else if Nat.ltb n 75 then 4%float
    else 5%float.
Proof.
  intros Hb. destruct (Nat.ltb_spec n 75) as [Hlt|Hge].
  - clear Hb. do 75 (destruct n as [|n]; [vm_compute; reflexivity|]). lia.
  - rewrite (proj2 (Nat.ltb_ge n 27)), (proj2 (Nat.ltb_ge n 48)) by lia.
    apply cluster_count_large; [lia|].
    eapply Z.lt_trans; [exact Hb|]. by vm_compute.
Qed.

Lemma cluster_count_table_witness : cluster_count 56 = 4%float.
Proof. apply (cluster_count_table 56). by vm_compute. Defined.


(** ** [labelMetrics] *)

Lemma valid_pow2 (b : Z) :
  (-1022 <= b <= 1023)%Z ->
  valid_binary (S754_finite false 4503599627370496 (b - 52)) = true.
Proof.
  intros Hb. unfold SpecFloat.valid_binary, bounded, canonical_mantissa.
  rewrite fexp_eq. change (Zpos (digits2_pos 4503599627370496)) with 53%Z.
  change (emax - prec)%Z with 971%Z.
  apply andb_true_intro. split; [apply Z.eqb_eq|apply Z.leb_le]; lia.
Qed.

(** A quotient [d / sp] with [1 <= sp <= d < 2^b]. *)
Lemma div_quotient_bounds (d sp : number) (b : Z) :
  (0 <= b <= 52)%Z ->
  is_finite d = true -> is_finite sp = true ->
  (2 ^ 1074 <= key sp)%Z -> (key sp <= key d)%Z -> (key d < 2 ^ b * 2 ^ 1074)%Z ->
  is_finite (d / sp) = true /\ (2 ^ 1074 <= key (d / sp) <= 2 ^ b * 2 ^ 1074)%Z.
Proof.
  intros Hb Fd Fs Hs1 Hsd Hd.
  assert (HP : (0 < 2 ^ 1074)%Z) by (by apply pow2_pos).
  pose proof (pow2_pos b ltac:(lia)) as HPb.
  destruct (key_pos_finite d Fd) as (m1 & e1 & E1 & V1 & K1); [lia|].
  destruct (key_pos_finite sp Fs) as (m2 & e2 & E2 & V2 & K2); [lia|].
  rewrite is_finite_SF. unfold key. rewrite div_spec, E1, E2.
  cbn [SF64div SFdiv xorb]. rewrite SFdiv_core_spec.
  rewrite K1 in *. rewrite K2 in *.
  destruct (valid_finite _ _ _ V1) as (He1 & Hm1 & _).
  destruct (valid_finite _ _ _ V2) as (He2 & Hm2 & _).
  destruct (Zdigits2_bounds (Zpos m1)) as (Hd1 & Hlo1 & Hhi1); [lia|].
  destruct (Zdigits2_bounds (Zpos m2)) as (Hd2 & Hlo2 & Hhi2); [lia|].
  set (d1 := Zdigits2 (Zpos m1)) in *. set (d2 := Zdigits2 (Zpos m2)) in *.
  pose proof (pow2_pos (e1 + 1074)) as HP1. pose proof (pow2_pos (e2 + 1074)) as HP2.
  assert (Hd1' : (Zdigits2 (Zpos m1) <= 53)%Z) by (apply Zdigits2_le; lia).
  assert (Hd2' : (Zdigits2 (Zpos m2) <= 53)%Z) by (apply Zdigits2_le; lia).
  fold d1 in Hd1'. fold d2 in Hd2'.
  (* magnitudes *)
  assert (Hmag1 : (d1 + e1 <= b)%Z).
  { destruct (Z.le_gt_cases (d1 + e1) b) as [|Hgt]; [done|exfalso].
    assert (2 ^ (b + 1074) <= 2 ^ ((d1 - 1) + (e1 + 1074)))%Z
      by (apply Z.pow_le_mono_r; lia).
    rewrite (Z.pow_add_r 2 b 1074), (Z.pow_add_r 2 (d1 - 1)) in H by lia.
    pose proof (pow2_pos (d1 - 1)). nia. }
  assert (Hmag2 : (1 <= d2 + e2)%Z).
  { destruct (Z.le_gt_cases 1 (d2 + e2)) as [|Hgt]; [done|exfalso].
    assert (2 ^ (d2 + (e2 + 1074)) <= 2 ^ 1074)%Z by (apply Z.pow_le_mono_r; lia).
    rewrite (Z.pow_add_r 2 d2) in H by lia. pose proof (pow2_pos d2). nia. }
  assert (Hmag3 : (1 <= d1 + e1)%Z).
  { destruct (Z.le_gt_cases 1 (d1 + e1)) as [|Hgt]; [done|exfalso].
    assert (2 ^ (d1 + (e1 + 1074)) <= 2 ^ 1074)%Z by (apply Z.pow_le_mono_r; lia).
    rewrite (Z.pow_add_r 2 d1) in H by lia. pose proof (pow2_pos d1). nia. }
  assert (Hmag4 : (d2 + e2 <= b)%Z).
  { destruct (Z.le_gt_cases (d2 + e2) b) as [|Hgt]; [done|exfalso].
    assert (2 ^ (b + 1074) <= 2 ^ ((d2 - 1) + (e2 + 1074)))%Z
      by (apply Z.pow_le_mono_r; lia).
    rewrite (Z.pow_add_r 2 b 1074), (Z.pow_add_r 2 (d2 - 1)) in H by lia.
    pose proof (pow2_pos (d2 - 1)). nia. }
  set (e' := Z.min (fexp prec emax (d1 + e1 - (d2 + e2))) (e1 - e2)).
  assert (He' : (-1074 <= e' <= 0)%Z /\ (e' <= b - 52)%Z).
  { subst e'. rewrite fexp_eq. lia. }
  destruct He' as [He' He'b].
  set (s := (e1 - e2 - e')%Z).
  assert (Hs : (0 <= s)%Z) by (subst s e'; lia).
  pose proof (pow2_pos s Hs) as HPs.
  pose proof (pow2_pos (- e')) as HPe.
  set (N := (Zpos m1 * 2 ^ s / Zpos m2)%Z).
  assert (HN0 : (0 <= N)%Z) by (apply Z.div_pos; lia).
  assert (Hnum : (Zpos m1 * 2 ^ s * 2 ^ (e2 + 1074)
                  = Zpos m1 * 2 ^ (e1 + 1074) * 2 ^ (- e'))%Z).
  { rewrite <- !Z.mul_assoc. f_equal.
    rewrite <- !Z.pow_add_r by lia. f_equal. subst s. lia. }
  assert (HNlo : (2 ^ (- e') <= N)%Z).
  { apply Z.div_le_lower_bound; [lia|].
    apply (Z.mul_le_mono_pos_r _ _ (2 ^ (e2 + 1074))); [lia|]. rewrite Hnum.
    replace (Zpos m2 * 2 ^ (- e') * 2 ^ (e2 + 1074))%Z
      with (Zpos m2 * 2 ^ (e2 + 1074) * 2 ^ (- e'))%Z by lia.
    apply Z.mul_le_mono_nonneg_r; lia. }
  assert (HNhi : (N < 4503599627370496 * 2 ^ (b - 52 - e'))%Z).
  { apply Z.div_lt_upper_bound; [lia|].
    apply (Z.mul_lt_mono_pos_r (2 ^ (e2 + 1074))); [lia|]. rewrite Hnum.
    change 4503599627370496%Z with (2 ^ 52)%Z.
    rewrite <- (Z.pow_add_r 2 52 (b - 52 - e')) by lia.
    replace (52 + (b - 52 - e'))%Z with (b + - e')%Z by lia.
    rewrite (Z.pow_add_r 2 b (- e')) by lia.
    assert (H1 : (Zpos m1 * 2 ^ (e1 + 1074) < 2 ^ b * (Zpos m2 * 2 ^ (e2 + 1074)))%Z).
    { eapply Z.lt_le_trans; [exact Hd|]. apply Z.mul_le_mono_nonneg_l; lia. }
    replace (Zpos m2 * (2 ^ b * 2 ^ (- e')) * 2 ^ (e2 + 1074))%Z
      with (2 ^ b * (Zpos m2 * 2 ^ (e2 + 1074)) * 2 ^ (- e'))%Z by ring.
    apply Z.mul_lt_mono_pos_r; [lia|exact H1]. }
  destruct (round_upper N e' (new_location (Zpos m2) (Zpos m1 * 2 ^ s mod Zpos m2))
              4503599627370496 (b - 52) HN0 (valid_pow2 b ltac:(lia)))
    as [HF HKu]; [lia|exact HNhi|].
  destruct (round_lower N e' (new_location (Zpos m2) (Zpos m1 * 2 ^ s mod Zpos m2))
              4503599627370496 (-52) HN0 ltac:(lia) (valid_pow2 0 ltac:(lia)))
    as [_ HKl].
  { change (4503599627370496 * 2 ^ (-52 + 1074))%Z with (2 ^ 1074)%Z.
    replace (2 ^ 1074)%Z with (2 ^ (- e') * 2 ^ (e' + 1074))%Z.
    - apply Z.mul_le_mono_nonneg_r; [apply Z.pow_nonneg; lia|exact HNlo].
    - rewrite <- (Z.pow_add_r 2 (- e')) by lia.
      by replace (- e' + (e' + 1074))%Z with 1074%Z by lia. }
  split; [exact HF|].
  change (4503599627370496 * 2 ^ (-52 + 1074))%Z with (2 ^ 1074)%Z in HKl.
  replace (4503599627370496 * 2 ^ (b - 52 + 1074))%Z with (2 ^ b * 2 ^ 1074)%Z in HKu.
  - lia.
  - change 4503599627370496%Z with (2 ^ 52)%Z.
    rewrite <- !Z.pow_add_r by lia. f_equal. lia.
Qed.

Lemma bra_not_nan (sx : bool) (N e : Z) (l : location) :
  (0 <= N)%Z -> SFis_nan (binary_round_aux prec emax sx N e l) = false.
Proof.
  intros HN. destruct (binary_round_aux_gen sx N e l HN) as (q & Hq & ->).
  assert (0 <= N / 2 ^ rshift N e)%Z.
  { apply Z.div_pos; [done|]. apply pow2_pos, rshift_nonneg. }
  assert (Hq' : (0 <= q / 2 ^ rshift q (e + rshift N e))%Z).
  { apply Z.div_pos; [lia|]. apply pow2_pos, rshift_nonneg. }
  unfold bra_result. destruct (q / 2 ^ rshift q (e + rshift N e))%Z; [done| |lia].
  by destruct (_ <=? _)%Z.
Qed.

Lemma mul_finite_not_nan (x y : number) :
  is_finite x = true -> is_finite y = true -> PrimFloat.is_nan (x * y) = false.
Proof.
  rewrite !is_finite_SF, <- Prim2SF_is_nan, mul_spec. unfold SF64mul, SFmul.
  destruct (Prim2SF x) as [sx|sx| |sx mx ex], (Prim2SF y) as [sy|sy| |sy my ey];
    try done.
  intros _ _. apply bra_not_nan. lia.
Qed.

(** An end position that is a non-negative integer [k]. *)
Lemma slice_to_int (s : jsstring) (e : number) (k : Z) :
  is_finite e = true -> (0 <= k)%Z -> key e = (k * 2 ^ 1074)%Z ->
  LabelMetrics.slice_to s e = take (Z.to_nat k) s.
Proof.
  intros Fe Hk Hkey. pose proof (Prim2SF_valid e) as V.
  assert (HP : (0 < 2 ^ 1074)%Z) by (by apply pow2_pos).
  rewrite is_finite_SF in Fe. unfold key in Hkey. unfold LabelMetrics.slice_to.
  destruct (Prim2SF e) as [sx|sx| |sx m ex]; try discriminate.
  - simpl in Hkey. assert (k = 0%Z) as -> by nia. done.
  - destruct (valid_finite _ _ _ V) as (Hex & _).
    pose proof (pow2_pos (ex + 1074)) as HPe.
    destruct sx; cbn [SFkey cond_Zopp] in Hkey; [nia|].
    assert (Hk' : (if 0 <=? ex then Zpos m * 2 ^ ex else Zpos m / 2 ^ (- ex))%Z = k).
    { destruct (Z.leb_spec 0 ex) as [H0|H0].
      - rewrite (Z.pow_add_r 2 ex 1074), Z.mul_assoc in Hkey by lia.
        by apply Z.mul_cancel_r in Hkey; [|lia].
      - assert (Hm : Zpos m = (k * 2 ^ (- ex))%Z).
        { replace (2 ^ 1074)%Z with (2 ^ (- ex) * 2 ^ (ex + 1074))%Z in Hkey
            by (rewrite <- (Z.pow_add_r 2 (- ex)) by lia; f_equal; lia).
          rewrite Z.mul_assoc in Hkey.
          by apply Z.mul_cancel_r in Hkey; [|lia]. }
        rewrite Hm. apply Z.div_mul. pose proof (pow2_pos (- ex)). lia. }
    cbv zeta. rewrite Hk'. cbn [cond_Zopp].
    destruct (Z.ltb_spec k 0); [lia|done].
Qed.

Lemma shrink_default (est : number -> number) (limit : number) (fuel : nat) :
  2 <= fuel ->
  exists fs, LabelMetrics.shrink fuel est limit 10 12 = Some fs /\
             (fs = 12%float \/ fs = 11%float \/ fs = 10%float).
Proof.
  intros Hf. destruct fuel as [|[|fuel]]; try lia.
  cbn [LabelMetrics.shrink].
  change (10 <? 12)%float with true. rewrite andb_true_r.
  destruct (limit <? est 12)%float; [|exists 12%float; auto].
  change (12 - 1)%float with 11%float.
  change (10 <? 11)%float with true. rewrite andb_true_r.
  destruct (limit <? est 11)%float; [|exists 11%float; auto].
  change (11 - 1)%float with 10%float.
  assert (H10 : LabelMetrics.shrink fuel est limit 10 10 = Some 10%float).
  { destruct fuel; cbn [LabelMetrics.shrink];
      change (10 <? 10)%float with false; by rewrite andb_false_r. }
  rewrite H10. exists 10%float. auto.
Qed.

Section DefaultLabel.

Variable str : jsstring.
Hypothesis str_length : (Z.of_nat (length str) < 2 ^ 53)%Z.

(** The estimated text width with the default options. *)
Definition est_default (fs : number) : number :=
  Math.max (72 - 12 * 2)%float
    (Math.min (300 - 12 * 2)%float
       (num_of_nat (length str) * (fs * 0x1.3333333333333p-1))%float).

Lemma est_default_range (fs : number) :
  is_finite (fs * 0x1.3333333333333p-1) = true ->
  is_finite (est_default fs) = true /\
  (key 48 <= key (est_default fs) <= key 276)%Z.
Proof.
  intros Fc. unfold est_default.
  change (72 - 12 * 2)%float with 48%float. change (300 - 12 * 2)%float with 276%float.
  destruct (num_of_nat_key _ str_length) as [Fn _].
  pose proof (mul_finite_not_nan _ _ Fn Fc) as Np.
  destruct (min_key 276 _ eq_refl Np) as (Nm & Km & _).
  destruct (max_key 48 _ eq_refl Nm) as (Ne & Ke & _).
  assert (H : (key 48 <= key 276)%Z) by (by vm_compute).
  assert (Hr : (key 48 <= key (Math.max 48 (Math.min 276
             (num_of_nat (length str) * (fs * 0x1.3333333333333p-1)))) <= key 276)%Z)
    by lia.
  split; [|exact Hr]. apply finite_of_key; [done|].
  pose proof (key_finite_bounds 48 eq_refl). pose proof (key_finite_bounds 276 eq_refl).
  lia.
Qed.

Lemma labelMetrics_default_unfold (fuel : nat) :
  LabelMetrics.labelMetrics fuel str None =
  match LabelMetrics.shrink fuel est_default
          (Math.min 300 (Math.max 72 (est_default 12 + 24)) - 24)%float 10 12 with
  | None => None
  | Some fs =>
      Some {| LabelMetrics.width := Math.min 300 (Math.max 72 (est_default 12 + 24));
              LabelMetrics.height := 44;
              LabelMetrics.fontSize := fs;
              LabelMetrics.text :=
                if (Math.floor ((Math.min 300 (Math.max 72 (est_default 12 + 24)) - 24)
                                / (fs * 0x1.3333333333333p-1))
                    <? num_of_nat (length str))%float
                then LabelMetrics.slice_to str
                       (Math.max 0
                          (Math.floor
                             ((Math.min 300 (Math.max 72 (est_default 12 + 24)) - 24)
                              / (fs * 0x1.3333333333333p-1)) - 1)%float)
                     ++ [8230%Z]
                else str;
              LabelMetrics.padX := 12 |}
  end.
Proof. reflexivity. Qed.

(** X19: with the default options and enough rounds for the loop (two),
    [labelMetrics] returns a placard between 72 and 300 wide and 44 high
    with padding 12 and a font size of 12, 11 or 10; its text is the string
    itself or a strictly shorter prefix of it followed by an ellipsis. *)
Theorem labelMetrics_default (fuel : nat) :
  2 <= fuel ->
  exists r, LabelMetrics.labelMetrics fuel str None = Some r /\
    (72 <=? LabelMetrics.width r)%float = true /\
    (LabelMetrics.width r <=? 300)%float = true /\
    LabelMetrics.height r = 44%float /\
    LabelMetrics.padX r = 12%float /\
    (LabelMetrics.fontSize r = 12%float \/ LabelMetrics.fontSize r = 11%float \/
     LabelMetrics.fontSize r = 10%float) /\
    (LabelMetrics.text r = str \/
     exists k, k < length str /\ LabelMetrics.text r = take k str ++ [8230%Z]).
Proof.
  intros Hfuel. rewrite labelMetrics_default_unfold.
  assert (HP : (0 < 2 ^ 1074)%Z) by (by apply pow2_pos).
  (* the width *)
  destruct (est_default_range 12 eq_refl) as [Fe Ke].
  destruct (add_key (est_default 12) 24 Fe eq_refl) as [Ns Ks].
  assert (Hs : (key 72 <= key (est_default 12 + 24) <= key 300)%Z).
  { rewrite Ks. split.
    - rewrite <- (RNZ_key 72 eq_refl). apply RNZ_mono.
      change (key 72) with (key 48 + key 24)%Z. lia.
    - rewrite <- (RNZ_key 300 eq_refl). apply RNZ_mono.
      change (key 300) with (key 276 + key 24)%Z. lia. }
  destruct (max_key 72 _ eq_refl Ns) as (Nm & Km & _).
  destruct (min_key 300 _ eq_refl Nm) as (Nw & Kw & _).
  set (w := Math.min 300 (Math.max 72 (est_default 12 + 24))) in *.
  assert (Hw : (key 72 <= key w <= key 300)%Z) by lia.
  assert (Fw : is_finite w = true).
  { apply finite_of_key; [done|].
    pose proof (key_finite_bounds 72 eq_refl). pose proof (key_finite_bounds 300 eq_refl).
    lia. }
  (* the room for the text *)
  destruct (sub_key w 24 Fw eq_refl) as [Nl Kl].
  assert (Hl : (key 48 <= key (w - 24) <= key 276)%Z).
  { rewrite Kl. split.
    - rewrite <- (RNZ_key 48 eq_refl). apply RNZ_mono.
      change (key 48) with (key 72 - key 24)%Z. lia.
    - rewrite <- (RNZ_key 276 eq_refl). apply RNZ_mono.
      change (key 276) with (key 300 - key 24)%Z. lia. }
  set (limit := (w - 24)%float) in *.
  assert (Fl : is_finite limit = true).
  { apply finite_of_key; [done|].
    pose proof (key_finite_bounds 48 eq_refl). pose proof (key_finite_bounds 276 eq_refl).
    lia. }
  (* the loop *)
  destruct (shrink_default est_default limit fuel Hfuel) as (fs & -> & Hfs).
  eexists. split; [reflexivity|]. cbn [LabelMetrics.width LabelMetrics.height
    LabelMetrics.padX LabelMetrics.fontSize LabelMetrics.text].
  rewrite !leb_key by done.
  split; [apply Z.leb_le; lia|]. split; [apply Z.leb_le; lia|].
  split; [done|]. split; [done|]. split; [exact Hfs|].
  (* the text *)
  set (cw := (fs * 0x1.3333333333333p-1)%float).
  assert (Hcw : is_finite cw = true /\ (2 ^ 1074 <= key cw <= key 48)%Z).
  { subst cw. destruct Hfs as [-> | [-> | ->]]; (split; [reflexivity|]);
      split; apply Z.leb_le; by vm_compute. }
  destruct Hcw as [Fcw Kcw].
  destruct (div_quotient_bounds limit cw 9) as [Fv Kv]; try done; try lia.
  { eapply Z.le_lt_trans; [apply Hl|]. by vm_compute. }
  destruct (floor_key _ Fv) as (Fmc & Kmc & _).
  set (mc := Math.floor (limit / cw)) in *.
  set (K := (key (limit / cw) / 2 ^ 1074)%Z) in *.
  assert (HK : (1 <= K <= 2 ^ 9)%Z).
  { subst K. split.
    - apply Z.div_le_lower_bound; lia.
    - apply Z.div_le_upper_bound; lia. }
  destruct (num_of_nat_key _ str_length) as [Fn Kn].
  rewrite ltb_key by (by apply is_finite_not_nan).
  destruct (Z.ltb_spec (key mc) (key (num_of_nat (length str)))) as [Hlt|Hge];
    [right|by left].
  rewrite Kmc, Kn in Hlt.
  assert (HKn : (K < Z.of_nat (length str))%Z) by nia.
  destruct (sub_key mc 1 Fmc eq_refl) as [N1 K1].
  assert (K1' : key (mc - 1) = ((K - 1) * 2 ^ 1074)%Z).
  { rewrite K1, Kmc, key_one.
    replace (K * 2 ^ 1074 - 2 ^ 1074)%Z with ((K - 1) * 2 ^ 1074)%Z by lia.
    apply RNZ_int. lia. }
  destruct (max_key 0 (mc - 1) eq_refl N1) as (Ne' & Ke' & _).
  assert (Ke'' : key (Math.max 0 (mc - 1)) = ((K - 1) * 2 ^ 1074)%Z).
  { rewrite Ke', K1'. change (key 0) with 0%Z. nia. }
  exists (Z.to_nat (K - 1)). split; [lia|].
  f_equal. apply slice_to_int; [|lia|exact Ke''].
  apply finite_of_key; [done|]. rewrite Ke''.
  assert (2 ^ 9 * 2 ^ 1074 < 2 ^ 2098)%Z by (by vm_compute). nia.
Qed.

End DefaultLabel.

Lemma labelMetrics_default_witness :
  exists r, LabelMetrics.labelMetrics 2 (str "gallery") None = Some r /\
    LabelMetrics.text r = take 5 (str "gallery") ++ [8230%Z].
Proof.
  destruct (labelMetrics_default (str "gallery")) with (fuel := 2)
    as (r & Hr & _); [by vm_compute|lia|].
  exists r. split; [exact Hr|]. vm_compute in Hr. by inversion Hr.
Defined.

(** ** The heat map: [buildSimMatrix] followed by [heatColor] *)

(** The remapping [(c + 1) / 2] takes [[-1, 1]] into [[0, 1]]. *)
Lemma remap_unit (c : number) :
  (-1 <=? c)%float = true -> (c <=? 1)%float = true ->
  (0 <=? (c + 1) / 2)%float = true /\ ((c + 1) / 2 <=? 1)%float = true.
Proof.
  intros H1 H2.
  destruct (between_key (-1) c 1 eq_refl eq_refl H1 H2) as [Fc Kc].
  change (key (-1)) with (- key 1)%Z in Kc.
  destruct (add_key c 1 Fc eq_refl) as [Nd Kd].
  assert (Hd : (0 <= key (c + 1) <= key 2)%Z).
  { rewrite Kd. split.
    - change 0%Z with (RNZ 0). apply RNZ_mono. lia.
    - rewrite <- (RNZ_key 2 eq_refl). apply RNZ_mono.
      change (key 2) with (key 1 + key 1)%Z. lia. }
  set (d := (c + 1)%float) in *.
  assert (Fd : is_finite d = true).
  { apply finite_of_key; [done|]. pose proof (key_finite_bounds 2 eq_refl). lia. }
  assert (Hq : is_finite (d / 2) = true /\ (0 <= key (d / 2) <= key 1)%Z).
  { destruct (Z.eq_dec (key d) 0%Z) as [Hz|Hnz].
    - assert (Hzero : SFzero (Prim2SF (d / 2)) = true).
      { apply zero_div; [by apply key_zero_SF|done|done]. }
      split; [by apply SFzero_finite|]. rewrite (SFzero_key _ Hzero), key_one.
      split; [lia|]. apply Z.pow_nonneg. lia.
    - destruct (Z.eq_dec (key d) (key 2)) as [H2'|Hn2].
      + destruct (key_eq_finite d 2 Fd eq_refl H2') as [->|[_ Hz]]; [|discriminate Hz].
        split; [reflexivity|]. by vm_compute.
      + apply div_below_one; [done|done|lia]. }
  destruct Hq as [Fq Kq].
  rewrite !leb_key by (try done; by apply is_finite_not_nan).
  change (key 0) with 0%Z. split; apply Z.leb_le; lia.
Qed.

(** X20: when every pairwise similarity lies in [[-1, 1]], every cell of
    the similarity matrix lies in [[0, 1]], and the colour the heat map
    gives it is [hsl(hue, 70%, light%)] with a hue in [[0, 220]] and a
    lightness in [[35, 60]]. *)
Theorem heatmap_cells_in_gamut (Number_toString : number -> jsstring)
    (vectors : list (list number)) (a b : nat) :
  (forall i k, i < length vectors -> k < length vectors ->
     (-1 <=? cosine (row vectors i) (row vectors k))%float = true /\
     (cosine (row vectors i) (row vectors k) <=? 1)%float = true) ->
  a < length vectors -> b < length vectors ->
  exists v hue light,
    cell (buildSimMatrix vectors) a b = Some v /\
    (0 <=? v)%float = true /\ (v <=? 1)%float = true /\
    heatColor Number_toString v = hsl Number_toString hue 70 light /\
    (0 <=? hue)%float = true /\ (hue <=? 220)%float = true /\
    (35 <=? light)%float = true /\ (light <=? 60)%float = true.
Proof.
  intros Hcos Ha Hb.
  destruct (buildSimMatrix_cell vectors a b Ha Hb) as [_ Hcell].
  destruct (Hcos (Nat.min a b) (Nat.max a b)) as [H1 H2]; [lia|lia|].
  destruct (remap_unit _ H1 H2) as [Hv0 Hv1].
  destruct (heat_components Number_toString _ Hv0 Hv1) as (hue & light & Hh).
  exists (sim vectors (Nat.min a b) (Nat.max a b)), hue, light.
  split; [exact Hcell|]. split; [exact Hv0|]. split; [exact Hv1|exact Hh].
Qed.

Lemma heatmap_cells_in_gamut_witness :
  exists v hue light,
    cell (buildSimMatrix [[1; 0]; [0; 1]; [-1; 0]]%float) 2 0 = Some v /\
    (0 <=? v)%float = true /\ (v <=? 1)%float = true /\
    heatColor (fun _ => []) v = hsl (fun _ => []) hue 70 light /\
    (0 <=? hue)%float = true /\ (hue <=? 220)%float = true /\
    (35 <=? light)%float = true /\ (light <=? 60)%float = true.
Proof.
  apply (heatmap_cells_in_gamut (fun _ => []) [[1; 0]; [0; 1]; [-1; 0]]%float 2 0).
  - intros i k Hi Hk. simpl in Hi, Hk.
    destruct i as [|[|[|i]]]; try lia; destruct k as [|[|[|k]]]; try lia;
      split; reflexivity.
  - simpl; lia.
  - simpl; lia.
Defined.

(** ** The centers [kmeans] returns *)

(** The points that carry label [c], in input order. *)
Definition members (c : nat) (lbls : list nat) (points : list (list number))
  : list (list number) :=
  map snd (filter (fun lp => lp.1 = c) (zip lbls points)).

Lemma members_snoc (c c' : nat) (lbls : list nat) (points : list (list number))
    (p : list number) :
  length lbls = length points ->
  members c (lbls ++ [c']) (points ++ [p])
  = members c lbls points ++ (if decide (c' = c) then [p] else []).
Proof.
  intros Hlen. unfold members.
  rewrite zip_with_app by done. rewrite filter_app, map_app. f_equal.
  cbn [zip_with]. rewrite filter_cons, filter_nil. cbn [fst].
  by destruct (decide (c' = c)).
Qed.

Lemma axis_sum_snoc (k : nat) (ps : list (list number)) (p : list number) :
  axis_sum k (ps ++ [p]) = (axis_sum k ps + elem p k)%float.
Proof. unfold axis_sum. by rewrite fold_left_app. Qed.

Lemma foldM_app {A B} (f : A -> B -> completion A) (l1 l2 : list B) (a : A) :
  foldM f (l1 ++ l2) a = (a' ← foldM f l1 a; foldM f l2 a').
Proof.
  revert a. induction l1 as [|x l1 IH]; intros a; simpl; [done|].
  destruct (f a x) as [a1|e]; simpl; [apply IH|done].
Qed.

Lemma elem_add_point (sc p : list number) (k : nat) :
  k < 2 -> elem (add_point sc p) k = (elem sc k + elem p k)%float.
Proof.
  intros Hk. unfold add_point. destruct k as [|[|k]]; [| |lia].
  - rewrite elem_js_store_ne by done. by rewrite elem_js_store_eq.
  - rewrite elem_js_store_eq. by rewrite elem_js_store_ne.
Qed.

(** The sums and counts after the first [m] points. *)
Definition accumulated (points : list (list number)) (lbls : list nat) (L m : nat)
    (st : list (list number) * list nat) : Prop :=
  length st.1 = L /\ length st.2 = L /\
  forall c, c < L ->
    (forall k, k < 2 ->
       elem (row st.1 c) k = axis_sum k (members c (take m lbls) (take m points))) /\
    default 0 (st.2 !! c) = length (members c (take m lbls) (take m points)).

Lemma accumulate_prefix (points : list (list number)) (lbls : list nat) (L m : nat) :
  length lbls = length points -> Forall (fun c => c < L) lbls ->
  m <= length points ->
  exists st,
    foldM (fun '(sum, cnt) i =>
        let c := default 0 (lbls !! i) in
        match sum !! c with
        | None => Throw TypeError
        | Some sc =>
            let sc := js_store sc 0 (elem sc 0 + elem (row points i) 0)%float in
            let sc := js_store sc 1 (elem sc 1 + elem (row points i) 1)%float in
            Normal (<[c := sc]> sum, <[c := S (default 0 (cnt !! c))]> cnt)
        end) (seq 0 m) (replicate L [0; 0]%float, replicate L 0)
    = Normal st /\ accumulated points lbls L m st.
Proof.
  intros Hlen Hall. induction m as [|m IH]; intros Hm.
  - eexists. split; [reflexivity|]. unfold accumulated. cbn [fst snd take].
    split; [by rewrite length_replicate|].
    split; [by rewrite length_replicate|]. intros c Hc.
    split.
    + intros k Hk. unfold row. rewrite lookup_replicate_2 by done. cbn [default].
      destruct k as [|[|k]]; [done|done|lia].
    + by rewrite lookup_replicate_2.
  - destruct IH as ([sum cnt] & Hrun & Hs & Hc & Hinv); [lia|].
    cbn [fst snd] in Hs, Hc, Hinv.
    rewrite seq_S, foldM_app, Hrun. cbn [Nat.add foldM mbind completion_bind].
    destruct (lookup_lt_is_Some_2 lbls m) as [c Hcm]; [lia|].
    destruct (lookup_lt_is_Some_2 points m) as [p Hpm]; [lia|].
    assert (HcL : c < L) by (eapply Forall_lookup_1 in Hall; eauto).
    rewrite Hcm. change (default 0 (Some c)) with c.
    destruct (lookup_lt_is_Some_2 sum c) as [sc Hsc]; [lia|].
    rewrite Hsc, (row_lookup points m p Hpm). cbn [mbind completion_bind].
    eexists. split; [reflexivity|]. unfold accumulated. cbn [fst snd].
    split; [by rewrite length_insert|]. split; [by rewrite length_insert|].
    intros c' Hc'.
    rewrite (take_S_r lbls m c Hcm), (take_S_r points m p Hpm).
    rewrite members_snoc by (rewrite !length_take; lia).
    destruct (Hinv c' Hc') as [Hsum Hcnt].
    destruct (decide (c = c')) as [->|Hne].
    + split.
      * intros k Hk.
        erewrite (row_lookup (<[c':=_]> sum)); [|apply list_lookup_insert_eq; lia].
        change (js_store (js_store sc 0 (elem sc 0 + elem p 0)) 1
                  (elem (js_store sc 0 (elem sc 0 + elem p 0)) 1 + elem p 1))%float
          with (add_point sc p).
        rewrite elem_add_point by done.
        rewrite axis_sum_snoc. f_equal. rewrite <- (Hsum k Hk).
        by rewrite (row_lookup sum c' sc Hsc).
      * rewrite list_lookup_insert_eq by lia. rewrite length_app, <- Hcnt.
        simpl. lia.
    + split.
      * intros k Hk. unfold row. rewrite list_lookup_insert_ne by done.
        rewrite app_nil_r. apply (Hsum k Hk).
      * rewrite list_lookup_insert_ne by done. by rewrite app_nil_r.
Qed.

Lemma map_const_replicate {A B} (l : list A) (b : B) :
  map (fun _ => b) l = replicate (length l) b.
Proof. induction l as [|x l IH]; simpl; [done|]. by rewrite IH. Qed.

Lemma accumulate_spec (points ctrs : list (list number)) (lbls : list nat) :
  length lbls = length points -> Forall (fun c => c < length ctrs) lbls ->
  exists sum cnt,
    accumulate points lbls (map (fun _ => [0; 0]%float) ctrs) (map (fun _ => 0) ctrs)
    = Normal (sum, cnt) /\
    forall c, c < length ctrs ->
      (forall k, k < 2 -> elem (row sum c) k = axis_sum k (members c lbls points)) /\
      default 0 (cnt !! c) = length (members c lbls points).
Proof.
  intros Hlen Hall. rewrite !map_const_replicate.
  destruct (accumulate_prefix points lbls (length ctrs) (length points) Hlen Hall)
    as ([sum cnt] & Hrun & _ & _ & Hinv); [done|].
  exists sum, cnt. split; [exact Hrun|].
  intros c Hc. specialize (Hinv c Hc). cbn [fst snd] in Hinv.
  rewrite <- Hlen, firstn_all in Hinv at 1.
  rewrite <- Hlen, firstn_all in Hinv.
  by rewrite Hlen, !firstn_all in Hinv.
Qed.

(** The recentering loop moves every center that has points to the quotient
    of its sum by its count. *)
Lemma update_centers_prefix (ctrs sum : list (list number)) (cnt : list nat) (m : nat) :
  m <= length ctrs ->
  let acc := fold_left (fun ctrs c =>
      let n := default 0 (cnt !! c) in
      if decide (0 < n) then
        alter (fun ctr =>
            let ctr := js_store ctr 0 (elem (row sum c) 0 / num_of_nat n)%float in
            js_store ctr 1 (elem (row sum c) 1 / num_of_nat n)%float) c ctrs
      else ctrs) (seq 0 m) ctrs in
  length acc = length ctrs /\
  forall c, c < m -> 0 < default 0 (cnt !! c) ->
    forall k, k < 2 ->
      elem (row acc c) k = (elem (row sum c) k / num_of_nat (default 0%nat (cnt !! c)))%float.
Proof.
  induction m as [|m IH]; intros Hm acc; subst acc.
  - cbn [seq fold_left]. split; [done|]. intros; lia.
  - rewrite seq_S, fold_left_app. cbn [Nat.add fold_left].
    destruct IH as [Hlen Hinv]; [lia|].
    set (acc := fold_left _ (seq 0 m) ctrs) in *.
    destruct (decide (0 < default 0 (cnt !! m))) as [Hpos|Hzero].
    + split; [by rewrite length_alter|].
      intros c Hc Hn k Hk.
      destruct (decide (c = m)) as [->|Hne].
      * destruct (lookup_lt_is_Some_2 acc m) as [r Hr]; [lia|].
        erewrite row_lookup; [|by rewrite list_lookup_alter_eq, Hr].
        destruct k as [|[|k]]; [| |lia].
        -- rewrite elem_js_store_ne by done. by rewrite elem_js_store_eq.
        -- by rewrite elem_js_store_eq.
      * unfold row. rewrite list_lookup_alter_ne by done.
        apply (Hinv c); [lia|done|done].
    + split; [done|]. intros c Hc Hn k Hk.
      destruct (decide (c = m)) as [->|Hne]; [lia|].
      apply (Hinv c); [lia|done|done].
Qed.

Lemma update_centers_spec (ctrs sum : list (list number)) (cnt : list nat) (c k : nat) :
  c < length ctrs -> 0 < default 0 (cnt !! c) -> k < 2 ->
  elem (row (update_centers ctrs sum cnt) c) k
  = (elem (row sum c) k / num_of_nat (default 0%nat (cnt !! c)))%float.
Proof.
  intros Hc Hn Hk.
  destruct (update_centers_prefix ctrs sum cnt (length ctrs)) as [_ H]; [done|].
  by apply H.
Qed.

(** X21: after at least one pass, every center that has a point labelled
    with it is the centroid of the points that carry its label in the
    result: on each axis, the sum of their coordinates, added in input
    order, divided by their number. *)
Theorem kmeans_centers_are_centroids (points : list (list number)) (k iters : nat) :
  0 < length points -> 1 <= k -> 1 <= iters ->
  exists res, kmeans points k iters = Normal res /\
    forall c, c < length (centers res) ->
      members c (labels res) points <> [] ->
      forall ax, ax < 2 ->
        elem (row (centers res) c) ax
        = (axis_sum ax (members c (labels res) points)
           / num_of_nat (length (members c (labels res) points)))%float.
Proof.
  intros Hn Hk Hit. rewrite kmeans_unfold.
  destruct (decide (length points = 0)) as [|_]; [lia|].
  destruct iters as [|n]; [lia|].
  rewrite seq_S, foldM_app. cbn [Nat.add foldM].
  destruct (kmeans_loop_inv points (length points) (Nat.min k (length points))
              (seq 0 n) (replicate (length points) 0, init_centers points k))
    as ([lbls ctrs] & -> & (H1 & H2 & H3)).
  { lia. }
  { repeat split; simpl.
    - by rewrite length_replicate.
    - apply length_init_centers.
    - apply Forall_replicate. lia. }
  cbn [fst snd] in H1, H2, H3. cbn [mbind completion_bind].
  unfold kmeans_step.
  destruct (assign_spec points ctrs lbls) as [Hlen Hlt]; [lia|by rewrite H2|].
  set (lbls' := assign points ctrs lbls) in *.
  destruct (accumulate_spec points ctrs lbls') as (sum & cnt & -> & Hacc);
    [lia|done|].
  cbn [mbind completion_bind]. eexists. split; [reflexivity|].
  cbn [labels centers fst snd].
  intros c Hc Hms ax Hax. rewrite length_update_centers in Hc.
  destruct (Hacc c Hc) as [Hsum Hcnt].
  assert (Hpos : 0 < default 0 (cnt !! c)).
  { rewrite Hcnt. destruct (members c lbls' points); [done|simpl; lia]. }
  rewrite update_centers_spec by done.
  by rewrite (Hsum ax Hax), Hcnt.
Qed.

Lemma kmeans_centers_are_centroids_witness :
  exists res, kmeans [[0; 0]; [10; 10]; [1; 1]; [9; 9]]%float 2 10 = Normal res /\
    centers res = [[0.5; 0.5]; [9.5; 9.5]]%float.
Proof.
  destruct (kmeans_centers_are_centroids [[0; 0]; [10; 10]; [1; 1]; [9; 9]]%float 2 10)
    as (res & Hres & _); [simpl; lia|lia|lia|].
  exists res. split; [exact Hres|]. vm_compute in Hres. by inversion Hres.
Defined.
